(** * CV personalisation: JD normalisation, keyword ranking and snippet retrieval

    A shallow embedding of the deterministic core of the repository:
    - [normalize_text]   (normalize_skills.py, and its inline copy in the app),
    - [_top_keywords], [_sentence_case], [_normalize_lines], [parse_jd]
                         (jd_parser.py, and their inline copies in the app),
    - [_overlap_score], [query_snippets]   (the single-file app).

    Conventions of the model.
    - A Python [str] is a list of characters ([list ascii]).  The text is
      taken to be 7-bit ASCII: [str.lower], [\w] and [str.strip] are the
      ASCII restrictions of the Python ones.
    - A [dict] whose iteration order matters (the skill map, the frequency
      table) is an association list in insertion order; a [set] of strings
      is a [gset].
    - A Python [int] is a [Z]; a [float] score is an exact rational [Q].
    - [re.sub] writes its replacement as it is; the canonical names, which
      are the replacements, are taken to hold no backslash ([plain_map]).
    - The vector index and the file system are parameters. *)

From Stdlib Require Import List Ascii String ZArith QArith Lia Bool.
From Stdlib Require Import Sorting.Sorted Sorting.Permutation.
From stdpp Require Import gmap strings.
Import ListNotations.

Local Open Scope nat_scope.

(** ** Characters and strings *)

Abbreviation str := (list ascii).

(** String literals of the examples. *)
Definition py (s : string) : str := list_ascii_of_string s.
Arguments py s%_string.

Definition code (c : ascii) : nat := nat_of_ascii c.

Definition between (lo hi n : nat) : bool := (lo <=? n) && (n <=? hi).

Definition is_upper (c : ascii) : bool := between 65 90 (code c).
Definition is_lower (c : ascii) : bool := between 97 122 (code c).
Definition is_digit (c : ascii) : bool := between 48 57 (code c).

(** [\w] : letters, digits and the underscore. *)
Definition is_word (c : ascii) : bool :=
  is_upper c || is_lower c || is_digit c || (code c =? 95).

Definition lower_char (c : ascii) : ascii :=
  if is_upper c then ascii_of_nat (code c + 32) else c.

Definition upper_char (c : ascii) : ascii :=
  if is_lower c then ascii_of_nat (code c - 32) else c.

(** [s.lower()] and [s.upper()]. *)
Definition lower (s : str) : str := map lower_char s.
Definition upper (s : str) : str := map upper_char s.

(** Whitespace removed by [str.strip()]: tab, newline, vertical tab, form
    feed, carriage return, the four separators 28..31, and the space. *)
Definition is_space (c : ascii) : bool :=
  between 9 13 (code c) || between 28 32 (code c).

Fixpoint lstrip (s : str) : str :=
  match s with
  | c :: s' => if is_space c then lstrip s' else s
  | [] => []
  end.

Definition rstrip (s : str) : str := rev (lstrip (rev s)).

(** [s.strip()] *)
Definition strip (s : str) : str := rstrip (lstrip s).

Definition str_eqb (a b : str) : bool := bool_decide (a = b).

(** ** The regular expression [\b] + [re.escape(p)] + [\b]

    [re.escape] makes the pattern a literal, so one match is an occurrence of
    [p] between two word boundaries. *)

(** The character at index [i], if any. *)
Definition char_at (t : str) (i : nat) : option ascii := nth_error t i.

Definition word_at (t : str) (i : nat) : bool :=
  match char_at t i with Some c => is_word c | None => false end.

(** Is the character before index [i] a word character?  There is none
    before index 0. *)
Definition word_before (t : str) (i : nat) : bool :=
  match i with
  | 0 => false
  | S j => word_at t j
  end.

(** [\b] holds at index [i] when exactly one of the two sides is a word
    character; the outside of the text counts as non-word. *)
Definition at_boundary (t : str) (i : nat) : bool :=
  xorb (word_before t i) (word_at t i).

(** Does the literal [p] occur in [t] at index [i]? *)
Definition occurs_at (p t : str) (i : nat) : bool :=
  str_eqb (firstn (length p) (skipn i t)) p.

(** The pattern matches at index [i]. *)
Definition match_at (p t : str) (i : nat) : bool :=
  at_boundary t i && occurs_at p t i && at_boundary t (i + length p).

(** [re.search(pattern, t)] as a truth value: a match starts at some index
    from 0 to [len(t)]. *)
Definition re_search (p t : str) : bool :=
  existsb (match_at p t) (seq 0 (S (length t))).

(** The scan of [re.sub]: [rest] is the text from index [i] on, [skip] counts
    the characters of a match still to be dropped.  A match of an empty
    pattern is empty: the replacement is written and the scan moves on by one
    character, which is copied. *)
Fixpoint sub_scan (p repl t : str) (i skip : nat) (rest : str) {struct rest} : str :=
  match skip with
  | S k =>
      match rest with
      | [] => []
      | _ :: r => sub_scan p repl t (S i) k r
      end
  | 0 =>
      if match_at p t i then
        match rest with
        | [] => repl
        | c :: r =>
            match length p with
            | 0 => repl ++ c :: sub_scan p repl t (S i) 0 r
            | S l => repl ++ sub_scan p repl t (S i) l r
            end
        end
      else
        match rest with
        | [] => []
        | c :: r => c :: sub_scan p repl t (S i) 0 r
        end
  end.

(** [re.sub(pattern, repl, t)]: every non-overlapping match, leftmost first,
    is replaced by [repl].  The replacement is written as it is, which is
    what Python does for a replacement without a backslash (see [plain]). *)
Definition re_sub (p repl t : str) : str := sub_scan p repl t 0 0 t.

(** A string without a backslash (code 92): as a replacement it is not a
    template, and [re.sub] writes it as it is. *)
Definition plain (s : str) : bool := forallb (fun c => negb (code c =? 92)) s.

(** ** normalize_skills.py *)

(** The skill map: canonical name and its synonyms, in the order of
    [skills_map.items()]. *)
Abbreviation SkillMap := (list (str * list str)).

(** The canonical names are plain: what the model of [re.sub] asks of the
    replacements. *)
Definition plain_map (skills_map : SkillMap) : bool :=
  forallb (fun entry => plain (fst entry)) skills_map.

(** The state of the two loops: [(normalized_text, detected)]. *)
Abbreviation NormState := (str * gset str)%type.

(** The body of [for syn in synonyms]. *)
Definition syn_step (canonical : str) (st : NormState) (syn : str) : NormState :=
  let '(normalized_text, detected) := st in
  let pattern := lower syn in
  if re_search pattern normalized_text
  then (re_sub pattern (lower canonical) normalized_text,
        {[ lower canonical ]} ∪ detected)
  else (normalized_text, detected).

(** The body of [for canonical, synonyms in skills_map.items()]. *)
Definition skill_step (st : NormState) (entry : str * list str) : NormState :=
  let '(canonical, synonyms) := entry in
  let '(normalized_text, detected) := fold_left (syn_step canonical) synonyms st in
  if re_search (lower canonical) normalized_text
  then (normalized_text, {[ lower canonical ]} ∪ detected)
  else (normalized_text, detected).

Definition normalize_text (text : str) (skills_map : SkillMap) : NormState :=
  fold_left skill_step skills_map (lower text, ∅).

(** ** Python lists: stable sorting and slicing *)

Section Sorting.
Context {A : Type} (le : A -> A -> bool).

(** [x] goes before the first element it does not exceed, hence before
    every element that ties with it. *)
Fixpoint insert_stable (x : A) (l : list A) : list A :=
  match l with
  | [] => [x]
  | y :: l' => if le x y then x :: l else y :: insert_stable x l'
  end.

(** A stable sort: the elements of [l] in the order of [le], ties in the
    order of [l]. *)
Fixpoint stable_sort (l : list A) : list A :=
  match l with
  | [] => []
  | x :: l' => insert_stable x (stable_sort l')
  end.

(** Sortedness together with stability, for a list whose order is described
    by a relation [before]: the sorted list is ordered by [le], and two
    elements that tie are in the order [before]. *)
Definition le_then (before : A -> A -> Prop) (a b : A) : Prop :=
  le a b = true /\ (le b a = true -> before a b).
End Sorting.

(** [sorted(l, key=key)] with integer keys. *)
Definition sorted_by_key {A : Type} (key : A -> Z) (l : list A) : list A :=
  stable_sort (fun x y => (key x <=? key y)%Z) l.

(** [l.sort(key=key, reverse=True)] with rational keys: descending, and
    still stable. *)
Definition sort_by_key_reverse {A : Type} (key : A -> Q) (l : list A) : list A :=
  stable_sort (fun x y => Qle_bool (key y) (key x)) l.

(** [l[:n]]: a negative [n] counts from the end. *)
Definition slice_to {A : Type} (l : list A) (n : Z) : list A :=
  if (n <? 0)%Z
  then firstn (Z.to_nat (Z.of_nat (length l) + n)) l
  else firstn (Z.to_nat n) l.

(** ** jd_parser.py: keywords *)

Definition stopword_list : list str :=
  map list_ascii_of_string
    [ "the"; "and"; "or"; "to"; "of"; "in"; "on"; "for"; "with"; "a"; "an"; "by"; "as";
      "is"; "are"; "be"; "will"; "this"; "that"; "we"; "you"; "our"; "your"; "at"; "from";
      "across"; "including"; "such"; "etc"; "about"; "into"; "within"; "over"; "under";
      "more"; "most"; "least"; "ability"; "experience"; "years"; "year"; "plus"; "etc.";
      "responsibilities"; "requirements"; "preferred"; "must"; "nice"; "have"; "skills";
      "role"; "job"; "description"; "position"; "candidate"; "ideal"; "work"; "working"
    ]%string.

Definition _STOPWORDS : gset str := list_to_set stopword_list.

(** The character class [[A-Za-z0-9\+\#\.]]. *)
Definition is_token_char (c : ascii) : bool :=
  is_upper c || is_lower c || is_digit c
  || (code c =? 43) || (code c =? 35) || (code c =? 46).

(** A finished run of token characters is a match when it has at least
    three characters. *)
Definition emit (run : str) : list str :=
  if 3 <=? length run then [run] else [].

(** [re.findall(r"[A-Za-z0-9\+\#\.]{3,}", t)]: the quantifier is greedy, so
    the matches are the maximal runs of at least three token characters;
    [run] is the run being read. *)
Fixpoint findall_tokens (run : str) (t : str) : list str :=
  match t with
  | [] => emit run
  | c :: t' =>
      if is_token_char c then findall_tokens (run ++ [c]) t'
      else emit run ++ findall_tokens [] t'
  end.

(** The frequency table, a [dict] in insertion order. *)
Abbreviation FreqTable := (list (str * Z)).

(** [freq.get(w, default)] *)
Fixpoint freq_get (freq : FreqTable) (w : str) (default : Z) : Z :=
  match freq with
  | [] => default
  | (k, v) :: freq' => if str_eqb k w then v else freq_get freq' w default
  end.

(** [freq[w] = v]: a known key keeps its place, a new key goes last. *)
Fixpoint freq_set (freq : FreqTable) (w : str) (v : Z) : FreqTable :=
  match freq with
  | [] => [(w, v)]
  | (k, v0) :: freq' =>
      if str_eqb k w then (k, v) :: freq' else (k, v0) :: freq_set freq' w v
  end.

(** [freq[w] = freq.get(w, 0) + 1] *)
Definition bump (freq : FreqTable) (w : str) : FreqTable :=
  freq_set freq w (freq_get freq w 0 + 1)%Z.

(** The body of [for w in words]. *)
Definition count_word (freq : FreqTable) (w : str) : FreqTable :=
  if bool_decide (w ∈ _STOPWORDS) then freq
  else bump freq w.

Definition _top_keywords (text : str) (n : Z) : list str :=
  let words := findall_tokens [] (lower text) in
  let freq := fold_left count_word words [] in
  map fst (slice_to (sorted_by_key (fun x => (- snd x)%Z) freq) n).

(** ** jd_parser.py: the record *)

(** [s.strip()], then [s[0].upper() + s[1:]] (the app writes
    [s[:1].upper() + s[1:]]).  On ASCII text the upper case of a character
    is one character; outside ASCII [str.upper] can give two characters or
    leave a lower-case letter as it is, which the model does not cover. *)
Definition _sentence_case (s : str) : str :=
  match strip s with
  | [] => []
  | c :: s' => upper [c] ++ s'
  end.

Definition _normalize_lines (lines : list str) (skills_map : SkillMap) : list str :=
  map (fun l => _sentence_case (fst (normalize_text l skills_map))) lines.

(** [a <= b] on strings: lexicographic on character codes. *)
Fixpoint str_leb (a b : str) : bool :=
  match a, b with
  | [], _ => true
  | _ :: _, [] => false
  | x :: a', y :: b' =>
      if code x <? code y then true
      else if code y <? code x then false
      else str_leb a' b'
  end.

(** [sorted(detected_skills)] *)
Definition sorted_skills (detected : gset str) : list str :=
  stable_sort str_leb (elements detected).

Record JDRecord := {
  title : str;
  company : str;
  location : str;
  seniority : str;
  must_haves : list str;
  nice_to_haves : list str;
  responsibilities : list str;
  keywords : list str;
  normalized_skills : list str;
  normalized_text : str
}.

(** The keys of [_SECTION_HEADERS]. *)
Inductive section_header := Responsibilities | Must_haves | Nice_to_haves.

(** Exceptions that reach [parse_jd]. *)
Inductive exn :=
| FileNotFoundError
| OtherError.

Inductive result (A : Type) :=
| Return (a : A)
| Raise (e : exn).
Arguments Return {A} a.
Arguments Raise {A} e.

(** What a path of the file system holds: nothing, a file that cannot be
    read as JSON, or a skill map. *)
Inductive file_state :=
| Missing
| Unreadable
| Holds (skills_map : SkillMap).

Section Parser.
(** The field heuristics are regular-expression searches over the raw
    text; each returns a string (or a list of strings) for every text. *)
Variable _extract_title _extract_company _extract_location _guess_seniority : str -> str.
Variable _extract_bullets : str -> section_header -> list str.
(** The file system. *)
Variable disk : str -> file_state.

(** [load_skills_map] of normalize_skills.py. *)
Definition load_skills_map (path : str) : result SkillMap :=
  match disk path with
  | Missing => Raise FileNotFoundError
  | Unreadable => Raise OtherError
  | Holds skills_map => Return skills_map
  end.

Definition _safe_load_skills_map (path : str) : result SkillMap :=
  match load_skills_map path with
  | Raise FileNotFoundError => Return []
  | r => r
  end.

(** [load_skills_map] of the app: a missing file is an empty map. *)
Definition app_load_skills_map (path : str) : result SkillMap :=
  match disk path with
  | Missing => Return []
  | Unreadable => Raise OtherError
  | Holds skills_map => Return skills_map
  end.

(** [parse_jd] of the app, which is given the skill map. *)
Definition app_parse_jd (jd_text : str) (skills_map : SkillMap) (top_kw : Z) : JDRecord :=
  let jd_text := strip jd_text in
  let title := _extract_title jd_text in
  let company := _extract_company jd_text in
  let location := _extract_location jd_text in
  let seniority := _guess_seniority jd_text in
  let must_haves_raw := _extract_bullets jd_text Must_haves in
  let nice_to_haves_raw := _extract_bullets jd_text Nice_to_haves in
  let responsibilities_raw := _extract_bullets jd_text Responsibilities in
  let '(normalized_text, detected_skills) := normalize_text jd_text skills_map in
  let must_haves := _normalize_lines must_haves_raw skills_map in
  let nice_to_haves := _normalize_lines nice_to_haves_raw skills_map in
  let responsibilities := _normalize_lines responsibilities_raw skills_map in
  let keywords := _top_keywords normalized_text top_kw in
  {| title := title;
     company := company;
     location := location;
     seniority := seniority;
     must_haves := slice_to must_haves 15;
     nice_to_haves := slice_to nice_to_haves 15;
     responsibilities := slice_to responsibilities 30;
     keywords := keywords;
     normalized_skills := sorted_skills detected_skills;
     normalized_text := normalized_text |}.

(** [parse_jd] of jd_parser.py, which is given the path of the skill map. *)
Definition parse_jd (jd_text : str) (skills_map_path : str) (top_kw : Z) : result JDRecord :=
  let jd_text := strip jd_text in
  match _safe_load_skills_map skills_map_path with
  | Raise e => Raise e
  | Return skills_map =>
      let title := _extract_title jd_text in
      let company := _extract_company jd_text in
      let location := _extract_location jd_text in
      let seniority := _guess_seniority jd_text in
      let must_haves_raw := _extract_bullets jd_text Must_haves in
      let nice_to_haves_raw := _extract_bullets jd_text Nice_to_haves in
      let responsibilities_raw := _extract_bullets jd_text Responsibilities in
      let '(normalized_text, detected_skills) := normalize_text jd_text skills_map in
      let must_haves := _normalize_lines must_haves_raw skills_map in
      let nice_to_haves := _normalize_lines nice_to_haves_raw skills_map in
      let responsibilities := _normalize_lines responsibilities_raw skills_map in
      let keywords := _top_keywords normalized_text top_kw in
      Return
        {| title := title;
           company := company;
           location := location;
           seniority := seniority;
           must_haves := slice_to must_haves 15;
           nice_to_haves := slice_to nice_to_haves 15;
           responsibilities := slice_to responsibilities 30;
           keywords := keywords;
           normalized_skills := sorted_skills detected_skills;
           normalized_text := normalized_text |}
  end.
End Parser.

(** ** The app: retrieval with a skill-overlap boost *)

(** The metadata of a snippet; [None] stands for a missing key. *)
Record Meta := {
  tags : option (list str);
  meta_seniority : option str
}.

(** [len(a) or 1] *)
Definition or_one (n : nat) : nat := if n =? 0 then 1 else n.

(** The variable [tags] of [_overlap_score]: the tags of the metadata
    ([snippet_meta or {}], then [.get("tags", [])]) as a set, lower-cased. *)
Definition lowered_tags (snippet_meta : option Meta) : gset str :=
  let tag_list :=
    match snippet_meta with
    | Some m => match tags m with Some l => l | None => [] end
    | None => []
    end in
  let tags : gset str := list_to_set tag_list in
  set_map lower tags.

Definition _overlap_score (snippet_meta : option Meta) (jd_skills : gset str) : Q :=
  let tags := lowered_tags snippet_meta in
  let inter := size (tags ∩ jd_skills) in
  let union := or_one (size (tags ∪ jd_skills)) in
  Z.of_nat inter # Pos.of_nat union.

(** The answer of the vector index, one list per requested field. *)
Record QueryResult := {
  documents : list str;
  metadatas : list (option Meta);
  distances : list Q
}.

(** [zip(a, b, c)] stops with the shortest list. *)
Fixpoint zip3 {A B C : Type} (a : list A) (b : list B) (c : list C) : list (A * B * C) :=
  match a, b, c with
  | x :: a', y :: b', z :: c' => (x, y, z) :: zip3 a' b' c'
  | _, _, _ => []
  end.

Abbreviation Boosted := (str * option Meta * Q)%type.

Definition doc_of (b : Boosted) : str := fst (fst b).
Definition score_of (b : Boosted) : Q := snd b.

(** [1.0 / (1.0 + d)]; the distances of the index are not negative, so the
    denominator is not zero. *)
Definition base_score (d : Q) : Q := (1 / (1 + d))%Q.

(** [{s.lower() for s in (jd_skills or set())}] *)
Definition lower_skills (jd_skills : option (gset str)) : gset str :=
  set_map lower (default (∅ : gset str) jd_skills).

(** The list [boosted] before it is sorted. *)
Definition boost (docs : list str) (metas : list (option Meta)) (dists : list Q)
    (jd_skills : gset str) : list Boosted :=
  let base_scores := map base_score dists in
  map (fun '(doc, meta, base) =>
         let bonus := _overlap_score meta jd_skills in
         (doc, meta, (base + (1 # 4) * bonus)%Q))
      (zip3 docs metas base_scores).

(** [res.get("distances", [[]])[0] or [1.0] * len(docs)] *)
Definition dists_of (res : QueryResult) : list Q :=
  match distances res with
  | [] => repeat 1%Q (length (documents res))
  | ds => ds
  end.

Section Retriever.
(** [ensure_chroma_and_index().query(query_texts=[q], n_results=n, ...)] *)
Variable coll_query : str -> Z -> QueryResult.

(** The candidates of a query, with their scores, in the order of the
    index: the list [boosted] before it is sorted. *)
Definition candidates (jd_text_or_norm : str) (jd_skills : option (gset str)) (top_k : Z)
    : list Boosted :=
  let res := coll_query jd_text_or_norm (Z.min 50 (top_k * 2)) in
  let docs := documents res in
  let metas := metadatas res in
  let dists := dists_of res in
  boost docs metas dists (lower_skills jd_skills).

Definition query_snippets (jd_text_or_norm : str) (jd_skills : option (gset str)) (top_k : Z)
    : list str :=
  let boosted := candidates jd_text_or_norm jd_skills top_k in
  let boosted := sort_by_key_reverse score_of boosted in
  map doc_of (slice_to boosted top_k).
End Retriever.

(** ** jd_parser.py: the field heuristics *)

(** The leading characters that satisfy [f] are dropped. *)
Fixpoint drop_while (f : ascii -> bool) (s : str) : str :=
  match s with
  | c :: s' => if f c then drop_while f s' else s
  | [] => []
  end.

(** The leading characters that satisfy [f]. *)
Fixpoint take_while (f : ascii -> bool) (s : str) : str :=
  match s with
  | c :: s' => if f c then c :: take_while f s' else []
  | [] => []
  end.

(** The class of trailing marks of [_clean_line] on the characters of the
    model: semicolon, comma, colon, full stop and hyphen.  The class of the
    source has one more member, a long dash, which is U+2013 in
    jd_parser.py and U+2014 in the app: the two copies of [_clean_line]
    differ on a line that ends with such a dash, and agree on ASCII text,
    which holds neither. *)
Definition is_trailing_mark (c : ascii) : bool :=
  (code c =? 59) || (code c =? 44) || (code c =? 58) || (code c =? 46) || (code c =? 45).

(** [re.sub(r"[;,:.\-—]+$", "", s)] for a stripped [s], where [$] is the
    end of the string: the run of marks that ends the string is removed. *)
Definition drop_trailing_marks (s : str) : str :=
  rev (drop_while is_trailing_mark (rev s)).

Definition _clean_line (s : str) : str :=
  let s := strip s in
  strip (drop_trailing_marks s).

(** The class [[-\s]] of the seniority patterns. *)
Definition is_gap_char (c : ascii) : bool := (code c =? 45) || is_space c.

(** One alternative of a seniority pattern: a literal, or [mid[-\s]*level]. *)
Inductive alternative :=
| Literal (p : str)
| Mid_level.

(** [\bmid[-\s]*level\b] matches at index [i]: the run of gap characters
    after "mid" is taken whole, since "level" begins with none. *)
Definition mid_level_at (t : str) (i : nat) : bool :=
  let gap := length (take_while is_gap_char (skipn (i + 3) t)) in
  at_boundary t i
  && occurs_at (py "mid") t i
  && occurs_at (py "level") t (i + 3 + gap)
  && at_boundary t (i + 3 + gap + 5).

(** [re.search(r"\b(a1|a2|...)\b", text, re.I)] for one alternative, on the
    lower-cased text: with [re.I] the letters match without regard to case,
    and the patterns of the source are in lower case. *)
Definition alternative_search (a : alternative) (t : str) : bool :=
  match a with
  | Literal p => re_search p t
  | Mid_level => existsb (mid_level_at t) (seq 0 (S (length t)))
  end.

Definition _SENIORITY_MAP : list (list alternative * str) :=
  [ ([Literal (py "principal"); Literal (py "lead"); Literal (py "staff")], py "Principal/Lead");
    ([Literal (py "senior"); Literal (py "sr.")], py "Senior");
    ([Mid_level; Literal (py "intermediate")], py "Mid");
    ([Literal (py "junior"); Literal (py "jr.")], py "Junior") ].

(** The loop of [_guess_seniority]: the label of the first pattern that is
    found, or the empty string. *)
Fixpoint first_label (rules : list (list alternative * str)) (t : str) : str :=
  match rules with
  | [] => []
  | (pat, label) :: rules' =>
      if existsb (fun a => alternative_search a t) pat then label
      else first_label rules' t
  end.

Definition _guess_seniority (text : str) : str :=
  first_label _SENIORITY_MAP (lower text).

(** *** Helpers of the heuristics *)

(** The first result of [f] along [l]. *)
Fixpoint first_some {A B : Type} (f : A -> option B) (l : list A) : option B :=
  match l with
  | [] => None
  | x :: l' => match f x with
               | Some y => Some y
               | None => first_some f l'
               end
  end.

(** The indices 0 .. [len(t)] at which a regular expression is tried. *)
Definition positions (t : str) : list nat := seq 0 (S (length t)).

(** [t[i:j]] for [i <= j]. *)
Definition substring (t : str) (i j : nat) : str := firstn (j - i) (skipn i t).

(** The end of the run of whitespace that begins at index [i]: where a
    greedy [\s*] stops. *)
Definition ws_end (t : str) (i : nat) : nat :=
  i + length (take_while is_space (skipn i t)).

(** The lower-case literal [p] is found at index [i], letters compared
    without regard to case ([re.I]). *)
Definition starts_ci (p t : str) (i : nat) : bool :=
  str_eqb (lower (firstn (length p) (skipn i t))) p.

(** The lower-case literal [p] is found somewhere in [s], without regard to
    case. *)
Definition contains_ci (p s : str) : bool :=
  existsb (starts_ci p s) (positions s).

Definition is_newline (c : ascii) : bool := code c =? 10.
Definition is_letter (c : ascii) : bool := is_upper c || is_lower c.

(** [^] under [re.M]: the start of the text, or right after a newline. *)
Definition line_start (t : str) (i : nat) : bool :=
  match i with
  | 0 => true
  | S j => match char_at t j with
           | Some c => is_newline c
           | None => false
           end
  end.

(** The last character of a run of whitespace that is no newline, as a
    string: what [\s*(.+)$] captures when the whitespace runs to the end of
    the text and [\s*] has to give characters back. *)
Definition last_on_line (w : str) : option str :=
  match drop_while is_newline (rev w) with
  | c :: _ => Some [c]
  | [] => None
  end.

(** [^\s*label\s*[:\-]\s*(.+)$] under [re.I] and [re.M], tried at index
    [i]: the captured group, if the pattern matches there.  Every [\s*]
    takes its whole run of whitespace, newlines included; [(.+)] then takes
    the rest of the line. *)
Definition labeled_at (label t : str) (i : nat) : option str :=
  if line_start t i then
    let j := ws_end t i in
    if starts_ci label t j then
      let k := ws_end t (j + length label) in
      match char_at t k with
      | Some c =>
          if (code c =? 58) || (code c =? 45) then
            let e := ws_end t (S k) in
            if e <? length t
            then Some (take_while (fun c => negb (is_newline c)) (skipn e t))
            else last_on_line (skipn (S k) t)
          else None
      | None => None
      end
    else None
  else None.

(** [re.search(r"(?im)^\s*label\s*[:\-]\s*(.+)$", text)], then [group(1)]. *)
Definition labeled_value (label text : str) : option str :=
  first_some (labeled_at label text) (positions text).

(** The line boundaries of [str.splitlines]: line feed, vertical tab, form
    feed, carriage return and the separators 28 to 30. *)
Definition is_line_break (c : ascii) : bool :=
  between 10 13 (code c) || between 28 30 (code c).

(** [text.splitlines()]; [cur] is the line being read, [after_cr] tells
    that the last character was a carriage return, whose line feed is part
    of the same boundary. *)
Fixpoint splitlines_from (after_cr : bool) (cur : str) (t : str) : list str :=
  match t with
  | [] => match cur with [] => [] | _ => [cur] end
  | c :: t' =>
      if after_cr && is_newline c then splitlines_from false cur t'
      else if is_line_break c then cur :: splitlines_from (code c =? 13) [] t'
      else splitlines_from false (cur ++ [c]) t'
  end.

Definition splitlines (t : str) : list str := splitlines_from false [] t.

Definition emit_word (run : str) : list str :=
  match run with [] => [] | _ => [run] end.

(** [s.split()]: the runs of characters that are no whitespace. *)
Fixpoint split_from (cur : str) (s : str) : list str :=
  match s with
  | [] => emit_word cur
  | c :: s' =>
      if is_space c then emit_word cur ++ split_from [] s'
      else split_from (cur ++ [c]) s'
  end.

Definition split (s : str) : list str := split_from [] s.

(** [s.title()]: a letter after a letter is lower-cased, any other letter
    is upper-cased. *)
Fixpoint title_from (after_letter : bool) (s : str) : str :=
  match s with
  | [] => []
  | c :: s' =>
      if is_letter c
      then (if after_letter then lower_char c else upper_char c) :: title_from true s'
      else c :: title_from false s'
  end.

Definition to_title (s : str) : str := title_from false s.

(** *** The fields *)

Definition _extract_title (text : str) : str :=
  match labeled_value (py "title") text with
  | Some group => _clean_line group
  | None =>
      let lines := map strip (List.filter (fun l => negb (str_eqb (strip l) []))
                                          (splitlines text)) in
      match lines with
      | first :: _ =>
          if (length (split first) <=? 12)
             && negb (existsb (fun p => contains_ci p first)
                              [py "company"; py "about us"; py "who we are"])
          then _clean_line first
          else []
      | [] => []
      end
  end.

(** The class [[A-Za-z0-9&\-\s]] of the company pattern. *)
Definition is_name_char (c : ascii) : bool :=
  is_letter c || is_digit c || (code c =? 38) || (code c =? 45) || is_space c.

(** [about\s+([A-Z][A-Za-z0-9&\-\s]{2,40})] under [re.I], tried at index
    [i]: with [re.I] the class [[A-Z]] is any letter. *)
Definition about_at (t : str) (i : nat) : option str :=
  if starts_ci (py "about") t i then
    let j := i + 5 in
    let k := ws_end t j in
    if j <? k then
      match char_at t k with
      | Some c =>
          if is_letter c then
            let run := firstn 40 (take_while is_name_char (skipn (S k) t)) in
            if 2 <=? length run then Some (c :: run) else None
          else None
      | None => None
      end
    else None
  else None.

Definition _extract_company (text : str) : str :=
  match labeled_value (py "company") text with
  | Some group => _clean_line group
  | None =>
      match first_some (about_at text) (positions text) with
      | Some group => _clean_line group
      | None => []
      end
  end.

(** The alternatives of the location pattern, in the order of the source. *)
Definition known_places : list str :=
  [py "singapore"; py "london"; py "new york"; py "sydney"; py "remote"; py "hybrid";
   py "onsite"].

(** [\b(singapore|...|onsite)\b] under [re.I], tried at index [i]: the
    text matched by the first alternative that fits.  The letters are
    compared as ASCII letters; outside ASCII [re.I] also takes the dotted
    capital I and the dotless i for an i, which the model does not cover. *)
Definition place_at (t : str) (i : nat) : option str :=
  if at_boundary t i then
    first_some (fun p => if starts_ci p t i && at_boundary t (i + length p)
                         then Some (substring t i (i + length p))
                         else None)
               known_places
  else None.

Definition _extract_location (text : str) : str :=
  match labeled_value (py "location") text with
  | Some group => _clean_line group
  | None =>
      match first_some (place_at text) (positions text) with
      | Some m => to_title m
      | None => []
      end
  end.

(** *** The bullet sections *)

(** One alternative of a header pattern: literals joined by [[-\s]*]. *)
Abbreviation header_alternative := (list str).

(** The alternative is found at index [pos] of the lower-cased text; before
    every literal but the first, the whole run of hyphens and whitespace is
    skipped. *)
Fixpoint parts_at (first : bool) (parts : header_alternative) (t : str) (pos : nat) : bool :=
  match parts with
  | [] => true
  | p :: parts' =>
      let pos := if first then pos
                 else pos + length (take_while is_gap_char (skipn pos t)) in
      occurs_at p t pos && parts_at false parts' t (pos + length p)
  end.

Definition _SECTION_HEADERS (h : section_header) : list header_alternative :=
  match h with
  | Responsibilities =>
      [[py "responsibilities"]; [py "what you'll do"]; [py "what you will do"];
       [py "duties"]; [py "role and responsibilities"]]
  | Must_haves =>
      [[py "requirements"]; [py "must"; py "have"]; [py "qualifications"]; [py "required"]]
  | Nice_to_haves =>
      [[py "nice"; py "to"; py "have"]; [py "preferred"]; [py "bonus"]; [py "good to have"]]
  end.

(** [re.search(header_regex, text, re.I)], then [header.start()]. *)
Definition header_start (header_regex : list header_alternative) (text : str) : option nat :=
  List.find (fun i => existsb (fun a => parts_at true a (lower text) i) header_regex)
            (positions text).

(** The bullet markers [[\-*•]] among the characters of the model. *)
Definition is_bullet (c : ascii) : bool := (code c =? 45) || (code c =? 42).

Definition is_at (f : ascii -> bool) (t : str) (i : nat) : bool :=
  match char_at t i with Some c => f c | None => false end.

(** [(?:\n\s*\n|$)] matches at index [e]: a blank line begins there, or
    the text ends there, or only its last newline is left. *)
Definition block_end_at (t : str) (e : nat) : bool :=
  (e =? length t)
  || ((S e =? length t) && is_at is_newline t e)
  || (is_at is_newline t e
      && existsb is_newline (take_while is_space (skipn (S e) t))).

(** [(?:\r?\n|\r)\s*([\-*•].+?)(?:\n\s*\n|$)] under [re.S], tried at
    index [p]: after the line end the whitespace is skipped, a bullet marker
    must follow, and the lazy [.+?] stops at the first block end at least one
    character later. *)
Definition block_at (t : str) (p : nat) : option str :=
  if is_at (fun c => is_newline c || (code c =? 13)) t p then
    let b := ws_end t (S p) in
    if is_at is_bullet t b then
      match List.find (block_end_at t) (seq (b + 2) (S (length t) - (b + 2))) with
      | Some e => Some (substring t b e)
      | None => None
      end
    else None
  else None.

(** One line of the block: a marker followed by whitespace opens a
    bullet, whose text is stripped and cleaned unless it is empty. *)
Definition bullet_of_line (line : str) : list str :=
  match line with
  | c :: rest =>
      if is_bullet c && is_at is_space rest 0 then
        let cleaned := strip (drop_while is_space rest) in
        match cleaned with
        | [] => []
        | _ => [_clean_line cleaned]
        end
      else []
  | [] => []
  end.

Definition bullets_of (text : str) (header_regex : list header_alternative) : list str :=
  match header_start header_regex text with
  | None => []
  | Some start =>
      let section := skipn start text in
      match first_some (block_at section) (positions section) with
      | None => []
      | Some bullets_block =>
          let lines := map strip (splitlines bullets_block) in
          concat (map bullet_of_line lines)
      end
  end.

Definition _extract_bullets (text : str) (h : section_header) : list str :=
  bullets_of text (_SECTION_HEADERS h).

(** ** The app: from the job description to the snippets *)

Section Pipeline.
Variable _extract_title _extract_company _extract_location _guess_seniority : str -> str.
Variable _extract_bullets : str -> section_header -> list str.
Variable coll_query : str -> Z -> QueryResult.

(** The step of the page between the parser and the retriever:
    [jd_parsed = parse_jd(jd_text, skills_map)],
    [norm_text = jd_parsed.get("normalized_text") or jd_text],
    [norm_skills = set(jd_parsed.get("normalized_skills", []))],
    [snips = query_snippets(norm_text, norm_skills, top_k=snippet_count)]. *)
Definition snippets_for_jd (jd_text : str) (skills_map : SkillMap) (snippet_count : Z)
    : JDRecord * list str :=
  let jd_parsed :=
    app_parse_jd _extract_title _extract_company _extract_location _guess_seniority
                 _extract_bullets jd_text skills_map 30 in
  let norm_text := match normalized_text jd_parsed with
                   | [] => jd_text
                   | t => t
                   end in
  let norm_skills : gset str := list_to_set (normalized_skills jd_parsed) in
  let snips := query_snippets coll_query norm_text (Some norm_skills) snippet_count in
  (jd_parsed, snips).
End Pipeline.

(** * The vocabulary of the statements *)

(** ** The normalizer *)

(** The pattern begins and ends with a word character, so that [\b] on
    either side asks for a non-word character (or an end of the text) next
    to the match. *)
Definition word_delimited (p : str) : bool :=
  word_at p 0 && word_before p (length p).

(** Every occurrence of [p] in [t] has a word character right before it or
    right after it: [p] is only found inside larger words. *)
Definition embedded_only (p t : str) : bool :=
  forallb (fun i => implb (occurs_at p t i)
                          (word_before t i || word_at t (i + length p)))
          (seq 0 (S (length t))).

(** No synonym of the map is found in [cur]. *)
Definition no_synonym_in (skills_map : SkillMap) (cur : str) : bool :=
  forallb (fun entry : str * list str =>
             forallb (fun syn => negb (re_search (lower syn) cur)) (snd entry))
          skills_map.

(** The skill map with every name and synonym lower-cased. *)
Definition lower_names (skills_map : SkillMap) : SkillMap :=
  map (fun entry : str * list str => (lower (fst entry), map lower (snd entry))) skills_map.

(** [p] appears in [t] as a whole word, in the words of the specification:
    an occurrence with no word character right before it and none right
    after it. *)
Definition whole_word_in (p t : str) : bool :=
  existsb (fun i => occurs_at p t i
                    && negb (word_before t i) && negb (word_at t (i + length p)))
          (seq 0 (S (length t))).

(** ** Words and settled maps *)

(** The words of a string: its maximal runs of word characters, in order.
    [cur] is the run being read. *)
Fixpoint words_acc (cur s : str) : list str :=
  match s with
  | [] => match cur with [] => [] | _ => [cur] end
  | c :: s' =>
      if is_word c then words_acc (cur ++ [c]) s'
      else match cur with
           | [] => words_acc [] s'
           | _ => cur :: words_acc [] s'
           end
  end.

Definition words (s : str) : list str := words_acc [] s.

(** One word: not empty, word characters only. *)
Definition single_word (s : str) : bool :=
  match s with [] => false | _ => forallb is_word s end.

(** The two strings have a word in common: a word of one is found as a
    whole word in the other. *)
Definition share_word (u v : str) : bool :=
  existsb (fun w => re_search w v) (words u) || existsb (fun w => re_search w u) (words v).

(** A synonym that is not the canonical name of its own entry, in lower
    case: replacing it changes the text. *)
Definition proper (canonical syn : str) : bool :=
  negb (str_eqb (lower syn) (lower canonical)).

(** The pattern [q] and the replacement [c] are apart: they have no word in
    common, and [q] is one word or [c] begins and ends with a word
    character. *)
Definition apart (q c : str) : bool :=
  negb (share_word q c) && (single_word q || word_delimited c).

(** A settled map: every proper synonym begins and ends with a word
    character and is apart from every canonical name of the map. *)
Definition settled (skills_map : SkillMap) : bool :=
  forallb (fun entry : str * list str =>
             forallb (fun syn =>
                        implb (proper (fst entry) syn)
                              (word_delimited (lower syn)
                               && forallb (fun e : str * list str =>
                                             apart (lower syn) (lower (fst e)))
                                          skills_map))
                     (snd entry))
          skills_map.

(** Every canonical name begins and ends with a word character. *)
Definition names_delimited (skills_map : SkillMap) : bool :=
  forallb (fun entry : str * list str => word_delimited (lower (fst entry))) skills_map.

(** The replacements of the two loops, in order: the pattern and what is
    written for it. *)
Definition steps (skills_map : SkillMap) : list (str * str) :=
  flat_map (fun entry : str * list str =>
              map (fun syn => (lower syn, lower (fst entry))) (snd entry))
           skills_map.

(** The working text after one replacement. *)
Definition text_step (cur : str) (step : str * str) : str :=
  if re_search (fst step) cur then re_sub (fst step) (snd step) cur else cur.

(** The replacements that come before the turn of a synonym: those of the
    entries [earlier], then those of the synonyms [before] of its own
    entry. *)
Definition steps_before (earlier : SkillMap) (canonical : str) (before : list str)
    : list (str * str) :=
  steps earlier ++ map (fun syn => (lower syn, lower canonical)) before.

(** No replacement of [l] takes a match of [q] away: each one writes its
    own pattern, or has a pattern that begins and ends with a word character
    and has no word in common with [q]. *)
Definition keeps_matches_of (q : str) (l : list (str * str)) : bool :=
  forallb (fun step : str * str =>
             str_eqb (fst step) (snd step)
             || (word_delimited (fst step) && negb (share_word (fst step) q)))
          l.

(** No replacement of [l] brings a match of [q]: each one writes its own
    pattern, or has a pattern that begins and ends with a word character
    and writes a text from which [q] is apart. *)
Definition brings_no_match_of (q : str) (l : list (str * str)) : bool :=
  forallb (fun step : str * str =>
             str_eqb (fst step) (snd step)
             || (word_delimited (fst step) && apart q (snd step)))
          l.

(** The names behind the detected skills are found in the working text. *)
Definition names_found (skills_map : SkillMap) (st : NormState) : Prop :=
  forall x : str, x ∈ snd st ->
    exists entry : str * list str,
      In entry skills_map /\ x = lower (fst entry) /\ re_search x (fst st) = true.

(** Sentence case: no whitespace around, no lower-case letter in front, no
    upper-case letter after the first character. *)
Definition sentence_cased (l : str) : Prop :=
  strip l = l
  /\ (forall c rest, l = c :: rest -> is_lower c = false)
  /\ Forall (fun c => is_upper c = false) (skipn 1 l).

(** The names that the location pattern can give. *)
Definition place_names : list str :=
  [py "Singapore"; py "London"; py "New York"; py "Sydney"; py "Remote"; py "Hybrid";
   py "Onsite"].

(** The line feed. *)
Definition nl : str := [ascii_of_nat 10].

(** ** The keywords *)

(** The words that are counted: the tokens of the lower-cased text that are
    not stopwords, in the order of the text. *)
Definition counted_words (text : str) : list str :=
  List.filter (fun w => negb (bool_decide (w ∈ _STOPWORDS)))
              (findall_tokens [] (lower text)).

(** How many times [w] is in [l]. *)
Fixpoint occurrences (w : str) (l : list str) : Z :=
  match l with
  | [] => 0
  | x :: l' => ((if str_eqb x w then 1 else 0) + occurrences w l')%Z
  end.

(** The index at which [w] is first seen in [l] ([len(l)] when it is not). *)
Fixpoint first_index (w : str) (l : list str) : nat :=
  match l with
  | [] => 0
  | x :: l' => if str_eqb x w then 0 else S (first_index w l')
  end.

(** [a] is ranked before [b]: it is more frequent, or as frequent and seen
    first. *)
Definition ranks_before (toks : list str) (a b : str) : Prop :=
  (occurrences b toks < occurrences a toks)%Z
  \/ (occurrences a toks = occurrences b toks /\ first_index a toks < first_index b toks).

(** A character of a keyword: a lower-case letter, a digit, or one of
    [+], [#], [.]. *)
Definition is_keyword_char (c : ascii) : bool :=
  is_lower c || is_digit c || (code c =? 43) || (code c =? 35) || (code c =? 46).

(** The full ranking: [_top_keywords] before the slice. *)
Definition ranking (text : str) : list str :=
  map fst (sorted_by_key (fun x : str * Z => (- snd x)%Z)
             (fold_left count_word (findall_tokens [] (lower text)) [])).

(** ** The retriever *)


(** An index with two snippets at distances 1 and 0, without tags. *)
Definition sample_index (q : str) (n_results : Z) : QueryResult :=
  {| documents := [py "ran the help desk"; py "migrated the servers"];
     metadatas := [None; Some {| tags := None; meta_seniority := None |}];
     distances := [1%Q; 0%Q] |}.

(** An index that answers without distances. *)
Definition bare_index (q : str) (n_results : Z) : QueryResult :=
  {| documents := [py "ran the help desk"];
     metadatas := [None];
     distances := [] |}.

(** * Examples *)

(** The skill map of the first scenario of the specification. *)
Definition scenario_map : SkillMap :=
  [(py "Active Directory", [py "AD"]);
   (py "Multi-Factor Authentication", [py "MFA"])].

Example sub_whole_words :
  re_sub (py "ad") (py "active directory") (py "ad and mfa, ad; bad")
  = py "active directory and mfa, active directory; bad".
Proof. vm_compute. reflexivity. Qed.

Example sub_empty_pattern : re_sub (py "") (py "X") (py "ab cd") = py "XabX XcdX".
Proof. vm_compute. reflexivity. Qed.

Example search_inside_word : re_search (py "java") (py "javascript") = false.
Proof. vm_compute. reflexivity. Qed.

(** [\b] after a non-word character asks for a word character next. *)
Example search_after_symbol :
  re_search (py "c++") (py "c++ developer") = false
  /\ re_search (py "c++") (py "c++x") = true.
Proof. split; vm_compute; reflexivity. Qed.

Example normalize_scenario :
  fst (normalize_text (py "AD and MFA") scenario_map)
  = py "active directory and multi-factor authentication"
  /\ py "active directory" ∈ snd (normalize_text (py "AD and MFA") scenario_map)
  /\ py "multi-factor authentication" ∈ snd (normalize_text (py "AD and MFA") scenario_map)
  /\ size (snd (normalize_text (py "AD and MFA") scenario_map)) = 2.
Proof. repeat split; vm_compute; reflexivity. Qed.

Example sentence_case_scenario :
  _normalize_lines [py "AD and MFA"] scenario_map
  = [py "Active directory and multi-factor authentication"].
Proof. vm_compute. reflexivity. Qed.

Example keywords_sample :
  _top_keywords (py "The terraform and AWS, aws c++ node.js the etc. terraform; aws") 3
  = [py "aws"; py "terraform"; py "c++"].
Proof. vm_compute. reflexivity. Qed.

Example keywords_ties_first_seen :
  _top_keywords (py "bbb aaa ccc aaa ccc") 30 = [py "aaa"; py "ccc"; py "bbb"].
Proof. vm_compute. reflexivity. Qed.

(** * The skill map is missing or empty *)

Lemma normalize_text_empty_map (text : str) :
  normalize_text text [] = (lower text, ∅).
Proof. reflexivity. Qed.

Lemma lower_length (s : str) : length (lower s) = length s.
Proof. apply length_map. Qed.

Lemma sorted_skills_empty : sorted_skills ∅ = [].
Proof. unfold sorted_skills. rewrite elements_empty. reflexivity. Qed.

Section MissingMap.
Variable _extract_title _extract_company _extract_location _guess_seniority : str -> str.
Variable _extract_bullets : str -> section_header -> list str.
Variable disk : str -> file_state.

Lemma safe_load_missing (path : str) :
  disk path = Missing -> _safe_load_skills_map disk path = Return [].
Proof.
  intros Hmiss. unfold _safe_load_skills_map, load_skills_map.
  rewrite Hmiss. reflexivity.
Qed.

(** C7. With an empty skill map [normalize_text] returns the lower-cased
    text, character for character, and an empty set of detected skills; and
    when the file of the skill map is missing, [parse_jd] raises nothing: it
    returns a record whose normalized text is the stripped input lower-cased
    and whose list of normalized skills is empty. *)
Theorem missing_map_is_identity (jd_text path : str) (top_kw : Z) :
  disk path = Missing ->
  (forall text : str,
      normalize_text text [] = (lower text, ∅)
      /\ length (fst (normalize_text text [])) = length text
      /\ forall i, nth_error (fst (normalize_text text [])) i
                   = option_map lower_char (nth_error text i))
  /\ exists r : JDRecord,
       parse_jd _extract_title _extract_company _extract_location _guess_seniority
                _extract_bullets disk jd_text path top_kw = Return r
       /\ normalized_text r = lower (strip jd_text)
       /\ normalized_skills r = []
       /\ app_load_skills_map disk path = Return [].
Proof.
  intros Hmiss. split.
  - intros text. rewrite normalize_text_empty_map. cbn [fst].
    repeat split.
    + apply lower_length.
    + intros i. unfold lower. apply nth_error_map.
  - unfold parse_jd. rewrite (safe_load_missing _ Hmiss).
    rewrite normalize_text_empty_map.
    eexists. split; [reflexivity|]. cbn [normalized_text normalized_skills].
    split; [reflexivity|]. split; [apply sorted_skills_empty|].
    unfold app_load_skills_map. rewrite Hmiss. reflexivity.
Qed.
End MissingMap.

Lemma missing_map_is_identity_witness :
  exists r : JDRecord,
    parse_jd (fun t => t) (fun t => t) (fun t => t) (fun t => t) (fun _ _ => [])
             (fun _ => Missing) (py "  Senior DevOps, AD and MFA ") (py "data/skills_map.json") 30
    = Return r
    /\ normalized_text r = py "senior devops, ad and mfa"
    /\ normalized_skills r = [].
Proof.
  destruct (missing_map_is_identity (fun t => t) (fun t => t) (fun t => t) (fun t => t)
              (fun _ _ => []) (fun _ => Missing)
              (py "  Senior DevOps, AD and MFA ") (py "data/skills_map.json") 30 eq_refl)
    as [_ [r [Hr [Ht [Hs _]]]]].
  exists r. split; [exact Hr|]. split; [|exact Hs].
  rewrite Ht. reflexivity.
Defined.

(** * The overlap bonus *)

Section Overlap.
Implicit Types (T S : gset str).

Lemma or_one_pos (n : nat) : 0 < or_one n.
Proof. unfold or_one. destruct n; simpl; lia. Qed.

Lemma or_one_ge (n : nat) : n <= or_one n.
Proof. unfold or_one. destruct n; simpl; lia. Qed.

Lemma or_one_id (n : nat) : 0 < n -> or_one n = n.
Proof. unfold or_one. destruct n; simpl; [lia | reflexivity]. Qed.

Lemma pos_of_or_one (n : nat) : Z.pos (Pos.of_nat (or_one n)) = Z.of_nat (or_one n).
Proof.
  pose proof (or_one_pos n) as Hpos.
  rewrite <- (Nat2Pos.id (or_one n)) at 2 by lia.
  symmetry. apply positive_nat_Z.
Qed.

Lemma inter_le_union T S : size (T ∩ S) <= size (T ∪ S).
Proof. apply subseteq_size. set_solver. Qed.

(** The ratio of [_overlap_score] in terms of the two sizes. *)
Lemma ratio_bounds (inter union : nat) :
  inter <= union ->
  (0 <= Z.of_nat inter # Pos.of_nat (or_one union))%Q
  /\ (Z.of_nat inter # Pos.of_nat (or_one union) <= 1)%Q.
Proof.
  intros Hle. unfold Qle. cbn [Qnum Qden].
  rewrite pos_of_or_one. pose proof (or_one_ge union). lia.
Qed.

Lemma ratio_zero (union : nat) : (Z.of_nat 0 # Pos.of_nat (or_one union) == 0)%Q.
Proof. unfold Qeq. cbn [Qnum Qden]. lia. Qed.

Lemma ratio_one (n : nat) : 0 < n -> (Z.of_nat n # Pos.of_nat (or_one n) == 1)%Q.
Proof.
  intros Hpos. unfold Qeq. cbn [Qnum Qden].
  rewrite pos_of_or_one, or_one_id by assumption. lia.
Qed.

Lemma overlap_disjoint (snippet_meta : option Meta) S :
  lowered_tags snippet_meta ∩ S = ∅ -> (_overlap_score snippet_meta S == 0)%Q.
Proof.
  intros Hdis. unfold _overlap_score. cbv zeta. rewrite Hdis, size_empty.
  apply ratio_zero.
Qed.

(** C4. The bonus of [_overlap_score] lies between 0 and 1; it is 0 when the
    lower-cased tag set is empty, when the skill set is empty, and when the
    two are disjoint (so also when both are empty: the denominator is then
    1); it is 1 when the two sets are equal and not empty. *)
Theorem overlap_score_bounds (snippet_meta : option Meta) S :
  let T := lowered_tags snippet_meta in
  let bonus := _overlap_score snippet_meta S in
  (0 <= bonus)%Q /\ (bonus <= 1)%Q
  /\ (T = ∅ \/ S = ∅ \/ T ∩ S = ∅ -> (bonus == 0)%Q)
  /\ (T = S -> T <> ∅ -> (bonus == 1)%Q)
  /\ (T = ∅ -> S = ∅ -> (bonus == 0)%Q /\ or_one (size (T ∪ S)) = 1).
Proof.
  intros T bonus.
  pose proof (ratio_bounds _ _ (inter_le_union T S)) as [H0 H1].
  split; [exact H0|]. split; [exact H1|]. split; [|split].
  - intros Hcase. apply overlap_disjoint. fold T.
    destruct Hcase as [HT | [HS | Hdis]]; [| |exact Hdis].
    + rewrite HT. set_solver.
    + rewrite HS. set_solver.
  - intros Heq Hne. subst bonus. unfold _overlap_score. cbv zeta. fold T.
    rewrite <- Heq.
    replace (T ∩ T) with T by set_solver.
    replace (T ∪ T) with T by set_solver.
    apply ratio_one.
    destruct (size T) eqn:Hsz; [|lia].
    apply size_empty_iff in Hsz. exfalso. apply Hne. set_solver.
  - intros HT HS. split.
    + apply overlap_disjoint. fold T. rewrite HT. set_solver.
    + rewrite HT, HS. replace (∅ ∪ ∅ : gset str) with (∅ : gset str) by set_solver.
      rewrite size_empty. reflexivity.
Qed.
End Overlap.

Lemma overlap_score_bounds_witness :
  (_overlap_score (Some {| tags := Some [py "AWS"; py "Terraform"]; meta_seniority := None |})
                  ({[ py "aws" ]} ∪ {[ py "terraform" ]}) == 1)%Q.
Proof.
  pose proof (overlap_score_bounds
                (Some {| tags := Some [py "AWS"; py "Terraform"]; meta_seniority := None |})
                ({[ py "aws" ]} ∪ {[ py "terraform" ]})) as H.
  cbv zeta in H. destruct H as [_ [_ [_ [Hone _]]]].
  apply Hone.
  - vm_compute. reflexivity.
  - vm_compute. discriminate.
Defined.

(** * Stable sorting *)

Section SortingFacts.
Context {A : Type} (le : A -> A -> bool).
Hypothesis le_total : forall x y, le x y = true \/ le y x = true.
Hypothesis le_trans : forall x y z, le x y = true -> le y z = true -> le x z = true.

Lemma insert_stable_perm (x : A) (l : list A) :
  Permutation (insert_stable le x l) (x :: l).
Proof.
  induction l as [|y l IH]; simpl.
  - apply Permutation_refl.
  - destruct (le x y).
    + apply Permutation_refl.
    + apply Permutation_trans with (y :: x :: l).
      * apply perm_skip. exact IH.
      * apply perm_swap.
Qed.

Lemma stable_sort_perm (l : list A) : Permutation (stable_sort le l) l.
Proof.
  induction l as [|x l IH]; simpl.
  - apply perm_nil.
  - apply Permutation_trans with (x :: stable_sort le l).
    + apply insert_stable_perm.
    + apply perm_skip. exact IH.
Qed.

Lemma insert_stable_Forall (P : A -> Prop) (x : A) (l : list A) :
  P x -> Forall P l -> Forall P (insert_stable le x l).
Proof.
  intros Hx Hl.
  apply (Permutation_Forall (Permutation_sym (insert_stable_perm x l))).
  constructor; assumption.
Qed.

Lemma insert_stable_le_then (before : A -> A -> Prop) (x : A) (l : list A) :
  StronglySorted (le_then le before) l ->
  Forall (before x) l ->
  StronglySorted (le_then le before) (insert_stable le x l).
Proof.
  induction l as [|y l IH]; intros Hs Hb; simpl.
  - constructor; constructor.
  - inversion Hs as [|? ? Hs' Hy]; subst.
    inversion Hb as [|? ? Hxy Hb']; subst.
    destruct (le x y) eqn:Hle.
    + constructor; [exact Hs|].
      constructor.
      * split; [exact Hle | intros _; exact Hxy].
      * rewrite Forall_forall in Hy, Hb'. apply Forall_forall. intros z Hz.
        split.
        -- apply le_trans with y; [exact Hle | apply (Hy z Hz)].
        -- intros _. apply (Hb' z Hz).
    + constructor.
      * apply IH; assumption.
      * apply insert_stable_Forall; [|exact Hy].
        split.
        -- destruct (le_total x y) as [H|H]; [congruence | exact H].
        -- intros H. congruence.
Qed.

Lemma stable_sort_le_then (before : A -> A -> Prop) (l : list A) :
  StronglySorted before l ->
  StronglySorted (le_then le before) (stable_sort le l).
Proof.
  induction l as [|x l IH]; intros Hs; simpl.
  - constructor.
  - inversion Hs as [|? ? Hs' Hx]; subst.
    apply insert_stable_le_then.
    + apply IH. exact Hs'.
    + apply (Permutation_Forall (Permutation_sym (stable_sort_perm l))). exact Hx.
Qed.

Lemma stable_sort_sorted (l : list A) :
  StronglySorted (fun a b => le a b = true) (stable_sort le l).
Proof.
  assert (Hall : StronglySorted (fun _ _ : A => True) l).
  { induction l; constructor; [assumption|]. apply Forall_forall. intros; exact I. }
  pose proof (stable_sort_le_then _ l Hall) as Hs.
  induction Hs as [|a s Hs IH Ha]; constructor; [exact IH|].
  eapply Forall_impl; [exact Ha|]. intros b Hb. apply Hb.
Qed.


End SortingFacts.


Lemma StronglySorted_firstn {A : Type} (R : A -> A -> Prop) (n : nat) (l : list A) :
  StronglySorted R l -> StronglySorted R (firstn n l).
Proof.
  intros Hs. revert n. induction Hs as [|a l Hs IH Ha]; intros [|n]; simpl;
    try constructor.
  - apply IH.
  - rewrite Forall_forall in *. intros b Hb. apply Ha.
    rewrite <- (firstn_skipn n l). apply elem_of_app. left. exact Hb.
Qed.

Lemma filter_firstn_prefix {A : Type} (p : A -> bool) (n : nat) (l : list A) :
  List.filter p l = List.filter p (firstn n l) ++ List.filter p (skipn n l).
Proof. rewrite <- List.filter_app, firstn_skipn. reflexivity. Qed.

(** [l[:n]] is a prefix of [l], of length [min n (len l)] when [n >= 0]. *)
Lemma slice_to_firstn {A : Type} (l : list A) (n : Z) :
  exists m, slice_to l n = firstn m l /\ ((0 <= n)%Z -> m = Z.to_nat n).
Proof.
  unfold slice_to. destruct (n <? 0)%Z eqn:Hn.
  - eexists. split; [reflexivity|]. intros H. apply Z.ltb_lt in Hn. lia.
  - eexists. split; [reflexivity|]. intros _. reflexivity.
Qed.

Lemma slice_to_nonneg {A : Type} (l : list A) (n : Z) :
  (0 <= n)%Z -> slice_to l n = firstn (Z.to_nat n) l.
Proof.
  intros Hn. unfold slice_to.
  destruct (n <? 0)%Z eqn:E; [apply Z.ltb_lt in E; lia | reflexivity].
Qed.

Lemma slice_to_length {A : Type} (l : list A) (n : Z) :
  (0 <= n)%Z -> (Z.of_nat (length (slice_to l n)) <= n)%Z.
Proof.
  intros Hn. rewrite slice_to_nonneg by exact Hn.
  rewrite length_firstn. lia.
Qed.

(** * The retriever *)




(** Every entry of [boosted] carries [base + 0.25 * bonus]. *)
Lemma boost_scores (docs : list str) (metas : list (option Meta)) (dists : list Q)
    (S : gset str) :
  Forall2 (fun (b : Boosted) (c : str * option Meta * Q) =>
             b = (fst c, (snd c + (1 # 4) * _overlap_score (snd (fst c)) S)%Q))
          (boost docs metas dists S) (zip3 docs metas (map base_score dists)).
Proof.
  unfold boost. induction (zip3 docs metas (map base_score dists)) as [|[[doc meta] base] l IH].
  - constructor.
  - cbn [map]. constructor; [reflexivity | exact IH].
Qed.

Section RetrieverFacts.
Variable coll_query : str -> Z -> QueryResult.


Lemma lower_skills_none : lower_skills None = ∅.
Proof. unfold lower_skills. cbn [default]. apply set_map_empty. Qed.

Lemma lower_skills_empty : lower_skills (Some ∅) = ∅.
Proof. unfold lower_skills. cbn [default]. apply set_map_empty. Qed.

Lemma overlap_no_skills (snippet_meta : option Meta) :
  (_overlap_score snippet_meta ∅ == 0)%Q.
Proof. apply overlap_disjoint. set_solver. Qed.

(** C10. [jd_skills = None] and the empty skill set give the same list of
    snippets; the bonus of every candidate is then 0 and its composite score
    is the base score [1 / (1 + d)] of its distance. *)
Theorem none_skills_as_empty (q : str) (top_k : Z) :
  let res := coll_query q (Z.min 50 (top_k * 2)) in
  query_snippets coll_query q None top_k = query_snippets coll_query q (Some ∅) top_k
  /\ (forall snippet_meta : option Meta,
        (_overlap_score snippet_meta (lower_skills None) == 0)%Q)
  /\ Forall2 (fun (b : Boosted) (c : str * option Meta * Q) =>
               fst b = fst c /\ (score_of b == snd c)%Q)
             (candidates coll_query q None top_k)
             (zip3 (documents res) (metadatas res) (map base_score (dists_of res))).
Proof.
  intros res. split; [|split].
  - unfold query_snippets, candidates. rewrite lower_skills_none, lower_skills_empty.
    reflexivity.
  - intros snippet_meta. rewrite lower_skills_none. apply overlap_no_skills.
  - unfold candidates. cbv zeta. fold res. rewrite lower_skills_none.
    eapply Forall2_impl; [apply boost_scores|].
    intros b c Hb. cbv beta in Hb. subst b. split; [reflexivity|].
    unfold score_of. cbn [snd]. rewrite overlap_no_skills. ring.
Qed.
End RetrieverFacts.

(** * The keyword extractor *)

Lemma str_eqb_eq (a b : str) : str_eqb a b = true <-> a = b.
Proof. unfold str_eqb. apply bool_decide_eq_true. Qed.

Lemma str_eqb_neq (a b : str) : str_eqb a b = false <-> a <> b.
Proof. unfold str_eqb. apply bool_decide_eq_false. Qed.

Lemma str_eqb_refl (a : str) : str_eqb a a = true.
Proof. apply str_eqb_eq. reflexivity. Qed.

Ltac case_str_eqb a b :=
  let E := fresh "E" in
  destruct (str_eqb a b) eqn:E;
  [apply str_eqb_eq in E | apply str_eqb_neq in E].

Lemma fold_count_word (words : list str) (freq : FreqTable) :
  fold_left count_word words freq
  = fold_left bump (List.filter (fun w => negb (bool_decide (w ∈ _STOPWORDS))) words) freq.
Proof.
  revert freq. induction words as [|w words IH]; intros freq; [reflexivity|].
  cbn [fold_left List.filter]. unfold count_word at 2.
  destruct (bool_decide (w ∈ _STOPWORDS)); cbn [negb]; apply IH.
Qed.

Section FreqTableFacts.
Implicit Types (freq : FreqTable) (w k : str) (v d : Z).

Lemma freq_set_keys_known freq w v :
  In w (map fst freq) -> map fst (freq_set freq w v) = map fst freq.
Proof.
  induction freq as [|[k v0] freq IH]; intros Hin; [destruct Hin|].
  cbn [freq_set]. case_str_eqb k w; [reflexivity|].
  cbn [map fst]. f_equal. apply IH.
  destruct Hin as [Hk|Hin]; [cbn in Hk; congruence | exact Hin].
Qed.

Lemma freq_set_keys_new freq w v :
  ~ In w (map fst freq) -> map fst (freq_set freq w v) = map fst freq ++ [w].
Proof.
  induction freq as [|[k v0] freq IH]; intros Hin; [reflexivity|].
  cbn [freq_set]. case_str_eqb k w.
  - exfalso. apply Hin. left. exact E.
  - cbn [map fst app]. f_equal. apply IH. intros H. apply Hin. right. exact H.
Qed.

Lemma freq_get_set freq w v k d :
  freq_get (freq_set freq w v) k d = if str_eqb w k then v else freq_get freq k d.
Proof.
  induction freq as [|[k0 v0] freq IH].
  - cbn [freq_set freq_get]. reflexivity.
  - cbn [freq_set]. case_str_eqb k0 w.
    + subst k0. cbn [freq_get]. destruct (str_eqb w k); reflexivity.
    + cbn [freq_get]. case_str_eqb k0 k.
      * subst k0. case_str_eqb w k; [congruence | reflexivity].
      * exact IH.
Qed.

Lemma freq_get_entry freq k v d :
  List.NoDup (map fst freq) -> In (k, v) freq -> freq_get freq k d = v.
Proof.
  induction freq as [|[k0 v0] freq IH]; intros Hnd Hin; [destruct Hin|].
  cbn [map fst] in Hnd. apply List.NoDup_cons_iff in Hnd as [Hk0 Hnd].
  cbn [freq_get]. destruct Hin as [Heq|Hin].
  - inversion Heq; subst. rewrite str_eqb_refl. reflexivity.
  - case_str_eqb k0 k.
    + subst k0. exfalso. apply Hk0. apply (in_map fst) in Hin. exact Hin.
    + apply IH; assumption.
Qed.
End FreqTableFacts.

Lemma occurrences_snoc (k w : str) (l : list str) :
  occurrences k (l ++ [w]) = (occurrences k l + if str_eqb w k then 1 else 0)%Z.
Proof.
  induction l as [|x l IH]; cbn [app occurrences].
  - lia.
  - rewrite IH. lia.
Qed.

Lemma first_index_lt (w : str) (l : list str) :
  In w l -> first_index w l < length l.
Proof.
  induction l as [|x l IH]; intros Hin; [destruct Hin|].
  cbn [first_index length]. case_str_eqb x w; [lia|].
  destruct Hin as [H|H]; [congruence|]. specialize (IH H). lia.
Qed.

Lemma first_index_app_known (w : str) (l l' : list str) :
  In w l -> first_index w (l ++ l') = first_index w l.
Proof.
  induction l as [|x l IH]; intros Hin; [destruct Hin|].
  cbn [app first_index]. case_str_eqb x w; [reflexivity|].
  destruct Hin as [H|H]; [congruence|]. rewrite IH by exact H. reflexivity.
Qed.

Lemma first_index_snoc_new (w : str) (l : list str) :
  ~ In w l -> first_index w (l ++ [w]) = length l.
Proof.
  induction l as [|x l IH]; intros Hin; cbn [app first_index length].
  - rewrite str_eqb_refl. reflexivity.
  - case_str_eqb x w.
    + exfalso. apply Hin. left. exact E.
    + rewrite IH; [reflexivity|]. intros H. apply Hin. right. exact H.
Qed.

Lemma fold_left_snoc {A B : Type} (f : A -> B -> A) (l : list B) (x : B) (a : A) :
  fold_left f (l ++ [x]) a = f (fold_left f l a) x.
Proof. rewrite fold_left_app. reflexivity. Qed.

(** The frequency table after the words [toks]: its keys are the distinct
    words in the order they are first seen, each with its number of
    occurrences. *)
Lemma freq_table_spec (toks : list str) :
  let freq := fold_left bump toks [] in
  List.NoDup (map fst freq)
  /\ (forall k, In k (map fst freq) <-> In k toks)
  /\ (forall k, freq_get freq k 0 = occurrences k toks)
  /\ StronglySorted (fun a b => first_index a toks < first_index b toks) (map fst freq).
Proof.
  induction toks as [|w toks IH] using rev_ind.
  - cbn. repeat split; try constructor; intros H; destruct H.
  - cbv zeta in *. rewrite fold_left_snoc.
    set (freq := fold_left bump toks []) in *.
    destruct IH as [Hnd [Hkeys [Hget Hord]]].
    assert (Hget' : forall k, freq_get (bump freq w) k 0 = occurrences k (toks ++ [w])).
    { intros k. unfold bump. rewrite freq_get_set, occurrences_snoc.
      case_str_eqb w k; [subst k; rewrite Hget; reflexivity | rewrite Hget; lia]. }
    assert (Hmono : StronglySorted
                      (fun a b => first_index a (toks ++ [w]) < first_index b (toks ++ [w]))
                      (map fst freq)).
    { clear Hget'. revert Hord Hkeys. generalize (map fst freq). intros keys Hord Hkeys.
      assert (Hall : forall k, In k keys -> In k toks) by (intros k; apply Hkeys).
      clear Hkeys. induction Hord as [|a keys Hord IHo Ha]; constructor.
      - apply IHo. intros k Hk. apply Hall. right. exact Hk.
      - rewrite Forall_forall in *. intros b Hb.
        rewrite !first_index_app_known.
        + apply Ha, Hb.
        + apply Hall. right. apply list_elem_of_In. exact Hb.
        + apply Hall. left. reflexivity. }
    destruct (decide (w ∈ map fst freq)) as [Hin|Hnin]; rewrite list_elem_of_In in *.
    + unfold bump at 1 2 4. rewrite freq_set_keys_known by exact Hin.
      split; [exact Hnd|]. split; [|split; [exact Hget' | exact Hmono]].
      intros k. rewrite Hkeys, in_app_iff. cbn [In]. split; [tauto|].
      intros [H|[H|[]]]; [exact H|]. subst k. apply Hkeys. exact Hin.
    + unfold bump at 1 2 4. rewrite freq_set_keys_new by exact Hnin.
      split; [|split; [|split; [exact Hget'|]]].
      * apply List.NoDup_app; [exact Hnd | repeat constructor; intros [] |].
        intros x Hx [Hxw|[]]. subst x. apply Hnin. exact Hx.
      * intros k. rewrite !in_app_iff, Hkeys. reflexivity.
      * assert (Htail : Forall (fun a => first_index a (toks ++ [w]) < first_index w (toks ++ [w]))
                              (map fst freq)).
        { apply List.Forall_forall. intros a Ha.
          assert (Hat : In a toks) by (apply Hkeys; exact Ha).
          rewrite first_index_app_known by exact Hat.
          rewrite first_index_snoc_new.
          - apply first_index_lt. exact Hat.
          - intros Hw. apply Hnin. apply Hkeys. exact Hw. }
        clear - Hmono Htail. induction Hmono as [|a keys Hs IH Ha].
        -- repeat constructor.
        -- cbn [app]. inversion Htail; subst. constructor.
           ++ apply IH. assumption.
           ++ apply Forall_app. split; [exact Ha|]. constructor; [assumption|constructor].
Qed.

Lemma StronglySorted_impl_in {A : Type} (R R' : A -> A -> Prop) (l : list A) :
  (forall a b, In a l -> In b l -> R a b -> R' a b) ->
  StronglySorted R l -> StronglySorted R' l.
Proof.
  intros Himp Hs. induction Hs as [|a l Hs IH Ha]; constructor.
  - apply IH. intros x y Hx Hy. apply Himp; right; assumption.
  - rewrite List.Forall_forall in *. intros b Hb.
    apply Himp; [left; reflexivity | right; exact Hb | apply Ha, Hb].
Qed.

Lemma StronglySorted_map {A B : Type} (f : A -> B) (R : B -> B -> Prop) (l : list A) :
  StronglySorted (fun a b => R (f a) (f b)) l <-> StronglySorted R (map f l).
Proof.
  induction l as [|x l IH]; cbn [map].
  - split; constructor.
  - split; intros Hs; inversion Hs as [|? ? Hs' Hx]; subst; constructor.
    + apply IH. exact Hs'.
    + apply List.Forall_map. exact Hx.
    + apply IH. exact Hs'.
    + apply (proj1 (List.Forall_map f (R (f x)) l)). exact Hx.
Qed.

Lemma top_keywords_ranking (text : str) (n : Z) :
  exists m, _top_keywords text n = firstn m (ranking text)
            /\ ((0 <= n)%Z -> m = Z.to_nat n).
Proof.
  unfold _top_keywords, ranking. cbv zeta.
  destruct (slice_to_firstn
              (sorted_by_key (fun x : str * Z => (- snd x)%Z)
                 (fold_left count_word (findall_tokens [] (lower text)) [])) n)
    as [m [Hm Hn]].
  exists m. rewrite Hm, List.firstn_map. split; [reflexivity | exact Hn].
Qed.

(** The ranking lists every counted word once, the most frequent first and,
    among equally frequent words, the one first seen first. *)
Lemma ranking_spec (text : str) :
  let toks := counted_words text in
  StronglySorted (ranks_before toks) (ranking text)
  /\ List.NoDup (ranking text)
  /\ (forall w, In w (ranking text) <-> In w toks).
Proof.
  intros toks. unfold ranking. rewrite fold_count_word. fold (counted_words text). fold toks.
  destruct (freq_table_spec toks) as [Hnd [Hkeys [Hget Hord]]].
  set (freq := fold_left bump toks []) in *.
  set (le := fun x y : str * Z => (- snd x <=? - snd y)%Z).
  assert (Hperm : Permutation (stable_sort le freq) freq) by apply stable_sort_perm.
  assert (Hpermk : Permutation (map fst (stable_sort le freq)) (map fst freq))
    by (apply Permutation_map; exact Hperm).
  unfold sorted_by_key. fold le.
  split; [|split].
  - apply (proj1 (StronglySorted_map fst (ranks_before toks) _)).
    apply StronglySorted_impl_in with
      (R := le_then le (fun a b => first_index (fst a) toks < first_index (fst b) toks)).
    + intros a b Ha Hb [Hle Htie].
      assert (Hocc : forall e, In e (stable_sort le freq) -> snd e = occurrences (fst e) toks).
      { intros [k v] He. cbn [fst snd]. rewrite <- Hget. symmetry.
        apply freq_get_entry; [exact Hnd|].
        apply (Permutation_in _ Hperm). exact He. }
      unfold ranks_before. rewrite <- !Hocc by assumption.
      unfold le in Hle, Htie. apply Z.leb_le in Hle.
      destruct (Z.eq_dec (snd a) (snd b)) as [Heq|Hne].
      * right. split; [exact Heq|]. apply Htie. apply Z.leb_le. lia.
      * left. lia.
    + apply stable_sort_le_then.
      * intros x y. unfold le. rewrite !Z.leb_le. lia.
      * intros x y z. unfold le. rewrite !Z.leb_le. lia.
      * apply (proj2 (StronglySorted_map fst
                        (fun a b => first_index a toks < first_index b toks) freq)).
        exact Hord.
  - apply (Permutation_NoDup (Permutation_sym Hpermk)). exact Hnd.
  - intros w. rewrite <- Hkeys. split; apply Permutation_in;
      [exact Hpermk | apply Permutation_sym; exact Hpermk].
Qed.

Lemma counted_words_tokens (text : str) (w : str) :
  In w (counted_words text) <->
  In w (findall_tokens [] (lower text)) /\ w ∉ _STOPWORDS.
Proof.
  unfold counted_words. rewrite List.filter_In.
  rewrite negb_true_iff, bool_decide_eq_false. reflexivity.
Qed.

(** C5, for [n >= 0]. The keywords are the first [n] entries (all of them when
    there are fewer) of the ranking of the counted words, in which a word comes
    before every less frequent word and before every equally frequent word
    that is first seen later in the token stream; so the list has at most [n]
    entries. *)
Theorem keywords_by_frequency (text : str) (n : Z) :
  (0 <= n)%Z ->
  let toks := counted_words text in
  let out := _top_keywords text n in
  (Z.of_nat (length out) <= n)%Z
  /\ StronglySorted (ranks_before toks) out
  /\ exists rest : list str,
       StronglySorted (ranks_before toks) (out ++ rest)
       /\ (forall w, In w (out ++ rest) <-> In w toks)
       /\ length out = Nat.min (Z.to_nat n) (length (out ++ rest)).
Proof.
  intros Hn toks out.
  destruct (top_keywords_ranking text n) as [m [Hm Hmn]].
  specialize (Hmn Hn). subst m. fold out in Hm.
  destruct (ranking_spec text) as [Hs [Hnd Hin]]. fold toks in Hs, Hin.
  split; [|split].
  - rewrite Hm, length_firstn. lia.
  - rewrite Hm. apply StronglySorted_firstn. exact Hs.
  - exists (skipn (Z.to_nat n) (ranking text)).
    rewrite Hm, firstn_skipn. split; [exact Hs|]. split; [exact Hin|].
    apply length_firstn.
Qed.

(** C9. The keywords are pairwise distinct, and each one is a token of the
    lower-cased text (and no stopword), whatever [n] is. *)
Theorem keywords_distinct (text : str) (n : Z) :
  let out := _top_keywords text n in
  List.NoDup out
  /\ forall w, In w out -> In w (findall_tokens [] (lower text)) /\ w ∉ _STOPWORDS.
Proof.
  intros out.
  destruct (top_keywords_ranking text n) as [m [Hm _]]. fold out in Hm.
  destruct (ranking_spec text) as [_ [Hnd Hin]].
  assert (Hincl : forall w, In w out -> In w (ranking text)).
  { intros w Hw. rewrite Hm in Hw. rewrite <- (firstn_skipn m (ranking text)).
    apply in_or_app. left. exact Hw. }
  split.
  - rewrite Hm. rewrite <- (firstn_skipn m (ranking text)) in Hnd.
    apply NoDup_app_remove_r in Hnd. exact Hnd.
  - intros w Hw. apply counted_words_tokens. apply Hin. apply Hincl. exact Hw.
Qed.

(** * The skill normalizer *)

(** ** Word boundaries *)

Lemma occurs_at_char (p t : str) (i j : nat) :
  occurs_at p t i = true -> j < length p -> char_at t (i + j) = char_at p j.
Proof.
  unfold occurs_at, char_at. intros Hocc Hj. apply str_eqb_eq in Hocc.
  transitivity (nth_error (firstn (length p) (skipn i t)) j); [|rewrite Hocc; reflexivity].
  rewrite nth_error_firstn.
  destruct (Nat.ltb_spec j (length p)) as [_|Hge]; [|lia].
  rewrite nth_error_skipn. reflexivity.
Qed.

Lemma embedded_no_match (p t : str) (i : nat) :
  word_delimited p = true ->
  occurs_at p t i = true ->
  word_before t i || word_at t (i + length p) = true ->
  match_at p t i = false.
Proof.
  unfold word_delimited. intros Hd Hocc Hemb.
  apply andb_true_iff in Hd as [Hfirst Hlast].
  assert (Hlen : 0 < length p).
  { destruct p; [discriminate Hfirst | simpl; lia]. }
  assert (Hw0 : word_at t i = true).
  { unfold word_at in *. rewrite <- (Nat.add_0_r i).
    rewrite (occurs_at_char p t i 0 Hocc Hlen). exact Hfirst. }
  assert (Hw1 : word_before t (i + length p) = true).
  { destruct (length p) as [|l] eqn:El; [lia|].
    rewrite Nat.add_succ_r. cbn [word_before] in *.
    unfold word_at in *. rewrite (occurs_at_char p t i l Hocc) by lia. exact Hlast. }
  unfold match_at, at_boundary. rewrite Hw0, Hw1.
  apply orb_true_iff in Hemb as [H|H]; rewrite H; cbn.
  - reflexivity.
  - rewrite andb_false_r. reflexivity.
Qed.

Lemma embedded_only_no_search (p t : str) :
  word_delimited p = true -> embedded_only p t = true -> re_search p t = false.
Proof.
  unfold embedded_only, re_search. intros Hd Hemb.
  rewrite forallb_forall in Hemb.
  apply not_true_is_false. intros Hex.
  apply existsb_exists in Hex as [i [Hi Hm]].
  specialize (Hemb i Hi).
  destruct (occurs_at p t i) eqn:Hocc.
  - cbn [implb] in Hemb. rewrite (embedded_no_match p t i Hd Hocc Hemb) in Hm.
    discriminate.
  - unfold match_at in Hm. rewrite Hocc, andb_false_r in Hm. discriminate.
Qed.

(** ** Lower case *)

Lemma lower_char_idem (c : ascii) : lower_char (lower_char c) = lower_char c.
Proof. destruct c as [[] [] [] [] [] [] [] []]; reflexivity. Qed.

Lemma lower_idem (s : str) : lower (lower s) = lower s.
Proof.
  unfold lower. rewrite map_map. apply map_ext. intros c. apply lower_char_idem.
Qed.

Lemma lower_app (a b : str) : lower (a ++ b) = lower a ++ lower b.
Proof. apply map_app. Qed.

Lemma sub_scan_lower (p repl t : str) (i skip : nat) (rest : str) :
  lower repl = repl -> lower rest = rest ->
  lower (sub_scan p repl t i skip rest) = sub_scan p repl t i skip rest.
Proof.
  intros Hrepl. revert i skip.
  induction rest as [|c r IH]; intros i skip Hrest.
  - destruct skip; cbn [sub_scan]; [|reflexivity].
    destruct (match_at p t i); [exact Hrepl | reflexivity].
  - cbn [lower map] in Hrest. injection Hrest as Hc Hr. fold (lower r) in Hr.
    destruct skip as [|k]; cbn [sub_scan]; [|apply IH; exact Hr].
    destruct (match_at p t i).
    + destruct (length p).
      * rewrite lower_app. cbn [lower map]. fold (lower (sub_scan p repl t (S i) 0 r)).
        rewrite Hrepl, Hc, IH by exact Hr. reflexivity.
      * rewrite lower_app, Hrepl, IH by exact Hr. reflexivity.
    + cbn [lower map]. fold (lower (sub_scan p repl t (S i) 0 r)).
      rewrite Hc, IH by exact Hr. reflexivity.
Qed.

Lemma re_sub_lower (p repl t : str) :
  lower repl = repl -> lower t = t -> lower (re_sub p repl t) = re_sub p repl t.
Proof. intros. apply sub_scan_lower; assumption. Qed.

(** ** The two loops *)

Lemma fold_left_preserves {A B : Type} (P : A -> Prop) (f : A -> B -> A) (l : list B) (a : A) :
  (forall st x, P st -> P (f st x)) -> P a -> P (fold_left f l a).
Proof.
  intros Hstep. revert a. induction l as [|x l IH]; intros a Ha; [exact Ha|].
  cbn [fold_left]. apply IH. apply Hstep. exact Ha.
Qed.

Section NormalizeFacts.
Implicit Types (st : NormState) (cur text : str) (detected : gset str).
Implicit Types (canonical syn : str) (synonyms : list str) (skills_map : SkillMap).

Lemma syn_step_lower canonical st syn :
  lower (fst st) = fst st -> lower (fst (syn_step canonical st syn)) = fst (syn_step canonical st syn).
Proof.
  destruct st as [cur detected]. cbn [fst]. intros Hcur. unfold syn_step.
  destruct (re_search (lower syn) cur); cbn [fst]; [|exact Hcur].
  apply re_sub_lower; [apply lower_idem | exact Hcur].
Qed.

Lemma skill_step_fst st canonical synonyms :
  fst (skill_step st (canonical, synonyms)) = fst (fold_left (syn_step canonical) synonyms st).
Proof.
  unfold skill_step. destruct (fold_left (syn_step canonical) synonyms st) as [cur detected].
  destruct (re_search (lower canonical) cur); reflexivity.
Qed.

Lemma skill_step_lower st (entry : str * list str) :
  lower (fst st) = fst st -> lower (fst (skill_step st entry)) = fst (skill_step st entry).
Proof.
  destruct entry as [canonical synonyms]. intros Hst. rewrite skill_step_fst.
  apply (fold_left_preserves (fun s : NormState => lower (fst s) = fst s)); [|exact Hst].
  intros s x. apply syn_step_lower.
Qed.

(** The normalized text is in lower case. *)
Lemma normalize_text_lower text skills_map :
  lower (fst (normalize_text text skills_map)) = fst (normalize_text text skills_map).
Proof.
  unfold normalize_text.
  apply (fold_left_preserves (fun s : NormState => lower (fst s) = fst s)).
  - intros s x. apply skill_step_lower.
  - apply lower_idem.
Qed.

(** A skill once detected stays detected. *)
Lemma syn_step_keeps canonical st syn (x : str) :
  x ∈ snd st -> x ∈ snd (syn_step canonical st syn).
Proof.
  destruct st as [cur detected]. unfold syn_step.
  destruct (re_search (lower syn) cur); cbn [snd]; set_solver.
Qed.

Lemma syn_loop_keeps canonical synonyms st (x : str) :
  x ∈ snd st -> x ∈ snd (fold_left (syn_step canonical) synonyms st).
Proof.
  apply (fold_left_preserves (fun s : NormState => x ∈ snd s)).
  intros s syn. apply syn_step_keeps.
Qed.

Lemma skill_step_keeps st (entry : str * list str) (x : str) :
  x ∈ snd st -> x ∈ snd (skill_step st entry).
Proof.
  destruct entry as [canonical synonyms]. intros Hx.
  pose proof (syn_loop_keeps canonical synonyms st x Hx) as Hloop.
  unfold skill_step. destruct (fold_left (syn_step canonical) synonyms st) as [cur detected].
  destruct (re_search (lower canonical) cur); cbn [snd] in *; set_solver.
Qed.

Lemma skill_loop_keeps skills_map st (x : str) :
  x ∈ snd st -> x ∈ snd (fold_left skill_step skills_map st).
Proof.
  apply (fold_left_preserves (fun s : NormState => x ∈ snd s)).
  intros s entry. apply skill_step_keeps.
Qed.

(** The loop over the synonyms of one skill: either no synonym is found and
    the state is unchanged, or the skill is detected. *)
Lemma syn_loop_cases canonical synonyms cur detected :
  ((forall syn, In syn synonyms -> re_search (lower syn) cur = false)
   /\ fold_left (syn_step canonical) synonyms (cur, detected) = (cur, detected))
  \/ lower canonical ∈ snd (fold_left (syn_step canonical) synonyms (cur, detected)).
Proof.
  induction synonyms as [|syn synonyms IH].
  - left. split; [intros syn []|reflexivity].
  - cbn [fold_left]. unfold syn_step at 2 4.
    destruct (re_search (lower syn) cur) eqn:Hs.
    + right. apply syn_loop_keeps. cbn [snd]. set_solver.
    + destruct IH as [[Hnone Hsame]|Hdet]; [left|right; exact Hdet].
      split; [|exact Hsame].
      intros s [Heq|Hin]; [subst s; exact Hs | apply Hnone; exact Hin].
Qed.

(** One skill: a synonym or the canonical name found in the working text
    marks the skill. *)
Lemma skill_step_detects canonical synonyms cur detected :
  (exists syn, In syn synonyms /\ re_search (lower syn) cur = true)
  \/ re_search (lower canonical) cur = true ->
  lower canonical ∈ snd (skill_step (cur, detected) (canonical, synonyms)).
Proof.
  intros Hfound. unfold skill_step.
  destruct (syn_loop_cases canonical synonyms cur detected) as [[Hnone Hsame]|Hdet].
  - rewrite Hsame. destruct Hfound as [[syn [Hin Hs]]|Hc].
    + rewrite (Hnone syn Hin) in Hs. discriminate.
    + rewrite Hc. cbn [snd]. set_solver.
  - destruct (fold_left (syn_step canonical) synonyms (cur, detected)) as [cur' detected'].
    cbn [snd] in Hdet. destruct (re_search (lower canonical) cur'); cbn [snd]; set_solver.
Qed.

Lemma no_synonym_in_spec skills_map cur :
  no_synonym_in skills_map cur = true ->
  forall canonical synonyms syn,
    In (canonical, synonyms) skills_map -> In syn synonyms ->
    re_search (lower syn) cur = false.
Proof.
  unfold no_synonym_in. intros Hall canonical synonyms syn Hentry Hsyn.
  rewrite forallb_forall in Hall. specialize (Hall _ Hentry). cbn [snd] in Hall.
  rewrite forallb_forall in Hall. specialize (Hall _ Hsyn).
  apply negb_true_iff in Hall. exact Hall.
Qed.

(** Then the loops leave the text as it is. *)
Lemma skill_loop_text_unchanged skills_map cur detected :
  no_synonym_in skills_map cur = true ->
  fst (fold_left skill_step skills_map (cur, detected)) = cur.
Proof.
  intros Hnone. pose proof (no_synonym_in_spec _ _ Hnone) as Hnone'.
  clear Hnone. rename Hnone' into Hnone. revert Hnone.
  revert detected. induction skills_map as [|[canonical synonyms] skills_map IH];
    intros detected Hnone; [reflexivity|].
  cbn [fold_left].
  assert (Hstep : fst (skill_step (cur, detected) (canonical, synonyms)) = cur).
  { rewrite skill_step_fst.
    destruct (syn_loop_cases canonical synonyms cur detected) as [[_ Hsame]|Hdet].
    - rewrite Hsame. reflexivity.
    - assert (Hsame : fold_left (syn_step canonical) synonyms (cur, detected) = (cur, detected)).
      { clear Hdet IH.
        assert (Hs : forall syn, In syn synonyms -> re_search (lower syn) cur = false).
        { intros syn Hin. apply (Hnone canonical synonyms syn); [left; reflexivity | exact Hin]. }
        clear Hnone. induction synonyms as [|syn synonyms IHs]; [reflexivity|].
        cbn [fold_left]. unfold syn_step at 2. rewrite (Hs syn) by (left; reflexivity).
        apply IHs. intros s Hin. apply Hs. right. exact Hin. }
      rewrite Hsame. reflexivity. }
  destruct (skill_step (cur, detected) (canonical, synonyms)) as [cur' detected'] eqn:E.
  cbn [fst] in Hstep. subst cur'. apply IH.
  intros c syns s Hin Hs. apply (Hnone c syns s); [right; exact Hin | exact Hs].
Qed.

Lemma normalize_text_split text (earlier later : SkillMap) (entry : str * list str) :
  normalize_text text (earlier ++ entry :: later)
  = fold_left skill_step later (skill_step (normalize_text text earlier) entry).
Proof. unfold normalize_text. rewrite fold_left_app. reflexivity. Qed.

End NormalizeFacts.

(** ** Matches in a concatenation *)

Lemma char_at_app_l (x y : str) (i : nat) :
  i < length x -> char_at (x ++ y) i = char_at x i.
Proof. intros H. unfold char_at. apply nth_error_app1. exact H. Qed.

Lemma char_at_app_r (x y : str) (i : nat) :
  char_at (x ++ y) (length x + i) = char_at y i.
Proof.
  unfold char_at. rewrite nth_error_app2 by lia.
  replace (length x + i - length x) with i by lia. reflexivity.
Qed.

Lemma char_at_out (x : str) (i : nat) : length x <= i -> char_at x i = None.
Proof. intros H. unfold char_at. apply nth_error_None. exact H. Qed.

Lemma word_at_app_l (x y : str) (i : nat) :
  i < length x -> word_at (x ++ y) i = word_at x i.
Proof. intros H. unfold word_at. rewrite char_at_app_l by exact H. reflexivity. Qed.

Lemma word_at_app_r (x y : str) (i : nat) :
  word_at (x ++ y) (length x + i) = word_at y i.
Proof. unfold word_at. rewrite char_at_app_r. reflexivity. Qed.

Lemma word_at_out (x : str) (i : nat) : length x <= i -> word_at x i = false.
Proof. intros H. unfold word_at. rewrite char_at_out by exact H. reflexivity. Qed.

Lemma word_before_app_l (x y : str) (i : nat) :
  i <= length x -> word_before (x ++ y) i = word_before x i.
Proof.
  intros H. destruct i as [|i]; [reflexivity|]. cbn [word_before].
  apply word_at_app_l. lia.
Qed.

Lemma word_before_app_r (x y : str) (i : nat) :
  0 < i -> word_before (x ++ y) (length x + i) = word_before y i.
Proof.
  intros H. destruct i as [|i]; [lia|]. rewrite Nat.add_succ_r. cbn [word_before].
  apply word_at_app_r.
Qed.

Lemma at_boundary_app_l (x y : str) (i : nat) :
  i <= length x -> (i < length x \/ word_at y 0 = false) ->
  at_boundary (x ++ y) i = at_boundary x i.
Proof.
  intros Hi Hc. unfold at_boundary. rewrite word_before_app_l by exact Hi. f_equal.
  destruct (Nat.eq_dec i (length x)) as [->|Hne].
  - destruct Hc as [Hc|Hc]; [lia|].
    rewrite <- (Nat.add_0_r (length x)) at 1. rewrite word_at_app_r, Hc.
    symmetry. apply word_at_out. lia.
  - apply word_at_app_l. lia.
Qed.

Lemma at_boundary_app_r (x y : str) (k : nat) :
  (0 < k \/ word_before x (length x) = false) ->
  at_boundary (x ++ y) (length x + k) = at_boundary y k.
Proof.
  intros Hc. unfold at_boundary. rewrite word_at_app_r. f_equal.
  destruct k as [|k].
  - destruct Hc as [Hc|Hc]; [lia|]. rewrite Nat.add_0_r.
    rewrite word_before_app_l by lia. exact Hc.
  - apply word_before_app_r. lia.
Qed.

Lemma occurs_at_app_l (p x y : str) (i : nat) :
  i + length p <= length x -> occurs_at p (x ++ y) i = occurs_at p x i.
Proof.
  intros H. unfold occurs_at. f_equal.
  rewrite skipn_app. rewrite firstn_app. rewrite length_skipn.
  replace (length p - (length x - i)) with 0 by lia.
  rewrite firstn_O, app_nil_r. reflexivity.
Qed.

Lemma occurs_at_app_r (p x y : str) (k : nat) :
  occurs_at p (x ++ y) (length x + k) = occurs_at p y k.
Proof.
  unfold occurs_at. f_equal. rewrite skipn_app.
  rewrite (skipn_all2 x) by lia. cbn [app].
  replace (length x + k - length x) with k by lia. reflexivity.
Qed.

Lemma match_at_app_l (q x y : str) (j : nat) :
  j + length q <= length x ->
  (j + length q < length x \/ word_at y 0 = false) ->
  match_at q (x ++ y) j = match_at q x j.
Proof.
  intros Hj Hc. unfold match_at.
  rewrite occurs_at_app_l by exact Hj.
  rewrite (at_boundary_app_l x y j);
    [|lia|destruct Hc as [Hc|Hc]; [left; lia | right; exact Hc]].
  rewrite (at_boundary_app_l x y (j + length q));
    [|lia|destruct Hc as [Hc|Hc]; [left; lia | right; exact Hc]].
  reflexivity.
Qed.

Lemma match_at_app_r (q x y : str) (k : nat) :
  (0 < k \/ word_before x (length x) = false) ->
  match_at q (x ++ y) (length x + k) = match_at q y k.
Proof.
  intros Hc. unfold match_at.
  rewrite occurs_at_app_r.
  rewrite (at_boundary_app_r x y k) by exact Hc.
  rewrite <- Nat.add_assoc.
  rewrite (at_boundary_app_r x y (k + length q)) by (destruct Hc; [left; lia | right; assumption]).
  reflexivity.
Qed.

(** ** Patterns that begin and end with a word character *)

Lemma word_delimited_facts (q : str) :
  word_delimited q = true ->
  0 < length q /\ word_at q 0 = true /\ word_at q (length q - 1) = true.
Proof.
  unfold word_delimited. intros H. apply andb_true_iff in H as [H0 H1].
  destruct q as [|c q]; [discriminate H0|]. cbn [length] in *.
  split; [lia|]. split; [exact H0|].
  cbn [word_before] in H1. replace (S (length q) - 1) with (length q) by lia. exact H1.
Qed.

Lemma match_at_search (q t : str) (j : nat) :
  match_at q t j = true -> re_search q t = true.
Proof.
  intros H. unfold re_search. apply existsb_exists. exists j. split; [|exact H].
  apply in_seq. split; [lia|]. cbn.
  destruct (Nat.le_gt_cases j (length t)) as [Hle|Hgt]; [lia|].
  exfalso. unfold match_at, at_boundary in H.
  apply andb_true_iff in H as [H _]. apply andb_true_iff in H as [H _].
  rewrite (word_at_out t j) in H by lia.
  destruct j as [|j]; [lia|]. cbn [word_before] in H.
  rewrite (word_at_out t j) in H by lia. discriminate H.
Qed.

Lemma re_search_match (q t : str) :
  re_search q t = true -> exists j, match_at q t j = true.
Proof.
  unfold re_search. intros H. apply existsb_exists in H as [j [_ H]]. exists j. exact H.
Qed.

Lemma occurs_at_length (p t : str) (i : nat) :
  occurs_at p t i = true -> p <> [] -> i + length p <= length t.
Proof.
  unfold occurs_at. intros H Hp. apply str_eqb_eq in H.
  apply (f_equal (@length ascii)) in H. rewrite length_firstn, length_skipn in H.
  destruct p; [contradiction|]. cbn [length] in *. lia.
Qed.

Lemma occurs_word_start (p t : str) (j : nat) :
  word_at p 0 = true -> occurs_at p t j = true -> word_at t j = true.
Proof.
  intros Hp Hocc. assert (Hlen : 0 < length p).
  { destruct p; [discriminate Hp | cbn; lia]. }
  unfold word_at in *. rewrite <- (Nat.add_0_r j).
  rewrite (occurs_at_char p t j 0 Hocc Hlen). exact Hp.
Qed.

Lemma occurs_word_end (p t : str) (j : nat) :
  word_delimited p = true -> occurs_at p t j = true ->
  word_before t (j + length p) = true.
Proof.
  intros Hd Hocc. destruct (word_delimited_facts p Hd) as [Hlen [_ Hlast]].
  destruct (length p) as [|l] eqn:El; [lia|].
  rewrite Nat.add_succ_r. cbn [word_before]. unfold word_at in *.
  rewrite (occurs_at_char p t j l Hocc) by lia.
  replace (S l - 1) with l in Hlast by lia. exact Hlast.
Qed.

(** For such a pattern a match is an occurrence with no word character on
    either side. *)
Lemma match_at_delimited (q t : str) (j : nat) :
  word_delimited q = true ->
  match_at q t j = true
  <-> occurs_at q t j = true /\ word_before t j = false /\ word_at t (j + length q) = false.
Proof.
  intros Hd. destruct (word_delimited_facts q Hd) as [Hlen [H0 _]].
  unfold match_at, at_boundary. split.
  - intros H. apply andb_true_iff in H as [H He]. apply andb_true_iff in H as [Hs Hocc].
    rewrite (occurs_word_start q t j H0 Hocc) in Hs.
    rewrite (occurs_word_end q t j Hd Hocc) in He.
    split; [exact Hocc|]. split.
    + destruct (word_before t j); [discriminate Hs | reflexivity].
    + destruct (word_at t (j + length q)); [discriminate He | reflexivity].
  - intros [Hocc [Hs He]].
    rewrite (occurs_word_start q t j H0 Hocc), (occurs_word_end q t j Hd Hocc), Hs, He, Hocc.
    reflexivity.
Qed.

Lemma match_at_self (c : str) : word_delimited c = true -> match_at c c 0 = true.
Proof.
  intros Hd. apply (match_at_delimited c c 0 Hd). split; [|split].
  - unfold occurs_at. rewrite skipn_O, firstn_all. apply str_eqb_refl.
  - reflexivity.
  - apply word_at_out. lia.
Qed.

(** ** The scan of [re.sub], match by match *)

Lemma sub_scan_skip (p c t : str) (k i : nat) (rest : str) :
  k <= length rest ->
  sub_scan p c t i k rest = sub_scan p c t (i + k) 0 (skipn k rest).
Proof.
  revert i rest. induction k as [|k IH]; intros i rest Hk.
  - rewrite Nat.add_0_r, skipn_O. reflexivity.
  - destruct rest as [|ch r]; [cbn in Hk; lia|].
    cbn [sub_scan skipn]. rewrite IH by (cbn in Hk; lia).
    replace (S i + k) with (i + S k) by lia. reflexivity.
Qed.

Lemma sub_scan_ext (p c t t2 : str) (rest : str) (i i2 skip : nat) :
  (forall k, k <= length rest -> match_at p t (i + k) = match_at p t2 (i2 + k)) ->
  sub_scan p c t i skip rest = sub_scan p c t2 i2 skip rest.
Proof.
  revert i i2 skip. induction rest as [|ch r IH]; intros i i2 skip Hm.
  - destruct skip; cbn [sub_scan]; [|reflexivity].
    specialize (Hm 0 (Nat.le_refl _)). rewrite !Nat.add_0_r in Hm. rewrite Hm. reflexivity.
  - assert (Hnext : forall k, k <= length r ->
                      match_at p t (S i + k) = match_at p t2 (S i2 + k)).
    { intros k Hk. specialize (Hm (S k)). cbn [length] in Hm.
      replace (S i + k) with (i + S k) by lia. replace (S i2 + k) with (i2 + S k) by lia.
      apply Hm. lia. }
    destruct skip as [|s]; cbn [sub_scan].
    + specialize (Hm 0 (Nat.le_0_l _)). rewrite !Nat.add_0_r in Hm. rewrite Hm.
      destruct (match_at p t2 i2).
      * destruct (length p); rewrite (IH (S i) (S i2) _ Hnext); reflexivity.
      * rewrite (IH (S i) (S i2) _ Hnext). reflexivity.
    + apply IH. exact Hnext.
Qed.

Lemma sub_scan_no_match (p c t : str) (n i : nat) (rest : str) :
  n <= length rest ->
  (forall k, k < n -> match_at p t (i + k) = false) ->
  sub_scan p c t i 0 rest = firstn n rest ++ sub_scan p c t (i + n) 0 (skipn n rest).
Proof.
  revert i rest. induction n as [|n IH]; intros i rest Hn Hm.
  - rewrite Nat.add_0_r. reflexivity.
  - destruct rest as [|ch r]; [cbn in Hn; lia|].
    cbn [sub_scan firstn skipn].
    pose proof (Hm 0 (Nat.lt_0_succ _)) as H0. rewrite Nat.add_0_r in H0. rewrite H0.
    cbn [app]. f_equal. rewrite (IH (S i) r).
    + replace (S i + n) with (i + S n) by lia. reflexivity.
    + cbn in Hn. lia.
    + intros k Hk. replace (S i + k) with (i + S k) by lia. apply Hm. lia.
Qed.

Lemma re_search_false (p t : str) (i : nat) :
  re_search p t = false -> match_at p t i = false.
Proof.
  intros H. destruct (match_at p t i) eqn:E; [|reflexivity].
  rewrite (match_at_search p t i E) in H. discriminate H.
Qed.

(** Without a match the text is copied. *)
Lemma re_sub_no_match (p c t : str) : re_search p t = false -> re_sub p c t = t.
Proof.
  intros H. unfold re_sub.
  rewrite (sub_scan_no_match p c t (length t) 0 t (Nat.le_refl _)).
  - rewrite firstn_all, skipn_all. cbn [sub_scan Nat.add].
    rewrite (re_search_false p t (length t) H). apply app_nil_r.
  - intros k _. apply re_search_false. exact H.
Qed.

(** Writing the pattern for itself changes nothing. *)
Lemma sub_scan_self (p t : str) (rest : str) (i skip : nat) :
  rest = skipn i t -> sub_scan p p t i skip rest = skipn skip rest.
Proof.
  revert i skip. induction rest as [|ch r IH]; intros i skip Hrest.
  - destruct skip; cbn [sub_scan]; [|reflexivity].
    destruct (match_at p t i) eqn:Hm; [|reflexivity].
    unfold match_at in Hm. apply andb_true_iff in Hm as [Hm _].
    apply andb_true_iff in Hm as [_ Hocc]. unfold occurs_at in Hocc.
    rewrite <- Hrest, firstn_nil in Hocc. apply str_eqb_eq in Hocc. subst p. reflexivity.
  - assert (Hr : r = skipn (S i) t).
    { replace (S i) with (1 + i) by lia. rewrite <- skipn_skipn, <- Hrest. reflexivity. }
    destruct skip as [|s]; cbn [sub_scan skipn].
    + destruct (match_at p t i) eqn:Hm.
      * unfold match_at in Hm. apply andb_true_iff in Hm as [Hm _].
        apply andb_true_iff in Hm as [_ Hocc]. unfold occurs_at in Hocc.
        rewrite <- Hrest in Hocc. apply str_eqb_eq in Hocc.
        destruct (length p) as [|l] eqn:El.
        -- destruct p; [|discriminate El]. cbn [app]. rewrite (IH (S i) 0 Hr). reflexivity.
        -- rewrite (IH (S i) l Hr). rewrite <- Hocc at 1.
           cbn [firstn]. cbn [app]. rewrite firstn_skipn. reflexivity.
      * rewrite (IH (S i) 0 Hr). reflexivity.
    + apply IH. exact Hr.
Qed.

Lemma re_sub_self (p t : str) : re_sub p p t = t.
Proof. unfold re_sub. rewrite (sub_scan_self p t t 0 0); reflexivity. Qed.

(** The leftmost match. *)
Lemma existsb_seq_first (f : nat -> bool) (n a : nat) :
  existsb f (seq a n) = true ->
  exists i, a <= i < a + n /\ f i = true /\ forall k, a <= k < i -> f k = false.
Proof.
  revert a. induction n as [|n IH]; intros a H; [discriminate H|].
  cbn [seq existsb] in H. destruct (f a) eqn:Ha.
  - exists a. split; [lia|]. split; [exact Ha|]. intros k Hk. lia.
  - cbn [orb] in H. destruct (IH (S a) H) as [i [Hi [Hfi Hmin]]].
    exists i. split; [lia|]. split; [exact Hfi|].
    intros k Hk. destruct (Nat.eq_dec k a) as [->|Hne]; [exact Ha|]. apply Hmin. lia.
Qed.

Lemma re_search_first (p t : str) :
  re_search p t = true ->
  exists i, match_at p t i = true /\ forall k, k < i -> match_at p t k = false.
Proof.
  unfold re_search. intros H.
  destruct (existsb_seq_first _ _ _ H) as [i [_ [Hi Hmin]]].
  exists i. split; [exact Hi|]. intros k Hk. apply Hmin. lia.
Qed.

(** The text around a match of a pattern that begins and ends with a word
    character. *)
Lemma match_split (p t : str) (i : nat) :
  word_delimited p = true -> match_at p t i = true ->
  t = firstn i t ++ p ++ skipn (i + length p) t
  /\ length (firstn i t) = i
  /\ word_before (firstn i t) i = false
  /\ word_at (skipn (i + length p) t) 0 = false.
Proof.
  intros Hd Hm. apply (match_at_delimited p t i Hd) in Hm as [Hocc [Hs He]].
  destruct (word_delimited_facts p Hd) as [Hlen _].
  assert (Hp : p <> []) by (destruct p; [cbn in Hlen; lia | discriminate]).
  pose proof (occurs_at_length p t i Hocc Hp) as Hb.
  assert (Hli : length (firstn i t) = i) by (rewrite length_firstn; lia).
  assert (Ht : t = firstn i t ++ p ++ skipn (i + length p) t).
  { unfold occurs_at in Hocc. apply str_eqb_eq in Hocc.
    rewrite <- (firstn_skipn i t) at 1. f_equal.
    rewrite <- (firstn_skipn (length p) (skipn i t)) at 1. rewrite Hocc. f_equal.
    rewrite skipn_skipn. f_equal. lia. }
  split; [exact Ht|]. split; [exact Hli|]. split.
  - rewrite <- Hs. rewrite <- (firstn_skipn i t) at 2.
    symmetry. apply word_before_app_l. rewrite Hli. lia.
  - rewrite <- He.
    assert (Hl : length (firstn (i + length p) t) = i + length p)
      by (rewrite length_firstn; lia).
    transitivity (word_at (firstn (i + length p) t ++ skipn (i + length p) t)
                    (length (firstn (i + length p) t) + 0)).
    + rewrite word_at_app_r. reflexivity.
    + rewrite firstn_skipn, Hl, Nat.add_0_r. reflexivity.
Qed.

Lemma re_sub_first_match (p c t : str) (i : nat) :
  word_delimited p = true ->
  match_at p t i = true ->
  (forall k, k < i -> match_at p t k = false) ->
  re_sub p c t = firstn i t ++ c ++ re_sub p c (skipn (i + length p) t).
Proof.
  intros Hd Hm Hmin.
  destruct (match_split p t i Hd Hm) as [Ht [Hli [Hpre Hpost]]].
  destruct (word_delimited_facts p Hd) as [Hlen [H0 _]].
  pose proof (proj1 (match_at_delimited p t i Hd) Hm) as [Hocc [Hs He]].
  assert (Hp : p <> []) by (destruct p; [cbn in Hlen; lia | discriminate]).
  pose proof (occurs_at_length p t i Hocc Hp) as Hb.
  unfold re_sub at 1.
  rewrite (sub_scan_no_match p c t i 0 t) by (try lia; exact Hmin).
  f_equal. cbn [Nat.add].
  destruct (skipn i t) as [|ch r] eqn:Er.
  { apply (f_equal (@length ascii)) in Er. rewrite length_skipn in Er. cbn in Er. lia. }
  cbn [sub_scan]. rewrite Hm.
  destruct (length p) as [|l] eqn:El; [lia|]. f_equal.
  assert (Hr : length r = length t - S i).
  { apply (f_equal (@length ascii)) in Er. rewrite length_skipn in Er. cbn in Er. lia. }
  rewrite sub_scan_skip by lia.
  assert (Hskip : skipn l r = skipn (i + S l) t).
  { replace (i + S l) with (S l + i) by lia. rewrite <- skipn_skipn, Er. reflexivity. }
  rewrite Hskip. replace (S i + l) with (i + S l) by lia.
  unfold re_sub. apply sub_scan_ext. intros k Hk.
  set (post := skipn (i + S l) t) in *.
  destruct k as [|k].
  - rewrite !Nat.add_0_r.
    assert (H1 : occurs_at p t (i + S l) = false).
    { destruct (occurs_at p t (i + S l)) eqn:E; [|reflexivity].
      rewrite (occurs_word_start p t _ H0 E) in He. discriminate He. }
    assert (H2 : occurs_at p post 0 = false).
    { destruct (occurs_at p post 0) eqn:E; [|reflexivity].
      rewrite (occurs_word_start p post _ H0 E) in Hpost. discriminate Hpost. }
    unfold match_at. rewrite H1, H2, !andb_false_r. reflexivity.
  - assert (Hl : length (firstn (i + S l) t) = i + S l) by (rewrite length_firstn; lia).
    transitivity (match_at p (firstn (i + S l) t ++ post)
                    (length (firstn (i + S l) t) + S k)).
    + unfold post. rewrite firstn_skipn, Hl. reflexivity.
    + rewrite match_at_app_r by (left; lia). reflexivity.
Qed.

(** The scan keeps a leading non-word character. *)
Lemma re_sub_head (p c t : str) :
  word_at p 0 = true -> word_at t 0 = false -> word_at (re_sub p c t) 0 = false.
Proof.
  intros H0 Ht. unfold re_sub.
  assert (Hm : match_at p t 0 = false).
  { unfold match_at. destruct (occurs_at p t 0) eqn:E.
    - rewrite (occurs_word_start p t 0 H0 E) in Ht. discriminate Ht.
    - rewrite andb_false_r. reflexivity. }
  destruct t as [|ch r]; cbn [sub_scan]; rewrite Hm; [reflexivity|exact Ht].
Qed.

(** For a pattern that begins and ends with a word character, a match of
    [\b...\b] is an appearance as a whole word. *)
Lemma whole_word_search (p t : str) :
  word_delimited p = true -> re_search p t = whole_word_in p t.
Proof.
  intros Hd. unfold re_search, whole_word_in.
  induction (seq 0 (S (length t))) as [|i l IH]; [reflexivity|].
  cbn [existsb]. rewrite IH. f_equal.
  destruct (match_at p t i) eqn:Hm.
  - apply (match_at_delimited p t i Hd) in Hm as [Ho [Hs He]].
    rewrite Ho, Hs, He. reflexivity.
  - symmetry. apply not_true_is_false. intros H.
    apply andb_true_iff in H as [H He]. apply andb_true_iff in H as [Ho Hs].
    apply negb_true_iff in Hs, He.
    rewrite (proj2 (match_at_delimited p t i Hd)) in Hm; [discriminate Hm|].
    split; [exact Ho|]. split; assumption.
Qed.

Lemma syn_loop_unchanged (canonical : str) (synonyms : list str) (cur : str)
    (detected : gset str) :
  forallb (fun s => negb (re_search (lower s) cur)) synonyms = true ->
  fold_left (syn_step canonical) synonyms (cur, detected) = (cur, detected).
Proof.
  induction synonyms as [|syn synonyms IH]; intros H; [reflexivity|].
  cbn [forallb] in H. apply andb_true_iff in H as [Hs H]. apply negb_true_iff in Hs.
  cbn [fold_left]. unfold syn_step at 2. rewrite Hs. apply IH. exact H.
Qed.

Lemma normalize_text_quiet_prefix (text : str) (earlier : SkillMap) :
  no_synonym_in earlier (lower text) = true ->
  fst (normalize_text text earlier) = lower text.
Proof. intros H. apply skill_loop_text_unchanged. exact H. Qed.

(** ** Words *)

Lemma words_acc_head (s cur : str) :
  cur ++ take_while is_word s <> [] ->
  exists rest, words_acc cur s = (cur ++ take_while is_word s) :: rest.
Proof.
  revert cur. induction s as [|c s IH]; intros cur Hne.
  - cbn [take_while] in *. rewrite app_nil_r in *.
    destruct cur; [contradiction|]. exists []. reflexivity.
  - cbn [words_acc take_while] in *. destruct (is_word c).
    + destruct (IH (cur ++ [c])) as [rest Hrest].
      * rewrite <- app_assoc. exact Hne.
      * exists rest. rewrite Hrest, <- app_assoc. reflexivity.
    + rewrite app_nil_r in *. destruct cur; [contradiction|]. eexists. reflexivity.
Qed.

Lemma take_while_split (f : ascii -> bool) (s : str) :
  s = take_while f s ++ drop_while f s.
Proof.
  induction s as [|c s IH]; [reflexivity|]. cbn [take_while drop_while].
  destruct (f c); [|reflexivity]. cbn [app]. f_equal. exact IH.
Qed.

Lemma take_while_all (f : ascii -> bool) (s : str) :
  forallb f (take_while f s) = true.
Proof.
  induction s as [|c s IH]; [reflexivity|]. cbn [take_while].
  destruct (f c) eqn:E; [|reflexivity]. cbn [forallb]. rewrite E, IH. reflexivity.
Qed.

Lemma drop_while_head (f : ascii -> bool) (s : str) (c : ascii) (r : str) :
  drop_while f s = c :: r -> f c = false.
Proof.
  induction s as [|d s IH]; [discriminate|]. cbn [drop_while].
  destruct (f d) eqn:E; [exact IH|]. intros H. injection H as -> _. exact E.
Qed.

(** The first word of a string that begins with a word character. *)
Lemma first_word (v : str) :
  word_at v 0 = true ->
  let w := take_while is_word v in
  0 < length w /\ length w <= length v
  /\ firstn (length w) v = w
  /\ forallb is_word w = true
  /\ word_at v (length w) = false
  /\ exists rest, words v = w :: rest.
Proof.
  intros H0 w. subst w.
  destruct v as [|c v]; [discriminate H0|].
  unfold word_at, char_at in H0. cbn [nth_error] in H0.
  assert (Hpos : 0 < length (take_while is_word (c :: v))).
  { cbn [take_while]. rewrite H0. cbn. lia. }
  pose proof (take_while_split is_word (c :: v)) as Hsplit.
  assert (Hlen : length (take_while is_word (c :: v)) <= length (c :: v)).
  { rewrite Hsplit at 2. rewrite length_app. lia. }
  split; [exact Hpos|]. split; [exact Hlen|]. split; [|split; [|split]].
  - rewrite Hsplit at 2. rewrite firstn_app, Nat.sub_diag, firstn_O, app_nil_r.
    apply firstn_all.
  - apply take_while_all.
  - unfold word_at, char_at. rewrite Hsplit at 1.
    rewrite nth_error_app2 by lia. rewrite Nat.sub_diag.
    destruct (drop_while is_word (c :: v)) as [|d r] eqn:Ed; [reflexivity|].
    cbn [nth_error]. apply (drop_while_head _ _ _ _ Ed).
  - unfold words. apply (words_acc_head (c :: v) []). cbn [app].
    intros E. rewrite E in Hpos. cbn in Hpos. lia.
Qed.

Lemma single_word_facts (q : str) :
  single_word q = true ->
  word_delimited q = true /\ forallb is_word q = true /\ take_while is_word q = q.
Proof.
  unfold single_word. intros H. destruct q as [|c q]; [discriminate H|].
  split; [|split; [exact H|]].
  - unfold word_delimited. cbn [length word_before].
    rewrite forallb_forall in H. unfold word_at, char_at.
    cbn [nth_error]. rewrite (H c) by (left; reflexivity). cbn [andb].
    destruct (nth_error (c :: q) (length q)) as [d|] eqn:E.
    + apply H. apply (nth_error_In _ _ E).
    + apply nth_error_None in E. cbn in E. lia.
  - clear -H. induction (c :: q) as [|d s IH]; [reflexivity|].
    cbn [forallb] in H. apply andb_true_iff in H as [Hd Hs].
    cbn [take_while]. rewrite Hd. f_equal. apply IH. exact Hs.
Qed.

Lemma occurs_all_word (q t : str) (j k : nat) :
  forallb is_word q = true -> occurs_at q t j = true -> k < length q ->
  word_at t (j + k) = true.
Proof.
  intros Hall Hocc Hk. unfold word_at. rewrite (occurs_at_char q t j k Hocc Hk).
  unfold char_at. destruct (nth_error q k) as [d|] eqn:E.
  - rewrite forallb_forall in Hall. apply Hall. apply (nth_error_In _ _ E).
  - apply nth_error_None in E. lia.
Qed.

(** An occurrence inside an occurrence. *)
Lemma occurs_at_inside (u t w : str) (i k : nat) :
  occurs_at u t i = true -> k + length w <= length u ->
  occurs_at w u k = occurs_at w t (i + k).
Proof.
  intros Hocc Hk. unfold occurs_at in *. apply str_eqb_eq in Hocc.
  f_equal. rewrite <- Hocc at 1.
  rewrite skipn_firstn_comm, firstn_firstn, skipn_skipn.
  replace (Nat.min (length w) (length u - k)) with (length w) by lia.
  replace (k + i) with (i + k) by lia. reflexivity.
Qed.

Lemma occurs_at_word_at (u t : str) (i k : nat) :
  occurs_at u t i = true -> k < length u -> word_at u k = word_at t (i + k).
Proof.
  intros Hocc Hk. unfold word_at. rewrite (occurs_at_char u t i k Hocc Hk). reflexivity.
Qed.

(** Two matches that overlap: the first word of the one that starts later
    is found in the other. *)
Lemma overlap_first_word (u v t : str) (i j : nat) :
  word_delimited u = true -> word_delimited v = true ->
  match_at u t i = true -> match_at v t j = true ->
  i <= j -> j < i + length u ->
  re_search (take_while is_word v) u = true.
Proof.
  intros Hu Hv Hmu Hmv Hij Hji.
  apply (match_at_delimited u t i Hu) in Hmu as [Hou [Hsu Heu]].
  apply (match_at_delimited v t j Hv) in Hmv as [Hov [Hsv Hev]].
  destruct (word_delimited_facts v Hv) as [_ [Hv0 _]].
  destruct (first_word v Hv0) as [Hwpos [Hwlen [Hwpre [Hwall [Hwend _]]]]].
  set (w := take_while is_word v) in *.
  assert (Howv : occurs_at w v 0 = true).
  { unfold occurs_at. rewrite skipn_O, Hwpre. apply str_eqb_refl. }
  assert (Howt : occurs_at w t j = true).
  { rewrite <- (Nat.add_0_r j). rewrite <- (occurs_at_inside v t w j 0 Hov); [exact Howv | lia]. }
  assert (Hfit : j + length w <= i + length u).
  { destruct (Nat.le_gt_cases (j + length w) (i + length u)) as [H|H]; [exact H|].
    exfalso.
    pose proof (occurs_all_word w t j (i + length u - j) Hwall Howt ltac:(lia)) as Hc.
    replace (j + (i + length u - j)) with (i + length u) in Hc by lia.
    rewrite Hc in Heu. discriminate Heu. }
  set (k := j - i).
  assert (Hk : i + k = j) by (unfold k; lia).
  assert (Howu : occurs_at w u k = true).
  { rewrite (occurs_at_inside u t w i k Hou) by lia. rewrite Hk. exact Howt. }
  apply (match_at_search w u k).
  assert (Hwd : word_delimited w = true).
  { apply single_word_facts. unfold single_word.
    destruct w; [cbn in Hwpos; lia | exact Hwall]. }
  apply (match_at_delimited w u k Hwd). split; [exact Howu|]. split.
  - destruct k as [|k']; [reflexivity|]. cbn [word_before].
    rewrite (occurs_at_word_at u t i k' Hou) by lia.
    replace (i + k') with (j - 1) by lia.
    destruct j as [|j']; [lia|]. cbn [word_before] in Hsv.
    replace (S j' - 1) with j' by lia. exact Hsv.
  - destruct (Nat.eq_dec (k + length w) (length u)) as [E|E].
    + apply word_at_out. lia.
    + rewrite (occurs_at_word_at u t i (k + length w) Hou) by lia.
      replace (i + (k + length w)) with (j + length w) by lia.
      destruct (Nat.eq_dec (length w) (length v)) as [Ev|Ev].
      * rewrite Ev. exact Hev.
      * rewrite <- (occurs_at_word_at v t j (length w) Hov) by lia. exact Hwend.
Qed.

Lemma overlap_share (u v t : str) (i j : nat) :
  word_delimited u = true -> word_delimited v = true ->
  match_at u t i = true -> match_at v t j = true ->
  i < j + length v -> j < i + length u ->
  share_word u v = true.
Proof.
  intros Hu Hv Hmu Hmv H1 H2. unfold share_word. apply orb_true_iff.
  destruct (Nat.le_gt_cases i j) as [Hij|Hji].
  - right. destruct (word_delimited_facts v Hv) as [_ [Hv0 _]].
    destruct (first_word v Hv0) as [_ [_ [_ [_ [_ [rest Hw]]]]]].
    rewrite Hw. cbn [existsb].
    rewrite (overlap_first_word u v t i j Hu Hv Hmu Hmv Hij H2). reflexivity.
  - left. destruct (word_delimited_facts u Hu) as [_ [Hu0 _]].
    destruct (first_word u Hu0) as [_ [_ [_ [_ [_ [rest Hw]]]]]].
    rewrite Hw. cbn [existsb].
    rewrite (overlap_first_word v u t j i Hv Hu Hmv Hmu ltac:(lia) H1). reflexivity.
Qed.

Lemma share_word_single (q c : str) :
  single_word q = true -> share_word q c = false -> re_search q c = false.
Proof.
  intros Hq Hs. destruct (single_word_facts q Hq) as [Hd [_ Htw]].
  destruct (word_delimited_facts q Hd) as [_ [H0 _]].
  destruct (first_word q H0) as [_ [_ [_ [_ [_ [rest Hw]]]]]].
  rewrite Htw in Hw. unfold share_word in Hs. rewrite Hw in Hs. cbn [existsb] in Hs.
  apply orb_false_iff in Hs as [Hs _]. apply orb_false_iff in Hs as [Hs _]. exact Hs.
Qed.

(** ** What a replacement can and cannot do *)

(** The text of [re.sub] around the leftmost match. *)
Lemma re_sub_cases (p c t : str) :
  word_delimited p = true ->
  (re_search p t = false /\ re_sub p c t = t)
  \/ exists (i : nat) (pre post : str),
       t = pre ++ p ++ post /\ length pre = i
       /\ match_at p t i = true
       /\ (forall k, k < i -> match_at p t k = false)
       /\ word_before pre (length pre) = false
       /\ word_at post 0 = false
       /\ word_at (re_sub p c post) 0 = false
       /\ re_sub p c t = pre ++ c ++ re_sub p c post.
Proof.
  intros Hd. destruct (re_search p t) eqn:Hs.
  - right. destruct (re_search_first p t Hs) as [i [Hm Hmin]].
    destruct (match_split p t i Hd Hm) as [Ht [Hli [Hpre Hpost]]].
    destruct (word_delimited_facts p Hd) as [_ [H0 _]].
    exists i, (firstn i t), (skipn (i + length p) t).
    split; [exact Ht|]. split; [exact Hli|]. split; [exact Hm|]. split; [exact Hmin|].
    split; [rewrite Hli; exact Hpre|]. split; [exact Hpost|].
    split; [apply re_sub_head; assumption|].
    apply re_sub_first_match; assumption.
  - left. split; [reflexivity|]. apply re_sub_no_match. exact Hs.
Qed.

(** A pattern apart from the replacement is not found after the
    replacement, unless it was found before; the replaced pattern itself
    is not found any more. *)
Lemma no_new_match (p q c : str) :
  word_delimited p = true -> word_delimited q = true ->
  apart q c = true ->
  forall t : str,
    q = p \/ re_search q t = false ->
    re_search q (re_sub p c t) = false.
Proof.
  intros Hp Hq Hap.
  apply andb_true_iff in Hap as [Hshare Hkind]. apply negb_true_iff in Hshare.
  destruct (word_delimited_facts q Hq) as [Hqlen [Hq0 _]].
  intros t. remember (length t) as n eqn:Hn. revert t Hn.
  induction n as [n IH] using lt_wf_ind. intros t Hn Hor.
  destruct (re_sub_cases p c t Hp)
    as [[Hs Hsame]|[i [pre [post [Ht [Hli [Hm [Hmin [Hpre [Hpost [Hpost' Hsub]]]]]]]]]]].
  - rewrite Hsame. destruct Hor as [->|Hor]; assumption.
  - rewrite Hsub. set (post' := re_sub p c post) in *.
    apply not_true_is_false. intros Hfound.
    apply re_search_match in Hfound as [j Hj].
    pose proof (proj1 (match_at_delimited q _ j Hq) Hj) as [Hocc [Hsj Hej]].
    assert (Hqne : q <> []) by (destruct q; [cbn in Hqlen; lia | discriminate]).
    pose proof (occurs_at_length q _ j Hocc Hqne) as Hbound.
    rewrite !length_app in Hbound.
    destruct (Nat.le_gt_cases (j + length q) (length pre)) as [Hin_pre|Hpast_pre].
    + (* the match lies in the text before the first replacement *)
      assert (Hstrict : j + length q < length pre).
      { destruct (Nat.eq_dec (j + length q) (length pre)) as [E|E]; [|lia]. exfalso.
        pose proof (occurs_word_end q _ j Hq Hocc) as Hwe.
        rewrite E, word_before_app_l, Hpre in Hwe by lia. discriminate Hwe. }
      rewrite match_at_app_l in Hj by (try lia; left; exact Hstrict).
      assert (Hjt : match_at q t j = true).
      { rewrite Ht. rewrite match_at_app_l by (try lia; left; exact Hstrict). exact Hj. }
      destruct Hor as [->|Hor].
      * rewrite (Hmin j) in Hjt by lia. discriminate Hjt.
      * rewrite (match_at_search q t j Hjt) in Hor. discriminate Hor.
    + destruct (Nat.le_gt_cases (length pre + length c) j) as [Hin_post|Hbefore_post].
      * (* the match lies in the text after the first replacement *)
        set (k := j - (length pre + length c)).
        assert (Hjk : j = length (pre ++ c) + k) by (rewrite length_app; unfold k; lia).
        rewrite app_assoc, Hjk in Hj.
        destruct k as [|k'] eqn:Ek.
        -- pose proof (occurs_word_start q _ j Hq0 Hocc) as Hw.
           rewrite app_assoc, Hjk, word_at_app_r, Hpost' in Hw. discriminate Hw.
        -- rewrite match_at_app_r in Hj by (left; lia).
           assert (Hlt : length post < n).
           { subst n. rewrite Ht, !length_app.
             destruct (word_delimited_facts p Hp) as [Hpl _]. lia. }
           assert (Hor' : q = p \/ re_search q post = false).
           { destruct Hor as [->|Hor]; [left; reflexivity|right].
             apply not_true_is_false. intros Hf.
             apply re_search_match in Hf as [k2 Hk2].
             destruct k2 as [|k2].
             - apply (match_at_delimited q post 0 Hq) in Hk2 as [Ho _].
               rewrite (occurs_word_start q post 0 Hq0 Ho) in Hpost. discriminate Hpost.
             - assert (Hjt : match_at q t (length (pre ++ p) + S k2) = true).
               { rewrite Ht, app_assoc. rewrite match_at_app_r by (left; lia). exact Hk2. }
               rewrite (match_at_search q t _ Hjt) in Hor. discriminate Hor. }
           pose proof (IH (length post) Hlt post eq_refl Hor') as Hnone.
           fold post' in Hnone.
           rewrite (match_at_search q post' _ Hj) in Hnone. discriminate Hnone.
      * (* the match meets the replacement *)
        apply orb_true_iff in Hkind as [Hsingle|Hcd].
        -- destruct (single_word_facts q Hsingle) as [_ [Hall _]].
           assert (Hge : length pre <= j).
           { destruct (Nat.le_gt_cases (length pre) j) as [H|H]; [exact H|]. exfalso.
             pose proof (occurs_all_word q _ j (length pre - 1 - j) Hall Hocc ltac:(lia)) as Hw.
             replace (j + (length pre - 1 - j)) with (length pre - 1) in Hw by lia.
             rewrite word_at_app_l in Hw by lia.
             destruct (length pre) as [|l] eqn:El; [lia|].
             cbn [word_before] in Hpre. replace (S l - 1) with l in Hw by lia.
             rewrite Hw in Hpre. discriminate Hpre. }
           assert (Hle : j + length q <= length pre + length c).
           { destruct (Nat.le_gt_cases (j + length q) (length pre + length c)) as [H|H];
               [exact H|]. exfalso.
             pose proof (occurs_all_word q _ j (length pre + length c - j) Hall Hocc
                           ltac:(lia)) as Hw.
             replace (j + (length pre + length c - j)) with (length (pre ++ c) + 0) in Hw
               by (rewrite length_app; lia).
             rewrite app_assoc, word_at_app_r, Hpost' in Hw. discriminate Hw. }
           replace j with (length pre + (j - length pre)) in Hj by lia.
           rewrite match_at_app_r in Hj by (right; exact Hpre).
           rewrite match_at_app_l in Hj by (try lia; right; exact Hpost').
           pose proof (match_at_search q c _ Hj) as Hf.
           rewrite (share_word_single q c Hsingle Hshare) in Hf. discriminate Hf.
        -- assert (Hc : match_at c (pre ++ c ++ post') (length pre) = true).
           { rewrite <- (Nat.add_0_r (length pre)).
             rewrite match_at_app_r by (right; exact Hpre).
             rewrite match_at_app_l by (try (cbn; lia); right; exact Hpost').
             apply match_at_self. exact Hcd. }
           pose proof (overlap_share q c _ j (length pre) Hq Hcd Hj Hc ltac:(lia) ltac:(lia))
             as Hsh.
           rewrite Hsh in Hshare. discriminate Hshare.
Qed.

(** The replacement is found after it is written. *)
Lemma replacement_found (p c t : str) :
  word_delimited p = true -> word_delimited c = true ->
  re_search p t = true -> re_search c (re_sub p c t) = true.
Proof.
  intros Hp Hc Hs.
  destruct (re_sub_cases p c t Hp)
    as [[Hs' _]|[i [pre [post [Ht [Hli [Hm [Hmin [Hpre [Hpost [Hpost' Hsub]]]]]]]]]]].
  - rewrite Hs' in Hs. discriminate Hs.
  - rewrite Hsub. apply (match_at_search c _ (length pre)).
    rewrite <- (Nat.add_0_r (length pre)).
    rewrite match_at_app_r by (right; exact Hpre).
    rewrite match_at_app_l by (try (cbn; lia); right; exact Hpost').
    apply match_at_self. exact Hc.
Qed.

(** A name that has no word in common with the pattern stays where it
    is. *)
Lemma match_persists (p c0 c : str) :
  word_delimited p = true -> word_delimited c0 = true ->
  share_word p c0 = false ->
  forall t : str, re_search c0 t = true -> re_search c0 (re_sub p c t) = true.
Proof.
  intros Hp Hc0 Hshare.
  destruct (word_delimited_facts c0 Hc0) as [Hclen [Hc00 _]].
  destruct (word_delimited_facts p Hp) as [Hplen [Hp0 _]].
  intros t. remember (length t) as n eqn:Hn. revert t Hn.
  induction n as [n IH] using lt_wf_ind. intros t Hn Hfound.
  destruct (re_sub_cases p c t Hp)
    as [[Hs Hsame]|[i [pre [post [Ht [Hli [Hm [Hmin [Hpre [Hpost [Hpost' Hsub]]]]]]]]]]].
  - rewrite Hsame. exact Hfound.
  - rewrite Hsub. set (post' := re_sub p c post) in *.
    apply re_search_match in Hfound as [j Hj].
    pose proof (proj1 (match_at_delimited c0 t j Hc0) Hj) as [Hocc [Hsj Hej]].
    destruct (Nat.le_gt_cases (j + length c0) i) as [Hleft|Hnl].
    + (* the name is before the match *)
      assert (Hstrict : j + length c0 < length pre).
      { destruct (Nat.eq_dec (j + length c0) i) as [E|E]; [|lia]. exfalso.
        apply (match_at_delimited p t i Hp) in Hm as [Hop _].
        rewrite E, (occurs_word_start p t i Hp0 Hop) in Hej. discriminate Hej. }
      apply (match_at_search c0 _ j).
      rewrite match_at_app_l by (try lia; left; exact Hstrict).
      rewrite Ht in Hj. rewrite match_at_app_l in Hj by (try lia; left; exact Hstrict).
      exact Hj.
    + destruct (Nat.le_gt_cases (i + length p) j) as [Hright|Hnr].
      * (* the name is after the match *)
        set (k := j - (i + length p)).
        assert (Hjk : j = length (pre ++ p) + k) by (rewrite length_app; unfold k; lia).
        rewrite Ht, app_assoc, Hjk in Hj.
        destruct k as [|k'] eqn:Ek.
        -- exfalso. pose proof (occurs_word_start c0 t j Hc00 Hocc) as Hw.
           rewrite Ht, app_assoc, Hjk, word_at_app_r, Hpost in Hw. discriminate Hw.
        -- rewrite match_at_app_r in Hj by (left; lia).
           assert (Hlt : length post < n).
           { subst n. rewrite Ht, !length_app. lia. }
           pose proof (IH (length post) Hlt post eq_refl (match_at_search c0 post _ Hj)) as Hf.
           fold post' in Hf. apply re_search_match in Hf as [k2 Hk2].
           destruct k2 as [|k2].
           ++ exfalso. apply (match_at_delimited c0 post' 0 Hc0) in Hk2 as [Ho _].
              rewrite (occurs_word_start c0 post' 0 Hc00 Ho) in Hpost'. discriminate Hpost'.
           ++ apply (match_at_search c0 _ (length (pre ++ c) + S k2)).
              rewrite app_assoc. rewrite match_at_app_r by (left; lia). exact Hk2.
      * (* the name meets the match *)
        exfalso.
        pose proof (overlap_share p c0 t i j Hp Hc0 Hm Hj ltac:(lia) ltac:(lia)) as Hsh.
        rewrite Hsh in Hshare. discriminate Hshare.
Qed.

(** ** The two passes *)

Lemma fold_left_preserves_in {A B : Type} (P : A -> Prop) (f : A -> B -> A) (l : list B) (a : A) :
  (forall st x, In x l -> P st -> P (f st x)) -> P a -> P (fold_left f l a).
Proof.
  revert a. induction l as [|x l IH]; intros a Hstep Ha; [exact Ha|].
  cbn [fold_left]. apply IH.
  - intros st y Hy. apply Hstep. right. exact Hy.
  - apply Hstep; [left; reflexivity | exact Ha].
Qed.

(** The working text does not depend on the detected set. *)
Lemma syn_loop_text (canonical : str) (synonyms : list str) (cur : str) (detected : gset str) :
  fst (fold_left (syn_step canonical) synonyms (cur, detected))
  = fold_left text_step (map (fun syn => (lower syn, lower canonical)) synonyms) cur.
Proof.
  revert cur detected. induction synonyms as [|syn synonyms IH]; intros cur detected;
    [reflexivity|].
  cbn [fold_left map]. unfold syn_step at 2. unfold text_step at 2. cbn [fst snd].
  destruct (re_search (lower syn) cur); apply IH.
Qed.

Lemma skill_loop_text (skills_map : SkillMap) (cur : str) (detected : gset str) :
  fst (fold_left skill_step skills_map (cur, detected))
  = fold_left text_step (steps skills_map) cur.
Proof.
  revert cur detected.
  induction skills_map as [|[canonical synonyms] skills_map IH]; intros cur detected;
    [reflexivity|].
  cbn [fold_left steps flat_map fst snd]. rewrite fold_left_app.
  rewrite <- (syn_loop_text canonical synonyms cur detected).
  rewrite <- (skill_step_fst (cur, detected) canonical synonyms).
  destruct (skill_step (cur, detected) (canonical, synonyms)) as [cur' detected'].
  apply IH.
Qed.

Lemma normalize_text_steps (text : str) (skills_map : SkillMap) :
  fst (normalize_text text skills_map) = fold_left text_step (steps skills_map) (lower text).
Proof. apply skill_loop_text. Qed.

Lemma steps_spec (skills_map : SkillMap) (p c : str) :
  In (p, c) (steps skills_map) ->
  exists canonical synonyms syn,
    In (canonical, synonyms) skills_map /\ In syn synonyms
    /\ p = lower syn /\ c = lower canonical.
Proof.
  unfold steps. intros H. apply in_flat_map in H as [[canonical synonyms] [He H]].
  cbn [fst snd] in H. apply in_map_iff in H as [syn [E Hs]].
  injection E as <- <-. exists canonical, synonyms, syn. auto.
Qed.

Lemma settled_spec (skills_map : SkillMap) (canonical : str) (synonyms : list str) (syn : str) :
  settled skills_map = true ->
  In (canonical, synonyms) skills_map -> In syn synonyms ->
  lower syn <> lower canonical ->
  word_delimited (lower syn) = true
  /\ forall entry : str * list str,
       In entry skills_map -> apart (lower syn) (lower (fst entry)) = true.
Proof.
  unfold settled. intros H He Hs Hne.
  rewrite forallb_forall in H. specialize (H _ He). cbn [fst snd] in H.
  rewrite forallb_forall in H. specialize (H _ Hs).
  unfold proper in H. apply str_eqb_neq in Hne. rewrite Hne in H. cbn [negb implb] in H.
  apply andb_true_iff in H as [Hd Hall]. split; [exact Hd|].
  intros entry Hin. rewrite forallb_forall in Hall. apply (Hall entry Hin).
Qed.

Lemma settled_steps (skills_map : SkillMap) (p c : str) :
  settled skills_map = true -> In (p, c) (steps skills_map) -> p <> c ->
  word_delimited p = true
  /\ forall p' c', In (p', c') (steps skills_map) -> apart p c' = true.
Proof.
  intros Hset Hin Hne.
  destruct (steps_spec _ _ _ Hin) as [canonical [synonyms [syn [He [Hs [-> ->]]]]]].
  destruct (settled_spec _ _ _ _ Hset He Hs Hne) as [Hd Hall].
  split; [exact Hd|]. intros p' c' Hin'.
  destruct (steps_spec _ _ _ Hin') as [canonical' [synonyms' [syn' [He' [_ [_ ->]]]]]].
  apply (Hall _ He').
Qed.

(** After the first pass no proper synonym is found in the text. *)
Lemma first_pass_quiet (all : list (str * str)) :
  (forall p c, In (p, c) all -> p <> c ->
     word_delimited p = true /\ forall p' c', In (p', c') all -> apart p c' = true) ->
  forall (todo done : list (str * str)) (cur : str),
    all = done ++ todo ->
    (forall q cq, In (q, cq) done -> q <> cq -> re_search q cur = false) ->
    forall q cq, In (q, cq) all -> q <> cq ->
      re_search q (fold_left text_step todo cur) = false.
Proof.
  intros Hgood. induction todo as [|[p c] todo IH]; intros done cur Hall Hdone q cq Hin Hne.
  - rewrite app_nil_r in Hall. subst all. cbn [fold_left]. apply (Hdone q cq Hin Hne).
  - cbn [fold_left]. apply (IH (done ++ [(p, c)]) (text_step cur (p, c))) with (cq := cq);
      try assumption.
    + rewrite Hall, <- app_assoc. reflexivity.
    + clear q cq Hin Hne. intros q cq Hin Hne.
      assert (Hpin : In (p, c) all).
      { rewrite Hall. apply in_or_app. right. left. reflexivity. }
      unfold text_step. cbn [fst snd].
      apply in_app_or in Hin as [Hin|[E|[]]].
      * destruct (re_search p cur) eqn:Hs; [|apply (Hdone q cq Hin Hne)].
        destruct (decide (p = c)) as [->|Hpc].
        -- rewrite re_sub_self. apply (Hdone q cq Hin Hne).
        -- assert (Hqin : In (q, cq) all).
           { rewrite Hall. apply in_or_app. left. exact Hin. }
           destruct (Hgood p c Hpin Hpc) as [Hp _].
           destruct (Hgood q cq Hqin Hne) as [Hq Hap].
           apply (no_new_match p q c Hp Hq (Hap p c Hpin)).
           right. apply (Hdone q cq Hin Hne).
      * injection E as <- <-.
        destruct (re_search p cur) eqn:Hs; [|exact Hs].
        destruct (Hgood p c Hpin Hne) as [Hp Hap].
        apply (no_new_match p p c Hp Hp (Hap p c Hpin)). left. reflexivity.
Qed.

(** A text in which no proper synonym is found is left as it is. *)
Lemma quiet_text_kept (l : list (str * str)) (cur : str) :
  (forall q cq, In (q, cq) l -> q <> cq -> re_search q cur = false) ->
  fold_left text_step l cur = cur.
Proof.
  induction l as [|[p c] l IH]; intros Hq; [reflexivity|].
  cbn [fold_left].
  assert (Hstep : text_step cur (p, c) = cur).
  { unfold text_step. cbn [fst snd]. destruct (re_search p cur) eqn:Hs; [|reflexivity].
    destruct (decide (p = c)) as [->|Hpc]; [apply re_sub_self|].
    rewrite (Hq p c) in Hs by (try (left; reflexivity); exact Hpc). discriminate Hs. }
  rewrite Hstep. apply IH. intros q cq Hin. apply Hq. right. exact Hin.
Qed.

Lemma settled_quiet (text : str) (skills_map : SkillMap) :
  settled skills_map = true ->
  forall q cq, In (q, cq) (steps skills_map) -> q <> cq ->
    re_search q (fst (normalize_text text skills_map)) = false.
Proof.
  intros Hset. rewrite normalize_text_steps.
  apply (first_pass_quiet (steps skills_map)) with (done := []).
  - intros p c. apply settled_steps. exact Hset.
  - reflexivity.
  - intros q cq [].
Qed.

Lemma steps_app (a b : SkillMap) : steps (a ++ b) = steps a ++ steps b.
Proof. unfold steps. apply flat_map_app. Qed.

Lemma syn_step_names_found (skills_map : SkillMap) (canonical : str) (synonyms : list str)
    (syn : str) (st : NormState) :
  settled skills_map = true -> names_delimited skills_map = true ->
  In (canonical, synonyms) skills_map -> In syn synonyms ->
  names_found skills_map st -> names_found skills_map (syn_step canonical st syn).
Proof.
  intros Hset Hnames He Hs Hinv. destruct st as [cur detected].
  unfold syn_step. destruct (re_search (lower syn) cur) eqn:Hfound; [|exact Hinv].
  assert (Hnd : forall entry : str * list str,
             In entry skills_map -> word_delimited (lower (fst entry)) = true).
  { intros entry Hin. unfold names_delimited in Hnames.
    rewrite forallb_forall in Hnames. apply (Hnames entry Hin). }
  intros x Hx. cbn [fst snd] in *.
  destruct (decide (lower syn = lower canonical)) as [Eq|Hne].
  - rewrite Eq, re_sub_self. apply elem_of_union in Hx as [Hx|Hx].
    + apply elem_of_singleton in Hx. subst x. exists (canonical, synonyms).
      split; [exact He|]. split; [reflexivity|]. rewrite <- Eq. exact Hfound.
    + apply (Hinv x Hx).
  - destruct (settled_spec _ _ _ _ Hset He Hs Hne) as [Hd Hap].
    apply elem_of_union in Hx as [Hx|Hx].
    + apply elem_of_singleton in Hx. subst x. exists (canonical, synonyms).
      split; [exact He|]. split; [reflexivity|].
      apply replacement_found; [exact Hd | apply (Hnd _ He) | exact Hfound].
    + destruct (Hinv x Hx) as [entry [Hin [-> Hsx]]]. exists entry.
      split; [exact Hin|]. split; [reflexivity|]. cbn [fst snd] in Hsx.
      pose proof (Hap entry Hin) as Ha. apply andb_true_iff in Ha as [Ha _].
      apply negb_true_iff in Ha.
      apply (match_persists _ _ _ Hd (Hnd _ Hin) Ha). exact Hsx.
Qed.

Lemma skill_step_names_found (skills_map : SkillMap) (entry : str * list str) (st : NormState) :
  settled skills_map = true -> names_delimited skills_map = true ->
  In entry skills_map ->
  names_found skills_map st -> names_found skills_map (skill_step st entry).
Proof.
  intros Hset Hnames He Hinv. destruct entry as [canonical synonyms].
  assert (Hloop : names_found skills_map (fold_left (syn_step canonical) synonyms st)).
  { apply (fold_left_preserves_in (names_found skills_map)); [|exact Hinv].
    intros s syn Hs. apply (syn_step_names_found _ _ synonyms); assumption. }
  unfold skill_step.
  destruct (fold_left (syn_step canonical) synonyms st) as [cur detected].
  destruct (re_search (lower canonical) cur) eqn:Hc; [|exact Hloop].
  intros x Hx. cbn [fst snd] in *. apply elem_of_union in Hx as [Hx|Hx].
  - apply elem_of_singleton in Hx. subst x. exists (canonical, synonyms).
    split; [exact He|]. split; [reflexivity | exact Hc].
  - apply (Hloop x Hx).
Qed.

Lemma normalize_text_names_found (text : str) (skills_map : SkillMap) :
  settled skills_map = true -> names_delimited skills_map = true ->
  names_found skills_map (normalize_text text skills_map).
Proof.
  intros Hset Hnames. unfold normalize_text.
  apply (fold_left_preserves_in (names_found skills_map)).
  - intros st entry Hin. apply skill_step_names_found; assumption.
  - intros x Hx. cbn [snd] in Hx. apply elem_of_empty in Hx. contradiction.
Qed.

(** A name found in a text that the map leaves as it is, is detected. *)
Lemma name_found_detected (cur : str) (skills_map : SkillMap) (entry : str * list str) :
  lower cur = cur ->
  (forall q cq, In (q, cq) (steps skills_map) -> q <> cq -> re_search q cur = false) ->
  In entry skills_map ->
  re_search (lower (fst entry)) cur = true ->
  lower (fst entry) ∈ snd (normalize_text cur skills_map).
Proof.
  intros Hlow Hquiet Hin Hfound.
  apply in_split in Hin as [earlier [later ->]].
  rewrite normalize_text_split. apply skill_loop_keeps.
  assert (Hcur : fst (normalize_text cur earlier) = cur).
  { rewrite normalize_text_steps, Hlow. apply quiet_text_kept.
    intros q cq Hq. apply Hquiet. rewrite steps_app. apply in_or_app. left. exact Hq. }
  destruct (normalize_text cur earlier) as [cur' detected]. cbn [fst] in Hcur. subst cur'.
  destruct entry as [canonical synonyms]. cbn [fst] in *.
  apply skill_step_detects. right. exact Hfound.
Qed.

(** ** Matches of a pattern through the earlier replacements *)

Lemma text_steps_keep (q : str) (l : list (str * str)) (cur : str) :
  word_delimited q = true -> keeps_matches_of q l = true ->
  re_search q cur = true -> re_search q (fold_left text_step l cur) = true.
Proof.
  intros Hq. revert cur. induction l as [|[p c] l IH]; intros cur Hl Hfound; [exact Hfound|].
  cbn [keeps_matches_of forallb fst snd] in Hl. apply andb_true_iff in Hl as [Hstep Hl].
  cbn [fold_left]. apply IH; [exact Hl|].
  unfold text_step. cbn [fst snd]. destruct (re_search p cur); [|exact Hfound].
  apply orb_true_iff in Hstep as [Heq|Hstep].
  - apply str_eqb_eq in Heq. subst c. rewrite re_sub_self. exact Hfound.
  - apply andb_true_iff in Hstep as [Hp Hsh]. apply negb_true_iff in Hsh.
    apply (match_persists p q c Hp Hq Hsh). exact Hfound.
Qed.

Lemma text_steps_bring_none (q : str) (l : list (str * str)) (cur : str) :
  word_delimited q = true -> brings_no_match_of q l = true ->
  re_search q cur = false -> re_search q (fold_left text_step l cur) = false.
Proof.
  intros Hq. revert cur. induction l as [|[p c] l IH]; intros cur Hl Hnone; [exact Hnone|].
  cbn [brings_no_match_of forallb fst snd] in Hl. apply andb_true_iff in Hl as [Hstep Hl].
  cbn [fold_left]. apply IH; [exact Hl|].
  unfold text_step. cbn [fst snd]. destruct (re_search p cur); [|exact Hnone].
  apply orb_true_iff in Hstep as [Heq|Hstep].
  - apply str_eqb_eq in Heq. subst c. rewrite re_sub_self. exact Hnone.
  - apply andb_true_iff in Hstep as [Hp Hap].
    apply (no_new_match p q c Hp Hq Hap). right. exact Hnone.
Qed.

Lemma working_text_steps (text : str) (earlier : SkillMap) (canonical : str)
    (before : list str) :
  fst (fold_left (syn_step canonical) before (normalize_text text earlier))
  = fold_left text_step (steps_before earlier canonical before) (lower text).
Proof.
  unfold steps_before. rewrite fold_left_app, <- normalize_text_steps.
  destruct (normalize_text text earlier) as [cur detected]. cbn [fst].
  apply syn_loop_text.
Qed.

(** ** Properties of the normalizer *)

(** C1, as the code has it. The skill of an entry is detected when one of its
    synonyms has a match of [\b...\b] in the working text that the earlier
    entries of the map leave; for a synonym that begins and ends with a word
    character this is an appearance as a whole word.  In terms of the input:
    the skill is detected when the synonym is found in the lower-cased input
    and no synonym of an earlier entry is; and when the synonym begins and
    ends with a word character, appears in the lower-cased input as a whole
    word, and no replacement of the earlier entries can take that away.  The
    canonical names are plain. *)
Theorem synonym_detected (text : str) (earlier later : SkillMap)
    (canonical : str) (synonyms : list str) (syn : str) :
  plain_map (earlier ++ (canonical, synonyms) :: later) = true ->
  In syn synonyms ->
  let working := fst (normalize_text text earlier) in
  let detected := snd (normalize_text text (earlier ++ (canonical, synonyms) :: later)) in
  (re_search (lower syn) working = true -> lower canonical ∈ detected)
  /\ (word_delimited (lower syn) = true ->
      whole_word_in (lower syn) working = true -> lower canonical ∈ detected)
  /\ (no_synonym_in earlier (lower text) = true ->
      re_search (lower syn) (lower text) = true -> lower canonical ∈ detected)
  /\ (word_delimited (lower syn) = true ->
      keeps_matches_of (lower syn) (steps earlier) = true ->
      whole_word_in (lower syn) (lower text) = true -> lower canonical ∈ detected).
Proof.
  intros _ Hin working detected.
  assert (Hmain : re_search (lower syn) working = true -> lower canonical ∈ detected).
  { intros Hfound. subst working detected. rewrite normalize_text_split.
    apply skill_loop_keeps.
    destruct (normalize_text text earlier) as [cur det]. cbn [fst] in Hfound.
    apply skill_step_detects. left. exists syn. split; assumption. }
  split; [exact Hmain|]. split; [|split].
  - intros Hd Hw. apply Hmain. rewrite (whole_word_search _ _ Hd). exact Hw.
  - intros Hnone Hfound. apply Hmain. subst working.
    rewrite (normalize_text_quiet_prefix text earlier Hnone). exact Hfound.
  - intros Hd Hkeep Hw. apply Hmain. subst working. rewrite normalize_text_steps.
    apply (text_steps_keep _ _ _ Hd Hkeep). rewrite (whole_word_search _ _ Hd). exact Hw.
Qed.

(** C8, as the code has it. The skill of an entry is detected when its
    canonical name has a match of [\b...\b] in the working text that the
    earlier entries of the map leave, also when none of its synonyms is
    found; for a name that begins and ends with a word character this is an
    appearance as a whole word.  In terms of the input: the skill is
    detected when the name is found in the lower-cased input and no synonym
    of an earlier entry is; and when the name begins and ends with a word
    character, appears in the lower-cased input as a whole word, and no
    replacement of the earlier entries can take that away.  The canonical
    names are plain. *)
Theorem canonical_name_detected (text : str) (earlier later : SkillMap)
    (canonical : str) (synonyms : list str) :
  plain_map (earlier ++ (canonical, synonyms) :: later) = true ->
  let working := fst (normalize_text text earlier) in
  let detected := snd (normalize_text text (earlier ++ (canonical, synonyms) :: later)) in
  (re_search (lower canonical) working = true -> lower canonical ∈ detected)
  /\ (word_delimited (lower canonical) = true ->
      whole_word_in (lower canonical) working = true -> lower canonical ∈ detected)
  /\ (no_synonym_in earlier (lower text) = true ->
      re_search (lower canonical) (lower text) = true -> lower canonical ∈ detected)
  /\ (word_delimited (lower canonical) = true ->
      keeps_matches_of (lower canonical) (steps earlier) = true ->
      whole_word_in (lower canonical) (lower text) = true -> lower canonical ∈ detected).
Proof.
  intros _ working detected.
  assert (Hmain : re_search (lower canonical) working = true -> lower canonical ∈ detected).
  { intros Hfound. subst working detected. rewrite normalize_text_split.
    apply skill_loop_keeps.
    destruct (normalize_text text earlier) as [cur det]. cbn [fst] in Hfound.
    apply skill_step_detects. right. exact Hfound. }
  split; [exact Hmain|]. split; [|split].
  - intros Hd Hw. apply Hmain. rewrite (whole_word_search _ _ Hd). exact Hw.
  - intros Hnone Hfound. apply Hmain. subst working.
    rewrite (normalize_text_quiet_prefix text earlier Hnone). exact Hfound.
  - intros Hd Hkeep Hw. apply Hmain. subst working. rewrite normalize_text_steps.
    apply (text_steps_keep _ _ _ Hd Hkeep). rewrite (whole_word_search _ _ Hd). exact Hw.
Qed.

(** C6, as the code has it. A synonym that begins and ends with a word
    character and is found only inside larger words of a text changes
    nothing in that text; when this holds of the working text at the turn
    of the synonym, [normalize_text] returns what it returns on the map
    without this synonym: the same text and the same detected skills.  In
    terms of the input: so it is when the synonym is found only inside
    larger words of the lower-cased input and no replacement that comes
    before its turn can bring a match of it, in particular when none of
    the synonyms that come before is found in the input.  The canonical
    names are plain. *)
Theorem embedded_synonym_ignored (text : str) (earlier later : SkillMap)
    (canonical : str) (before after : list str) (syn : str) :
  plain_map (earlier ++ (canonical, before ++ syn :: after) :: later) = true ->
  word_delimited (lower syn) = true ->
  let working := fst (fold_left (syn_step canonical) before (normalize_text text earlier)) in
  let ignored :=
    normalize_text text (earlier ++ (canonical, before ++ syn :: after) :: later)
    = normalize_text text (earlier ++ (canonical, before ++ after) :: later) in
  (forall (cur : str) (detected : gset str),
      embedded_only (lower syn) cur = true ->
      re_search (lower syn) cur = false
      /\ syn_step canonical (cur, detected) syn = (cur, detected))
  /\ (embedded_only (lower syn) working = true -> ignored)
  /\ (embedded_only (lower syn) (lower text) = true ->
      brings_no_match_of (lower syn) (steps_before earlier canonical before) = true ->
      ignored)
  /\ (embedded_only (lower syn) (lower text) = true ->
      no_synonym_in earlier (lower text) = true ->
      forallb (fun s => negb (re_search (lower s) (lower text))) before = true ->
      ignored).
Proof.
  intros _ Hd working ignored.
  assert (Hstep : forall cur detected,
             embedded_only (lower syn) cur = true ->
             re_search (lower syn) cur = false
             /\ syn_step canonical (cur, detected) syn = (cur, detected)).
  { intros cur detected Hemb.
    pose proof (embedded_only_no_search _ _ Hd Hemb) as Hs.
    split; [exact Hs|]. unfold syn_step. rewrite Hs. reflexivity. }
  assert (Hquiet : re_search (lower syn) working = false -> ignored).
  { intros Hs. subst ignored. rewrite !normalize_text_split. f_equal.
    unfold skill_step. rewrite !fold_left_app. cbn [fold_left].
    subst working.
    destruct (fold_left (syn_step canonical) before (normalize_text text earlier))
      as [cur detected].
    cbn [fst] in Hs. unfold syn_step at 2. rewrite Hs. reflexivity. }
  split; [exact Hstep|]. split; [|split].
  - intros Hemb. apply Hquiet. apply (embedded_only_no_search _ _ Hd Hemb).
  - intros Hemb Hbring. apply Hquiet. subst working. rewrite working_text_steps.
    apply (text_steps_bring_none _ _ _ Hd Hbring).
    apply (embedded_only_no_search _ _ Hd Hemb).
  - intros Hemb Hnone Hbefore. apply Hquiet. subst working.
    pose proof (normalize_text_quiet_prefix text earlier Hnone) as Hcur.
    destruct (normalize_text text earlier) as [cur detected]. cbn [fst] in Hcur. subst cur.
    rewrite (syn_loop_unchanged canonical before (lower text) detected Hbefore). cbn [fst].
    apply (embedded_only_no_search _ _ Hd Hemb).
Qed.

(** C2, as the code has it. On a settled map (every synonym other than the
    name of its own entry begins and ends with a word character and is
    apart from every canonical name; the canonical names are plain),
    normalizing the normalized text again returns the same text; when the
    canonical names begin and end with a word character too, every skill
    detected by the first pass is detected again. *)
Theorem normalize_again_same_text (text : str) (skills_map : SkillMap) :
  plain_map skills_map = true ->
  settled skills_map = true ->
  fst (normalize_text (fst (normalize_text text skills_map)) skills_map)
  = fst (normalize_text text skills_map)
  /\ (names_delimited skills_map = true ->
      snd (normalize_text text skills_map)
      ⊆ snd (normalize_text (fst (normalize_text text skills_map)) skills_map)).
Proof.
  intros _ Hset.
  pose proof (settled_quiet text skills_map Hset) as Hquiet.
  pose proof (normalize_text_lower text skills_map) as Hlow.
  split.
  - rewrite (normalize_text_steps (fst (normalize_text text skills_map))), Hlow.
    apply quiet_text_kept. exact Hquiet.
  - intros Hnames x Hx.
    destruct (normalize_text_names_found text skills_map Hset Hnames x Hx)
      as [entry [Hin [-> Hfound]]].
    apply name_found_detected; assumption.
Qed.

(** * Concrete runs *)

(** ** The normalizer *)

Lemma synonym_detected_witness :
  lower (py "Multi-Factor Authentication")
  ∈ snd (normalize_text (py "AD and MFA")
           ([(py "Active Directory", [py "AD"])]
            ++ (py "Multi-Factor Authentication", [py "MFA"]) :: [])).
Proof.
  destruct (synonym_detected (py "AD and MFA")
              [(py "Active Directory", [py "AD"])] []
              (py "Multi-Factor Authentication") [py "MFA"] (py "MFA"))
    as [_ [_ [_ H]]].
  - vm_compute. reflexivity.
  - left. reflexivity.
  - apply H; vm_compute; reflexivity.
Defined.

(** C1 fails as stated, in two ways.  "k8s" is a synonym of both skills and
    is the whole input; the first entry rewrites it to "kubernetes", so the
    second entry finds neither its synonym nor its name and is not
    detected.  And "C#" stands as a whole word in front of " developer",
    but [\b] after "#" asks for a word character next, so the pattern does
    not match and nothing is detected. *)
Lemma synonym_missed :
  (let skills_map := [(py "Kubernetes", [py "k8s"]);
                      (py "Container Orchestration", [py "k8s"])] in
   let text := py "k8s" in
   skills_map <> []
   /\ In (py "Container Orchestration", [py "k8s"]) skills_map
   /\ whole_word_in (lower (py "k8s")) (lower text) = true
   /\ re_search (lower (py "k8s")) (lower text) = true
   /\ normalize_text text skills_map = (py "kubernetes", {[ py "kubernetes" ]})
   /\ lower (py "Container Orchestration") ∉ snd (normalize_text text skills_map))
  /\ (let skills_map := [(py "C Sharp", [py "C#"])] in
      let text := py "C# developer" in
      skills_map <> []
      /\ In (py "C Sharp", [py "C#"]) skills_map
      /\ whole_word_in (lower (py "C#")) (lower text) = true
      /\ re_search (lower (py "C#")) (lower text) = false
      /\ normalize_text text skills_map = (py "c# developer", ∅)
      /\ lower (py "C Sharp") ∉ snd (normalize_text text skills_map)).
Proof.
  cbv zeta. split.
  - split; [discriminate|]. split; [right; left; reflexivity|].
    split; [vm_compute; reflexivity|]. split; [vm_compute; reflexivity|].
    assert (Hrun : normalize_text (py "k8s")
                     [(py "Kubernetes", [py "k8s"]); (py "Container Orchestration", [py "k8s"])]
                   = (py "kubernetes", {[ py "kubernetes" ]})).
    { vm_compute. reflexivity. }
    split; [exact Hrun|]. rewrite Hrun. cbn [snd].
    intros Hin. apply elem_of_singleton in Hin. vm_compute in Hin. discriminate.
  - split; [discriminate|]. split; [left; reflexivity|].
    split; [vm_compute; reflexivity|]. split; [vm_compute; reflexivity|].
    assert (Hrun : normalize_text (py "C# developer") [(py "C Sharp", [py "C#"])]
                   = (py "c# developer", ∅)).
    { vm_compute. reflexivity. }
    split; [exact Hrun|]. rewrite Hrun. cbn [snd]. apply not_elem_of_empty.
Qed.

Lemma canonical_name_detected_witness :
  lower (py "Multi-Factor Authentication")
  ∈ snd (normalize_text (py "AD and multi-factor authentication")
           ([(py "Active Directory", [py "AD"])]
            ++ (py "Multi-Factor Authentication", [py "MFA"]) :: [])).
Proof.
  destruct (canonical_name_detected (py "AD and multi-factor authentication")
              [(py "Active Directory", [py "AD"])] []
              (py "Multi-Factor Authentication") [py "MFA"])
    as [_ [_ [_ H]]].
  - vm_compute. reflexivity.
  - apply H; vm_compute; reflexivity.
Defined.

(** C8 fails as stated, in two ways.  The name "Node" is a whole word of the
    input, but "node" is also a synonym of the earlier entry, which rewrites
    it to "javascript" before the entry "Node" is reached.  And the name
    "C#" stands as a whole word in front of " developer", but [\b] after
    "#" asks for a word character next, so the name is not found. *)
Lemma canonical_name_missed :
  (let skills_map := [(py "JavaScript", [py "js"; py "node"]);
                      (py "Node", [py "node.js"])] in
   let text := py "Node developer" in
   In (py "Node", [py "node.js"]) skills_map
   /\ whole_word_in (lower (py "Node")) (lower text) = true
   /\ re_search (lower (py "Node")) (lower text) = true
   /\ normalize_text text skills_map = (py "javascript developer", {[ py "javascript" ]})
   /\ lower (py "Node") ∉ snd (normalize_text text skills_map))
  /\ (let skills_map := [(py "C#", [py "csharp"])] in
      let text := py "C# developer" in
      In (py "C#", [py "csharp"]) skills_map
      /\ whole_word_in (lower (py "C#")) (lower text) = true
      /\ re_search (lower (py "C#")) (lower text) = false
      /\ normalize_text text skills_map = (py "c# developer", ∅)
      /\ lower (py "C#") ∉ snd (normalize_text text skills_map)).
Proof.
  cbv zeta. split.
  - split; [right; left; reflexivity|].
    split; [vm_compute; reflexivity|]. split; [vm_compute; reflexivity|].
    assert (Hrun : normalize_text (py "Node developer")
                     [(py "JavaScript", [py "js"; py "node"]); (py "Node", [py "node.js"])]
                   = (py "javascript developer", {[ py "javascript" ]})).
    { vm_compute. reflexivity. }
    split; [exact Hrun|]. rewrite Hrun. cbn [snd].
    intros Hin. apply elem_of_singleton in Hin. vm_compute in Hin. discriminate.
  - split; [left; reflexivity|].
    split; [vm_compute; reflexivity|]. split; [vm_compute; reflexivity|].
    assert (Hrun : normalize_text (py "C# developer") [(py "C#", [py "csharp"])]
                   = (py "c# developer", ∅)).
    { vm_compute. reflexivity. }
    split; [exact Hrun|]. rewrite Hrun. cbn [snd]. apply not_elem_of_empty.
Qed.

Lemma embedded_synonym_ignored_witness :
  normalize_text (py "AD, JDK and JavaScript")
    ([(py "Active Directory", [py "AD"])] ++ (py "JVM", [py "jdk"] ++ py "java" :: []) :: [])
  = normalize_text (py "AD, JDK and JavaScript")
      ([(py "Active Directory", [py "AD"])] ++ (py "JVM", [py "jdk"] ++ []) :: []).
Proof.
  destruct (embedded_synonym_ignored (py "AD, JDK and JavaScript")
              [(py "Active Directory", [py "AD"])] []
              (py "JVM") [py "jdk"] [] (py "java")) as [_ [_ [H _]]].
  - vm_compute. reflexivity.
  - vm_compute. reflexivity.
  - apply H; vm_compute; reflexivity.
Defined.

(** C6 fails as stated: "java" is found in the input only inside
    "javascript", but the first entry writes "java se" for "jse", and in
    that working text "java" is a whole word: the second skill is detected
    and the text is rewritten once more. *)
Lemma embedded_synonym_detected :
  let skills_map := [(py "Java SE", [py "jse"]); (py "JVM Language", [py "java"])] in
  let text := py "JSE and JavaScript" in
  word_delimited (lower (py "java")) = true
  /\ occurs_at (lower (py "java")) (lower text) 8 = true
  /\ embedded_only (lower (py "java")) (lower text) = true
  /\ fst (normalize_text text skills_map) = py "jvm language se and javascript"
  /\ lower (py "JVM Language") ∈ snd (normalize_text text skills_map)
  /\ normalize_text text skills_map
     <> normalize_text text [(py "Java SE", [py "jse"]); (py "JVM Language", [])].
Proof.
  cbv zeta. split; [vm_compute; reflexivity|]. split; [vm_compute; reflexivity|].
  split; [vm_compute; reflexivity|]. split; [vm_compute; reflexivity|].
  split; [vm_compute; reflexivity|].
  intros H. apply (f_equal fst) in H. vm_compute in H. discriminate H.
Qed.

Lemma normalize_again_same_text_witness :
  let skills_map := [(py "AWS", [py "aws"; py "Amazon Web Services"]);
                     (py "Active Directory", [py "AD"]);
                     (py "Multi-Factor Authentication", [py "MFA"])] in
  let text := py "Amazon Web Services, AD and MFA" in
  fst (normalize_text (fst (normalize_text text skills_map)) skills_map)
  = fst (normalize_text text skills_map)
  /\ snd (normalize_text text skills_map)
     ⊆ snd (normalize_text (fst (normalize_text text skills_map)) skills_map).
Proof.
  cbv zeta.
  destruct (normalize_again_same_text (py "Amazon Web Services, AD and MFA")
              [(py "AWS", [py "aws"; py "Amazon Web Services"]);
               (py "Active Directory", [py "AD"]);
               (py "Multi-Factor Authentication", [py "MFA"])])
    as [Htext Hset].
  - vm_compute. reflexivity.
  - vm_compute. reflexivity.
  - split; [exact Htext|]. apply Hset. vm_compute. reflexivity.
Defined.

(** C2 fails as stated, in both halves.  The canonical name "Azure AD"
    contains its own synonym "AD" as a whole word, so every pass rewrites
    it once more.  And on a settled map the second pass can detect more
    than the first: "az devops" becomes "azure devops", in which the name
    of the first entry is found only on the second pass. *)
Lemma normalize_twice_differs :
  (let skills_map := [(py "Azure AD", [py "AD"])] in
   let text := py "AD" in
   fst (normalize_text text skills_map) = py "azure ad"
   /\ fst (normalize_text (fst (normalize_text text skills_map)) skills_map)
      = py "azure azure ad"
   /\ fst (normalize_text (fst (normalize_text text skills_map)) skills_map)
      <> fst (normalize_text text skills_map))
  /\ (let skills_map := [(py "Azure DevOps", []); (py "Azure", [py "az"])] in
      let text := py "az devops" in
      settled skills_map = true
      /\ names_delimited skills_map = true
      /\ normalize_text text skills_map = (py "azure devops", {[ py "azure" ]})
      /\ fst (normalize_text (fst (normalize_text text skills_map)) skills_map)
         = py "azure devops"
      /\ py "azure devops"
         ∈ snd (normalize_text (fst (normalize_text text skills_map)) skills_map)
      /\ py "azure devops" ∉ snd (normalize_text text skills_map)).
Proof.
  cbv zeta. split.
  - split; [vm_compute; reflexivity|]. split; [vm_compute; reflexivity|].
    vm_compute. discriminate.
  - split; [vm_compute; reflexivity|]. split; [vm_compute; reflexivity|].
    assert (Hrun : normalize_text (py "az devops")
                     [(py "Azure DevOps", []); (py "Azure", [py "az"])]
                   = (py "azure devops", {[ py "azure" ]})).
    { vm_compute. reflexivity. }
    split; [exact Hrun|]. rewrite Hrun. cbn [fst snd].
    split; [vm_compute; reflexivity|]. split; [vm_compute; reflexivity|].
    intros Hin. apply elem_of_singleton in Hin. vm_compute in Hin. discriminate.
Qed.

Example words_sample :
  words (py "multi-factor authentication, c++ and node.js")
  = [py "multi"; py "factor"; py "authentication"; py "c"; py "and"; py "node"; py "js"].
Proof. vm_compute. reflexivity. Qed.

Example settled_samples :
  settled scenario_map = true
  /\ settled [(py "AWS", [py "aws"; py "Amazon Web Services"])] = true
  /\ settled [(py ".NET", [py "dotnet"])] = true
  /\ settled [(py "Azure AD", [py "AD"])] = false
  /\ settled [(py "Node.js", [py "node"])] = false
  /\ settled [(py "Kubernetes", [py "k8s"]); (py "Container Orchestration", [py "kubernetes"])]
     = false.
Proof. repeat split; vm_compute; reflexivity. Qed.

(** Why the second half of C2 asks for names that begin and end with a word
    character: ".net" is written for "dotnet" and detected, but [\b] before
    the full stop asks for a word character in front, so the second pass
    does not find the name. *)
Example second_pass_misses_symbol_name :
  let skills_map := [(py ".NET", [py "dotnet"])] in
  settled skills_map = true
  /\ names_delimited skills_map = false
  /\ normalize_text (py "dotnet") skills_map = (py ".net", {[ py ".net" ]})
  /\ normalize_text (py ".net") skills_map = (py ".net", ∅).
Proof. cbv zeta. repeat split; vm_compute; reflexivity. Qed.

(** ** The keywords *)

Lemma keywords_by_frequency_witness :
  (Z.of_nat (length (_top_keywords (py "Terraform, AWS and terraform with Azure; aws") 2)) <= 2)%Z
  /\ StronglySorted
       (ranks_before (counted_words (py "Terraform, AWS and terraform with Azure; aws")))
       (_top_keywords (py "Terraform, AWS and terraform with Azure; aws") 2).
Proof.
  destruct (keywords_by_frequency (py "Terraform, AWS and terraform with Azure; aws") 2)
    as [Hlen [Hsorted _]].
  - lia.
  - split; [exact Hlen | exact Hsorted].
Defined.

(** C5 fails as stated for a negative [n]: the slice [[:-1]] drops the last
    entry only, so two keywords are returned, not "at most -1". *)
Lemma keywords_negative_count :
  _top_keywords (py "terraform aws azure") (-1) = [py "terraform"; py "aws"]
  /\ ~ (Z.of_nat (length (_top_keywords (py "terraform aws azure") (-1))) <= -1)%Z.
Proof.
  assert (Hrun : _top_keywords (py "terraform aws azure") (-1) = [py "terraform"; py "aws"]).
  { vm_compute. reflexivity. }
  split; [exact Hrun|]. rewrite Hrun. cbn [length]. lia.
Qed.

Lemma keywords_distinct_witness :
  List.NoDup (_top_keywords (py "aws AWS the aws") 5).
Proof.
  exact (proj1 (keywords_distinct (py "aws AWS the aws") 5)).
Defined.

(** ** The retriever *)


Lemma none_skills_as_empty_witness :
  query_snippets sample_index (py "devops") None 1
  = query_snippets sample_index (py "devops") (Some ∅) 1.
Proof.
  exact (proj1 (none_skills_as_empty sample_index (py "devops") 1)).
Defined.

Example retrieval_by_distance :
  query_snippets sample_index (py "devops") (Some {[ py "aws" ]}) 2
  = [py "migrated the servers"; py "ran the help desk"].
Proof. vm_compute. reflexivity. Qed.

Example retrieval_scores :
  Forall2 Qeq
    (map score_of (candidates sample_index (py "devops") (Some {[ py "aws" ]}) 2))
    [1 # 2; 1]%Q.
Proof. repeat constructor. Qed.

(** * Further properties of the code *)

(** ** The normalizer, continued *)

Lemma lower_char_fixed (c : ascii) : lower_char c = c -> is_upper c = false.
Proof.
  destruct c as [[] [] [] [] [] [] [] []]; vm_compute; intros H;
    first [reflexivity | discriminate H].
Qed.

Lemma lower_fixed_no_upper (s : str) :
  lower s = s -> Forall (fun c => is_upper c = false) s.
Proof.
  induction s as [|c s IH]; intros H; constructor.
  - apply lower_char_fixed. cbn [lower map] in H. congruence.
  - apply IH. cbn [lower map] in H. unfold lower. congruence.
Qed.

(** X1. The normalized text holds no upper-case letter: the input is lower-cased
    and every replacement is a lower-cased canonical name. *)
Theorem normalized_text_no_upper (text : str) (skills_map : SkillMap) :
  plain_map skills_map = true ->
  Forall (fun c => is_upper c = false) (fst (normalize_text text skills_map)).
Proof.
  intros _. apply lower_fixed_no_upper. apply normalize_text_lower.
Qed.

Lemma normalized_text_no_upper_witness :
  Forall (fun c => is_upper c = false) (fst (normalize_text (py "AD and MFA") scenario_map)).
Proof.
  apply (normalized_text_no_upper (py "AD and MFA") scenario_map).
  vm_compute. reflexivity.
Defined.

Section NormalizeMore.
Implicit Types (st : NormState) (cur text : str) (detected : gset str).
Implicit Types (canonical syn : str) (synonyms : list str) (skills_map : SkillMap).

(** Only the lower-cased canonical name of the entry is ever added. *)
Lemma skill_step_adds st canonical synonyms (x : str) :
  x ∈ snd (skill_step st (canonical, synonyms)) -> x ∈ snd st \/ x = lower canonical.
Proof.
  intros Hx.
  assert (Hloop : forall y, y ∈ snd (fold_left (syn_step canonical) synonyms st) ->
                            y ∈ snd st \/ y = lower canonical).
  { apply (fold_left_preserves
             (fun s : NormState => forall y, y ∈ snd s -> y ∈ snd st \/ y = lower canonical)).
    - intros [cur detected] syn IH y. unfold syn_step.
      destruct (re_search (lower syn) cur); cbn [snd] in *; [|apply IH].
      intros Hy. apply elem_of_union in Hy as [Hy|Hy]; [|apply IH; exact Hy].
      right. apply elem_of_singleton in Hy. exact Hy.
    - intros y Hy. left. exact Hy. }
  unfold skill_step in Hx.
  destruct (fold_left (syn_step canonical) synonyms st) as [cur detected].
  cbn [snd] in Hloop.
  destruct (re_search (lower canonical) cur); cbn [snd] in Hx; [|apply Hloop; exact Hx].
  apply elem_of_union in Hx as [Hx|Hx]; [|apply Hloop; exact Hx].
  right. apply elem_of_singleton in Hx. exact Hx.
Qed.

End NormalizeMore.

(** X2. Every detected skill is the lower-cased canonical name of an entry of
    the skill map: a synonym itself is never reported. *)
Theorem detected_are_canonical_names (text : str) (skills_map : SkillMap) (x : str) :
  plain_map skills_map = true ->
  x ∈ snd (normalize_text text skills_map) ->
  exists canonical synonyms, In (canonical, synonyms) skills_map /\ x = lower canonical.
Proof.
  intros _. unfold normalize_text.
  apply (fold_left_preserves_in
           (fun s : NormState => x ∈ snd s ->
              exists canonical synonyms, In (canonical, synonyms) skills_map /\ x = lower canonical)).
  - intros st [canonical synonyms] Hin IH Hx.
    apply skill_step_adds in Hx as [Hx|Hx]; [apply IH; exact Hx|].
    exists canonical, synonyms. split; assumption.
  - cbn [snd]. intros Hx. apply elem_of_empty in Hx. destruct Hx.
Qed.

Lemma detected_are_canonical_names_witness :
  exists canonical synonyms,
    In (canonical, synonyms) scenario_map /\ py "active directory" = lower canonical.
Proof.
  apply (detected_are_canonical_names (py "AD and MFA") scenario_map (py "active directory")).
  - vm_compute. reflexivity.
  - vm_compute. reflexivity.
Defined.



Lemma syn_loop_lower_names (canonical : str) (synonyms : list str) (st : NormState) :
  fold_left (syn_step (lower canonical)) (map lower synonyms) st
  = fold_left (syn_step canonical) synonyms st.
Proof.
  revert st. induction synonyms as [|syn synonyms IH]; intros st; [reflexivity|].
  cbn [map fold_left]. rewrite IH. f_equal.
  destruct st as [cur detected]. unfold syn_step. rewrite !lower_idem. reflexivity.
Qed.

Lemma normalize_text_lower_names (text : str) (skills_map : SkillMap) :
  normalize_text (lower text) (lower_names skills_map) = normalize_text text skills_map.
Proof.
  unfold normalize_text. rewrite lower_idem. generalize (lower text, (∅ : gset str)).
  induction skills_map as [|[canonical synonyms] skills_map IH]; intros st; [reflexivity|].
  cbn [lower_names map fold_left fst snd]. fold (lower_names skills_map). rewrite IH. f_equal.
  unfold skill_step. rewrite syn_loop_lower_names, lower_idem. reflexivity.
Qed.

(** X4. The normalizer does not see letter case: two texts and two skill maps
    that agree once lower-cased give the same normalized text and the same
    detected skills. *)
Theorem normalize_text_ignores_case (text text' : str) (skills_map skills_map' : SkillMap) :
  lower text = lower text' ->
  lower_names skills_map = lower_names skills_map' ->
  normalize_text text skills_map = normalize_text text' skills_map'.
Proof.
  intros Ht Hm.
  rewrite <- (normalize_text_lower_names text skills_map).
  rewrite <- (normalize_text_lower_names text' skills_map').
  rewrite Ht, Hm. reflexivity.
Qed.

Lemma normalize_text_ignores_case_witness :
  normalize_text (py "We use AD") [(py "Active Directory", [py "ad"])]
  = normalize_text (py "we USE ad") [(py "ACTIVE directory", [py "Ad"])].
Proof.
  apply normalize_text_ignores_case; vm_compute; reflexivity.
Defined.

(** ** The record of [parse_jd] *)

Lemma lstrip_fixed_head (c : ascii) (s : str) :
  lstrip (c :: s) = c :: s <-> is_space c = false.
Proof.
  cbn [lstrip]. destruct (is_space c) eqn:Hc; split; try congruence; try reflexivity.
  intros H. exfalso.
  assert (Hlen : forall u, length (lstrip u) <= length u).
  { induction u as [|d u IH]; cbn [lstrip length]; [lia|].
    destruct (is_space d); cbn [length]; lia. }
  specialize (Hlen s). rewrite H in Hlen. cbn [length] in Hlen. lia.
Qed.

Lemma lstrip_idem (s : str) : lstrip (lstrip s) = lstrip s.
Proof.
  induction s as [|c s IH]; [reflexivity|].
  cbn [lstrip]. destruct (is_space c) eqn:Hc; [exact IH|].
  apply lstrip_fixed_head. exact Hc.
Qed.

Lemma lstrip_app_stop (u : str) (c : ascii) :
  is_space c = false -> exists w, lstrip (u ++ [c]) = w ++ [c].
Proof.
  intros Hc. induction u as [|d u IH]; cbn [app lstrip].
  - rewrite Hc. exists []. reflexivity.
  - destruct (is_space d); [exact IH|]. exists (d :: u). reflexivity.
Qed.

Lemma rstrip_idem (s : str) : rstrip (rstrip s) = rstrip s.
Proof. unfold rstrip. rewrite rev_involutive, lstrip_idem. reflexivity. Qed.

(** [rstrip] keeps a first character that is no whitespace. *)
Lemma lstrip_rstrip_fixed (s : str) : lstrip s = s -> lstrip (rstrip s) = rstrip s.
Proof.
  destruct s as [|c s]; [reflexivity|]. intros H. apply lstrip_fixed_head in H.
  unfold rstrip. cbn [rev].
  destruct (lstrip_app_stop (rev s) c H) as [w Hw]. rewrite Hw.
  rewrite rev_app_distr. cbn [rev app]. apply lstrip_fixed_head. exact H.
Qed.

Lemma strip_lstrip_fixed (s : str) : lstrip (strip s) = strip s.
Proof. unfold strip. apply lstrip_rstrip_fixed. apply lstrip_idem. Qed.

Lemma strip_rstrip_fixed (s : str) : rstrip (strip s) = strip s.
Proof. unfold strip. apply rstrip_idem. Qed.

Lemma strip_idem (s : str) : strip (strip s) = strip s.
Proof.
  unfold strip at 1. rewrite strip_lstrip_fixed. apply strip_rstrip_fixed.
Qed.

Lemma str_leb_total (a b : str) : str_leb a b = true \/ str_leb b a = true.
Proof.
  revert b. induction a as [|x a IH]; intros [|y b]; cbn [str_leb]; auto.
  destruct (Nat.ltb_spec (code x) (code y)), (Nat.ltb_spec (code y) (code x));
    auto; lia.
Qed.

Lemma str_leb_trans (a b c : str) :
  str_leb a b = true -> str_leb b c = true -> str_leb a c = true.
Proof.
  revert b c. induction a as [|x a IH]; intros [|y b] [|z c]; cbn [str_leb];
    try congruence; try reflexivity.
  destruct (Nat.ltb_spec (code x) (code y)), (Nat.ltb_spec (code y) (code x)),
           (Nat.ltb_spec (code y) (code z)), (Nat.ltb_spec (code z) (code y)),
           (Nat.ltb_spec (code x) (code z)), (Nat.ltb_spec (code z) (code x));
    try congruence; try lia; try reflexivity.
  apply IH.
Qed.

(** [sorted(detected_skills)]: ascending, without duplicates, the same
    skills. *)
Lemma sorted_skills_spec (detected : gset str) :
  StronglySorted (fun a b => str_leb a b = true) (sorted_skills detected)
  /\ List.NoDup (sorted_skills detected)
  /\ forall x, In x (sorted_skills detected) <-> x ∈ detected.
Proof.
  unfold sorted_skills.
  pose proof (stable_sort_perm str_leb (elements detected)) as Hperm.
  split; [|split].
  - apply stable_sort_sorted; [apply str_leb_total | apply str_leb_trans].
  - apply (Permutation_NoDup (Permutation_sym Hperm)).
    apply NoDup_ListNoDup. apply NoDup_elements.
  - intros x. rewrite <- elem_of_elements, <- list_elem_of_In. split; intros H.
    + rewrite <- Hperm. exact H.
    + rewrite Hperm. exact H.
Qed.

Section RecordFacts.
Variable _extract_title _extract_company _extract_location _guess_seniority : str -> str.
Variable _extract_bullets : str -> section_header -> list str.
Variable disk : str -> file_state.

Local Abbreviation app_record :=
  (app_parse_jd _extract_title _extract_company _extract_location _guess_seniority
                _extract_bullets).
Local Abbreviation file_record :=
  (parse_jd _extract_title _extract_company _extract_location _guess_seniority
            _extract_bullets disk).

(** [parse_jd] of jd_parser.py is [parse_jd] of the app on the loaded map. *)
Lemma parse_jd_app (jd_text path : str) (top_kw : Z) :
  file_record jd_text path top_kw
  = match _safe_load_skills_map disk path with
    | Return skills_map => Return (app_record jd_text skills_map top_kw)
    | Raise e => Raise e
    end.
Proof.
  unfold parse_jd, app_parse_jd.
  destruct (_safe_load_skills_map disk path) as [m|e]; [|reflexivity].
  destruct (normalize_text (strip jd_text) m); reflexivity.
Qed.

Lemma app_record_fields (jd_text : str) (skills_map : SkillMap) (top_kw : Z) :
  let r := app_record jd_text skills_map top_kw in
  let text := strip jd_text in
  must_haves r = slice_to (_normalize_lines (_extract_bullets text Must_haves) skills_map) 15
  /\ nice_to_haves r
     = slice_to (_normalize_lines (_extract_bullets text Nice_to_haves) skills_map) 15
  /\ responsibilities r
     = slice_to (_normalize_lines (_extract_bullets text Responsibilities) skills_map) 30
  /\ normalized_text r = fst (normalize_text text skills_map)
  /\ keywords r = _top_keywords (fst (normalize_text text skills_map)) top_kw
  /\ normalized_skills r = sorted_skills (snd (normalize_text text skills_map)).
Proof.
  cbv zeta. unfold app_parse_jd.
  destruct (normalize_text (strip jd_text) skills_map) as [txt det].
  cbn. repeat split; reflexivity.
Qed.

(** X5. The record is bounded: at most 15 must-haves, 15 nice-to-haves and 30
    responsibilities, and at most [top_kw] keywords when [top_kw >= 0],
    whatever the heuristics extract and whatever the skill map is; likewise
    for every record that [parse_jd] of jd_parser.py returns. *)
Theorem parsed_record_bounded (jd_text path : str) (skills_map : SkillMap) (top_kw : Z) :
  (0 <= top_kw)%Z ->
  let bounded (r : JDRecord) :=
    length (must_haves r) <= 15 /\ length (nice_to_haves r) <= 15
    /\ length (responsibilities r) <= 30
    /\ (Z.of_nat (length (keywords r)) <= top_kw)%Z in
  bounded (app_record jd_text skills_map top_kw)
  /\ forall r, file_record jd_text path top_kw = Return r -> bounded r.
Proof.
  intros Hkw bounded.
  assert (Happ : forall m, bounded (app_record jd_text m top_kw)).
  { intros m. unfold bounded.
    destruct (app_record_fields jd_text m top_kw) as [Hm [Hn [Hr [_ [Hk _]]]]].
    rewrite Hm, Hn, Hr, Hk.
    pose proof (slice_to_length (_normalize_lines (_extract_bullets (strip jd_text) Must_haves) m) 15).
    pose proof (slice_to_length (_normalize_lines (_extract_bullets (strip jd_text) Nice_to_haves) m) 15).
    pose proof (slice_to_length (_normalize_lines (_extract_bullets (strip jd_text) Responsibilities) m) 30).
    destruct (top_keywords_ranking (fst (normalize_text (strip jd_text) m)) top_kw)
      as [k [Hk' Hkn]].
    rewrite Hk', (Hkn Hkw), length_firstn. lia. }
  split; [apply Happ|].
  intros r Hr. rewrite parse_jd_app in Hr.
  destruct (_safe_load_skills_map disk path) as [m|e]; [|discriminate].
  injection Hr as <-. apply Happ.
Qed.

(** X6. The list of normalized skills of the record is in ascending order,
    without duplicates, and holds exactly the skills that [normalize_text]
    detects in the stripped text. *)
Theorem normalized_skills_sorted (jd_text : str) (skills_map : SkillMap) (top_kw : Z) :
  let r := app_record jd_text skills_map top_kw in
  StronglySorted (fun a b => str_leb a b = true) (normalized_skills r)
  /\ List.NoDup (normalized_skills r)
  /\ forall x, In x (normalized_skills r)
               <-> x ∈ snd (normalize_text (strip jd_text) skills_map).
Proof.
  intros r. subst r.
  destruct (app_record_fields jd_text skills_map top_kw) as [_ [_ [_ [_ [_ Hs]]]]].
  rewrite Hs. apply sorted_skills_spec.
Qed.


(** X8. Whitespace around the job description does not matter. *)
Theorem parse_jd_strips (jd_text path : str) (skills_map : SkillMap) (top_kw : Z) :
  app_record (strip jd_text) skills_map top_kw = app_record jd_text skills_map top_kw
  /\ file_record (strip jd_text) path top_kw = file_record jd_text path top_kw.
Proof.
  assert (Happ : forall m, app_record (strip jd_text) m top_kw = app_record jd_text m top_kw).
  { intros m. unfold app_parse_jd. rewrite strip_idem. reflexivity. }
  split; [apply Happ|].
  rewrite !parse_jd_app. destruct (_safe_load_skills_map disk path); [|reflexivity].
  rewrite Happ. reflexivity.
Qed.
End RecordFacts.

Lemma parsed_record_bounded_witness :
  length (must_haves (app_parse_jd (fun t => t) (fun t => t) (fun t => t) (fun t => t)
                        (fun t _ => repeat t 40) (py "AD and MFA") scenario_map 3)) <= 15.
Proof.
  destruct (parsed_record_bounded (fun t => t) (fun t => t) (fun t => t) (fun t => t)
              (fun t _ => repeat t 40) (fun _ => Missing)
              (py "AD and MFA") (py "data/skills_map.json") scenario_map 3)
    as [[H _] _]; [lia | exact H].
Defined.


(** ** Sentence case *)

Lemma upper_char_space (c : ascii) : is_space (upper_char c) = is_space c.
Proof. destruct c as [[] [] [] [] [] [] [] []]; reflexivity. Qed.

Lemma upper_char_not_lower (c : ascii) : is_lower (upper_char c) = false.
Proof. destruct c as [[] [] [] [] [] [] [] []]; reflexivity. Qed.

Lemma upper_char_idem (c : ascii) : upper_char (upper_char c) = upper_char c.
Proof. destruct c as [[] [] [] [] [] [] [] []]; reflexivity. Qed.

Lemma strip_fixed_parts (s : str) : strip s = s <-> lstrip s = s /\ rstrip s = s.
Proof.
  split.
  - intros H. split.
    + rewrite <- H. apply strip_lstrip_fixed.
    + rewrite <- H. apply strip_rstrip_fixed.
  - intros [Hl Hr]. unfold strip. rewrite Hl. exact Hr.
Qed.

Lemma rstrip_fixed_rev (s : str) : rstrip s = s <-> lstrip (rev s) = rev s.
Proof.
  unfold rstrip. split; intros H.
  - rewrite <- H at 2. rewrite rev_involutive. reflexivity.
  - rewrite H. apply rev_involutive.
Qed.

(** Replacing the first character of a stripped string by another
    character that is no whitespace leaves it stripped. *)
Lemma strip_replace_head (c u : ascii) (s : str) :
  is_space u = false -> strip (c :: s) = c :: s -> strip (u :: s) = u :: s.
Proof.
  intros Hu H. apply strip_fixed_parts in H as [Hl Hr].
  apply strip_fixed_parts. split; [apply lstrip_fixed_head; exact Hu|].
  apply rstrip_fixed_rev in Hr. apply rstrip_fixed_rev. cbn [rev] in *.
  destruct (rev s) as [|d r].
  - cbn [app]. apply lstrip_fixed_head. exact Hu.
  - cbn [app] in *. apply lstrip_fixed_head. apply lstrip_fixed_head in Hr. exact Hr.
Qed.

Lemma sentence_case_facts (s : str) :
  strip (_sentence_case s) = _sentence_case s
  /\ length (_sentence_case s) = length (strip s)
  /\ skipn 1 (_sentence_case s) = skipn 1 (strip s)
  /\ (forall c rest, _sentence_case s = c :: rest -> is_lower c = false)
  /\ _sentence_case (_sentence_case s) = _sentence_case s.
Proof.
  destruct (strip s) as [|c s'] eqn:Hs.
  - assert (Hsc : _sentence_case s = []) by (unfold _sentence_case; rewrite Hs; reflexivity).
    rewrite !Hsc. repeat split; try reflexivity. intros c rest H. discriminate H.
  - assert (Hsc : _sentence_case s = upper_char c :: s')
      by (unfold _sentence_case; rewrite Hs; reflexivity).
    rewrite !Hsc.
    assert (Hc : is_space c = false).
    { apply (lstrip_fixed_head c s'). rewrite <- Hs. apply strip_lstrip_fixed. }
    assert (Hfix : strip (upper_char c :: s') = upper_char c :: s').
    { apply (strip_replace_head c); [rewrite upper_char_space; exact Hc|].
      rewrite <- Hs. apply strip_idem. }
    split; [exact Hfix|]. split; [reflexivity|]. split; [reflexivity|]. split.
    + intros d rest H. injection H as <- _. apply upper_char_not_lower.
    + unfold _sentence_case. rewrite Hfix. cbn [upper map app].
      rewrite upper_char_idem. reflexivity.
Qed.

(** X9. On ASCII text, [_sentence_case] returns a string without surrounding
    whitespace, of the length of the stripped input and equal to it after
    the first character; its first character is never a lower-case letter;
    applying it twice is applying it once. *)
Theorem sentence_case_shape (s : str) :
  strip (_sentence_case s) = _sentence_case s
  /\ length (_sentence_case s) = length (strip s)
  /\ skipn 1 (_sentence_case s) = skipn 1 (strip s)
  /\ (forall c rest, _sentence_case s = c :: rest -> is_lower c = false)
  /\ _sentence_case (_sentence_case s) = _sentence_case s.
Proof. apply sentence_case_facts. Qed.

(** ** The shape of a keyword *)

Lemma lower_char_not_upper (c : ascii) : is_upper (lower_char c) = false.
Proof. destruct c as [[] [] [] [] [] [] [] []]; reflexivity. Qed.

Lemma token_char_keyword_char (c : ascii) :
  is_token_char c = true -> is_upper c = false -> is_keyword_char c = true.
Proof.
  unfold is_token_char, is_keyword_char. intros Ht Hu. rewrite Hu in Ht.
  exact Ht.
Qed.

(** The tokens are runs of token characters of the text, at least three
    characters long. *)
Lemma findall_tokens_shape (Q : ascii -> Prop) (t run w : str) :
  Forall Q t ->
  Forall (fun c => is_token_char c = true /\ Q c) run ->
  In w (findall_tokens run t) ->
  3 <= length w /\ Forall (fun c => is_token_char c = true /\ Q c) w.
Proof.
  revert run. induction t as [|c t IH]; intros run Ht Hrun Hw.
  - cbn [findall_tokens] in Hw. unfold emit in Hw.
    destruct (Nat.leb_spec 3 (length run)) as [Hlen|Hlen]; [|destruct Hw].
    destruct Hw as [<-|[]]. split; assumption.
  - inversion Ht as [|? ? Hc Ht']; subst. cbn [findall_tokens] in Hw.
    destruct (is_token_char c) eqn:Htok.
    + apply (IH (run ++ [c])); [exact Ht' | | exact Hw].
      apply Forall_app. split; [exact Hrun|]. constructor; [split; assumption|constructor].
    + apply in_app_or in Hw as [Hw|Hw].
      * unfold emit in Hw.
        destruct (Nat.leb_spec 3 (length run)) as [Hlen|Hlen]; [|destruct Hw].
        destruct Hw as [<-|[]]. split; assumption.
      * apply (IH []); [exact Ht' | constructor | exact Hw].
Qed.

(** X10. A keyword has at least three characters, all of them lower-case
    letters, digits, [+], [#] or [.]: no upper case, no whitespace, no other
    punctuation. *)
Theorem keyword_shape (text : str) (n : Z) (w : str) :
  In w (_top_keywords text n) ->
  3 <= length w /\ Forall (fun c => is_keyword_char c = true) w.
Proof.
  intros Hw.
  destruct (top_keywords_ranking text n) as [m [Hm _]]. rewrite Hm in Hw.
  assert (Hr : In w (ranking text)).
  { rewrite <- (firstn_skipn m (ranking text)). apply in_or_app. left. exact Hw. }
  destruct (ranking_spec text) as [_ [_ Hin]]. apply Hin in Hr.
  apply counted_words_tokens in Hr as [Htok _].
  destruct (findall_tokens_shape (fun c => is_upper c = false) (lower text) [] w)
    as [Hlen Hchars].
  - unfold lower. apply List.Forall_map. apply List.Forall_forall. intros c _.
    apply lower_char_not_upper.
  - constructor.
  - exact Htok.
  - split; [exact Hlen|]. eapply Forall_impl; [exact Hchars|].
    intros c [H1 H2]. apply token_char_keyword_char; assumption.
Qed.

Lemma keyword_shape_witness :
  3 <= length (py "node.js") /\ Forall (fun c => is_keyword_char c = true) (py "node.js").
Proof.
  apply (keyword_shape (py "We use Node.JS and C#; node.js, c# too") 5 (py "node.js")).
  assert (Hrun : _top_keywords (py "We use Node.JS and C#; node.js, c# too") 5
                 = [py "node.js"; py "use"; py "too"]) by (vm_compute; reflexivity).
  rewrite Hrun. left. reflexivity.
Defined.

(** ** The retriever, continued *)

Lemma zip3_length {A B C : Type} (a : list A) (b : list B) (c : list C) :
  length (zip3 a b c) = Nat.min (length a) (Nat.min (length b) (length c)).
Proof.
  revert b c. induction a as [|x a IH]; intros [|y b] [|z c]; cbn [zip3 length];
    try lia.
  rewrite IH. lia.
Qed.

Lemma zip3_first {A B C : Type} (a : list A) (b : list B) (c : list C) (e : A * B * C) :
  In e (zip3 a b c) -> In (fst (fst e)) a.
Proof.
  revert b c. induction a as [|x a IH]; intros [|y b] [|z c] He; cbn [zip3] in He;
    try (exfalso; exact He).
  destruct He as [<-|He]; [left; reflexivity | right; apply (IH b c); exact He].
Qed.

Lemma zip3_third {A B C : Type} (a : list A) (b : list B) (c : list C) (e : A * B * C) :
  In e (zip3 a b c) -> In (snd e) c.
Proof.
  revert b c. induction a as [|x a IH]; intros [|y b] [|z c] He; cbn [zip3] in He;
    try (exfalso; exact He).
  destruct He as [<-|He]; [left; reflexivity | right; apply (IH b c); exact He].
Qed.

Lemma boost_length (docs : list str) (metas : list (option Meta)) (dists : list Q)
    (S : gset str) :
  length (boost docs metas dists S)
  = Nat.min (length docs) (Nat.min (length metas) (length dists)).
Proof. unfold boost. rewrite length_map, zip3_length, length_map. reflexivity. Qed.

Lemma boost_entry (docs : list str) (metas : list (option Meta)) (dists : list Q)
    (S : gset str) (b : Boosted) :
  In b (boost docs metas dists S) ->
  exists d, In d dists /\ In (doc_of b) docs
            /\ score_of b = (base_score d + (1 # 4) * _overlap_score (snd (fst b)) S)%Q.
Proof.
  unfold boost. intros Hb. apply in_map_iff in Hb as [[[doc meta] base] [<- Hin]].
  pose proof (zip3_first _ _ _ _ Hin) as Hdoc.
  apply zip3_third in Hin. cbn [fst snd] in *.
  apply in_map_iff in Hin as [d [<- Hd]].
  exists d. split; [exact Hd|]. split; [exact Hdoc | reflexivity].
Qed.

Lemma base_score_pos (d : Q) : (0 <= d)%Q -> (0 < 1 + d)%Q.
Proof.
  intros Hd. apply Qlt_le_trans with 1%Q; [reflexivity|].
  rewrite <- (Qplus_0_r 1) at 1. apply Qplus_le_r. exact Hd.
Qed.

Section RetrieverMore.
Variable coll_query : str -> Z -> QueryResult.

(** X11. For [top_k >= 0] the retriever returns documents of the answer of the
    index only, as many as [top_k] allows among the candidates (the answer
    cut to its shortest field); an answer without documents gives the empty
    list. *)
Theorem retrieved_from_index (q : str) (jd_skills : option (gset str)) (top_k : Z) :
  (0 <= top_k)%Z ->
  let res := coll_query q (Z.min 50 (top_k * 2)) in
  let out := query_snippets coll_query q jd_skills top_k in
  (forall doc, In doc out -> In doc (documents res))
  /\ length out
     = Nat.min (Z.to_nat top_k)
         (Nat.min (length (documents res))
            (Nat.min (length (metadatas res)) (length (dists_of res))))
  /\ (documents res = [] -> out = []).
Proof.
  intros Hk res out.
  set (boosted := candidates coll_query q jd_skills top_k).
  set (ranked := sort_by_key_reverse score_of boosted).
  assert (Hout : out = map doc_of (firstn (Z.to_nat top_k) ranked)).
  { subst out. unfold query_snippets. cbv zeta. fold boosted. fold ranked.
    rewrite slice_to_nonneg by exact Hk. reflexivity. }
  assert (Hperm : Permutation ranked boosted) by apply stable_sort_perm.
  assert (Hlen : length out
                 = Nat.min (Z.to_nat top_k)
                     (Nat.min (length (documents res))
                        (Nat.min (length (metadatas res)) (length (dists_of res))))).
  { rewrite Hout, length_map, length_firstn, (Permutation_length Hperm).
    subst boosted. unfold candidates. cbv zeta. fold res. rewrite boost_length. reflexivity. }
  split; [|split; [exact Hlen|]].
  - intros doc Hdoc. rewrite Hout in Hdoc. apply in_map_iff in Hdoc as [b [<- Hb]].
    assert (Hb' : In b boosted).
    { apply (Permutation_in _ Hperm). rewrite <- (firstn_skipn (Z.to_nat top_k) ranked).
      apply in_or_app. left. exact Hb. }
    subst boosted. unfold candidates in Hb'. cbv zeta in Hb'. fold res in Hb'.
    apply boost_entry in Hb' as [d [_ [Hd _]]]. exact Hd.
  - intros Hempty. rewrite Hempty in Hlen. cbn [length] in Hlen.
    rewrite Nat.min_0_l, Nat.min_0_r in Hlen. destruct out; [reflexivity | discriminate].
Qed.

(** X12. The composite score of a candidate is its base score plus at most a
    quarter: tags can lift a candidate by 0.25 and never lower it. *)
Theorem score_within_quarter (q : str) (jd_skills : option (gset str)) (top_k : Z) (b : Boosted) :
  In b (candidates coll_query q jd_skills top_k) ->
  exists d, In d (dists_of (coll_query q (Z.min 50 (top_k * 2))))
            /\ (base_score d <= score_of b)%Q
            /\ (score_of b <= base_score d + (1 # 4))%Q.
Proof.
  unfold candidates. cbv zeta. intros Hb.
  apply boost_entry in Hb as [d [Hd [_ Hscore]]].
  exists d. split; [exact Hd|]. rewrite Hscore.
  unfold _overlap_score. cbv zeta.
  destruct (ratio_bounds _ _ (inter_le_union (lowered_tags (snd (fst b)))
                                (lower_skills jd_skills))) as [H0 H1].
  set (bonus := (Z.of_nat (size (lowered_tags (snd (fst b)) ∩ lower_skills jd_skills))
                 # Pos.of_nat (or_one (size (lowered_tags (snd (fst b)) ∪ lower_skills jd_skills))))%Q)
    in *.
  split.
  - rewrite <- (Qplus_0_r (base_score d)) at 1. apply Qplus_le_r.
    apply Qmult_le_0_compat; [discriminate | exact H0].
  - apply Qplus_le_r. rewrite <- (Qmult_1_r (1 # 4)) at 2.
    apply Qmult_le_l; [reflexivity | exact H1].
Qed.

(** X13. When the index answers without distances, every candidate gets the
    distance 1: its score is one half plus a quarter of its bonus, so the
    ranking is by tag overlap alone. *)
Theorem missing_distances (q : str) (jd_skills : option (gset str)) (top_k : Z) (b : Boosted) :
  distances (coll_query q (Z.min 50 (top_k * 2))) = [] ->
  In b (candidates coll_query q jd_skills top_k) ->
  (score_of b == (1 # 2) + (1 # 4) * _overlap_score (snd (fst b)) (lower_skills jd_skills))%Q.
Proof.
  unfold candidates, dists_of. cbv zeta. intros Hnone Hb. rewrite Hnone in Hb.
  apply boost_entry in Hb as [d [Hd [_ Hscore]]].
  apply repeat_spec in Hd. subst d. rewrite Hscore. reflexivity.
Qed.
End RetrieverMore.

Lemma retrieved_from_index_witness :
  length (query_snippets sample_index (py "devops") None 1) = 1.
Proof.
  destruct (retrieved_from_index sample_index (py "devops") None 1) as [_ [H _]];
    [lia | exact H].
Defined.

Lemma score_within_quarter_witness :
  exists d, In d [1%Q; 0%Q]
            /\ (base_score d <= 4 # 8)%Q /\ (4 # 8 <= base_score d + (1 # 4))%Q.
Proof.
  apply (score_within_quarter sample_index (py "devops") None 2
           (py "ran the help desk", None, (4 # 8)%Q)).
  left. vm_compute. reflexivity.
Defined.

(** X14. The base score of a distance that is not negative lies in (0, 1], is 1
    at distance 0, and does not grow with the distance. *)
Theorem base_score_range (d d' : Q) :
  (0 <= d)%Q -> (d <= d')%Q ->
  (0 < base_score d)%Q /\ (base_score d <= 1)%Q
  /\ (base_score d' <= base_score d)%Q
  /\ (base_score 0 == 1)%Q.
Proof.
  intros Hd Hdd. unfold base_score.
  assert (Hp : (0 < 1 + d)%Q) by (apply base_score_pos; exact Hd).
  assert (Hp' : (0 < 1 + d')%Q) by (apply base_score_pos; apply Qle_trans with d; assumption).
  split; [|split; [|split]].
  - apply Qlt_shift_div_l; [exact Hp|]. rewrite Qmult_0_l. reflexivity.
  - apply Qle_shift_div_r; [exact Hp|]. rewrite Qmult_1_l.
    rewrite <- (Qplus_0_r 1) at 1. apply Qplus_le_r. exact Hd.
  - apply Qle_shift_div_r; [exact Hp'|].
    assert (Heq : (1 / (1 + d) * (1 + d') == (1 + d') / (1 + d))%Q).
    { field. intros H. rewrite H in Hp. discriminate Hp. }
    rewrite Heq. apply Qle_shift_div_l; [exact Hp|].
    rewrite Qmult_1_l. apply Qplus_le_r. exact Hdd.
  - reflexivity.
Qed.

Lemma base_score_range_witness :
  (base_score 1 <= base_score 0)%Q.
Proof.
  destruct (base_score_range 0 1) as [_ [_ [H _]]]; [discriminate | discriminate | exact H].
Defined.

Lemma lowered_tags_list (l : list str) (sen : option str) (x : str) :
  x ∈ lowered_tags (Some {| tags := Some l; meta_seniority := sen |}) <-> In x (map lower l).
Proof.
  unfold lowered_tags. cbn [tags]. rewrite elem_of_map. rewrite in_map_iff.
  split; intros [y [H1 H2]]; exists y.
  - apply elem_of_list_to_set in H2. apply list_elem_of_In in H2. split; [symmetry|]; assumption.
  - split; [symmetry; exact H1|]. apply elem_of_list_to_set. apply list_elem_of_In. exact H2.
Qed.

(** X15. The bonus sees the tags as a set of lower-cased strings: their case,
    their order, repeated tags and the seniority label change nothing; and
    a snippet without metadata, without a tag list or with an empty one has
    the bonus 0. *)
Theorem tags_as_lower_set (l l' : list str) (sen sen' : option str) (S : gset str) :
  (forall x, In x (map lower l) <-> In x (map lower l')) ->
  _overlap_score (Some {| tags := Some l; meta_seniority := sen |}) S
  = _overlap_score (Some {| tags := Some l'; meta_seniority := sen' |}) S
  /\ (_overlap_score None S == 0)%Q
  /\ (_overlap_score (Some {| tags := None; meta_seniority := sen |}) S == 0)%Q
  /\ (_overlap_score (Some {| tags := Some []; meta_seniority := sen |}) S == 0)%Q.
Proof.
  intros Hsame.
  assert (Heq : lowered_tags (Some {| tags := Some l; meta_seniority := sen |})
                = lowered_tags (Some {| tags := Some l'; meta_seniority := sen' |})).
  { apply set_eq. intros x. rewrite !lowered_tags_list. apply Hsame. }
  split; [unfold _overlap_score; rewrite Heq; reflexivity|].
  repeat split; apply overlap_disjoint; apply set_eq; intros x;
    rewrite elem_of_intersection; split; try (intros H; apply elem_of_empty in H; destruct H);
    intros [H _]; unfold lowered_tags in H; cbn [tags] in H;
    apply elem_of_map in H as [y [_ Hy]]; apply elem_of_list_to_set in Hy;
    apply list_elem_of_In in Hy; destruct Hy.
Qed.

Lemma tags_as_lower_set_witness :
  _overlap_score (Some {| tags := Some [py "AWS"; py "aws"; py "Terraform"];
                          meta_seniority := Some (py "Senior") |}) {[ py "aws" ]}
  = _overlap_score (Some {| tags := Some [py "terraform"; py "Aws"];
                            meta_seniority := None |}) {[ py "aws" ]}.
Proof.
  apply (tags_as_lower_set [py "AWS"; py "aws"; py "Terraform"] [py "terraform"; py "Aws"]).
  intros x. vm_compute. tauto.
Defined.

(** ** The field heuristics *)

Example seniority_samples :
  _guess_seniority (py "Senior DevOps Engineer") = py "Senior"
  /\ _guess_seniority (py "Team Lead, junior staff welcome") = py "Principal/Lead"
  /\ _guess_seniority (py "Mid - Level analyst") = py "Mid"
  /\ _guess_seniority (py "JUNIOR developer") = py "Junior"
  /\ _guess_seniority (py "Sr. Engineer") = []
  /\ _guess_seniority (py "Leadership skills") = [].
Proof. repeat split; vm_compute; reflexivity. Qed.

Example clean_line_samples :
  _clean_line (py "  Acme Corp.  ") = py "Acme Corp"
  /\ _clean_line (py "Remote -") = py "Remote"
  /\ _clean_line (py "a. ,") = py "a."
  /\ _clean_line (py " ;:,. ") = [].
Proof. repeat split; vm_compute; reflexivity. Qed.

Lemma drop_while_split (f : ascii -> bool) (s : str) :
  s = take_while f s ++ drop_while f s /\ Forall (fun c => f c = true) (take_while f s).
Proof.
  induction s as [|c s [IH1 IH2]]; cbn [take_while drop_while].
  - split; [reflexivity | constructor].
  - destruct (f c) eqn:Hc.
    + split; [cbn [app]; f_equal; exact IH1 | constructor; assumption].
    + split; [reflexivity | constructor].
Qed.

Lemma lstrip_drop_while (s : str) : lstrip s = drop_while is_space s.
Proof.
  induction s as [|c s IH]; [reflexivity|]. cbn [lstrip drop_while].
  destruct (is_space c); [exact IH | reflexivity].
Qed.

(** What is dropped at the end of a string, for [rstrip] and for
    [drop_trailing_marks]. *)
Lemma drop_end_split (f : ascii -> bool) (s : str) :
  exists tail, s = rev (drop_while f (rev s)) ++ tail /\ Forall (fun c => f c = true) tail.
Proof.
  destruct (drop_while_split f (rev s)) as [Hsplit Hall].
  exists (rev (take_while f (rev s))). split.
  - rewrite <- rev_app_distr, <- Hsplit, rev_involutive. reflexivity.
  - apply List.Forall_forall. intros c Hc. apply in_rev in Hc.
    rewrite List.Forall_forall in Hall. apply Hall. exact Hc.
Qed.

Lemma lstrip_fixed_prefix (a b : str) : lstrip (a ++ b) = a ++ b -> lstrip a = a.
Proof.
  destruct a as [|c a]; [reflexivity|]. cbn [app]. intros H.
  apply lstrip_fixed_head. apply lstrip_fixed_head in H. exact H.
Qed.

Lemma clean_line_stripped (s : str) : strip (_clean_line s) = _clean_line s.
Proof. unfold _clean_line. cbv zeta. apply strip_idem. Qed.

(** [_clean_line s] is the stripped [s] without an ending of marks and
    whitespace. *)
Lemma clean_line_prefix (s : str) :
  exists tail, strip s = _clean_line s ++ tail
               /\ Forall (fun c => is_space c || is_trailing_mark c = true) tail.
Proof.
  unfold _clean_line. cbv zeta.
  destruct (drop_end_split is_trailing_mark (strip s)) as [marks [Hm Hmarks]].
  fold (drop_trailing_marks (strip s)) in Hm.
  set (D := drop_trailing_marks (strip s)) in *.
  assert (HD : lstrip D = D).
  { apply (lstrip_fixed_prefix D marks). rewrite <- Hm. apply strip_lstrip_fixed. }
  destruct (drop_end_split is_space D) as [spaces [Hs Hspaces]].
  exists (spaces ++ marks). split.
  - assert (Hstrip : strip D = rev (drop_while is_space (rev D))).
    { unfold strip. rewrite HD. unfold rstrip. rewrite lstrip_drop_while. reflexivity. }
    rewrite Hstrip, app_assoc, <- Hs. exact Hm.
  - apply Forall_app. split.
    + eapply Forall_impl; [exact Hspaces|]. intros c Hc. cbv beta in Hc. rewrite Hc. reflexivity.
    + eapply Forall_impl; [exact Hmarks|]. intros c Hc. cbv beta in Hc. rewrite Hc.
      apply orb_true_r.
Qed.

(** X16. [_clean_line] returns a string without surrounding whitespace; it is
    the stripped input without an ending made of trailing marks and
    whitespace only; a stripped string that ends with no mark is returned
    as it is. *)
Theorem clean_line_shape (s : str) :
  strip (_clean_line s) = _clean_line s
  /\ (exists tail, strip s = _clean_line s ++ tail
                   /\ Forall (fun c => is_space c || is_trailing_mark c = true) tail)
  /\ (strip s = s -> drop_trailing_marks s = s -> _clean_line s = s).
Proof.
  split; [apply clean_line_stripped|]. split; [apply clean_line_prefix|].
  intros Hs Hd. unfold _clean_line. cbv zeta. rewrite Hs, Hd. exact Hs.
Qed.

Lemma clean_line_shape_witness : _clean_line (py "Acme Corp") = py "Acme Corp".
Proof.
  destruct (clean_line_shape (py "Acme Corp")) as [_ [_ H]].
  apply H; vm_compute; reflexivity.
Defined.

(** A match of a pattern that ends with a non-word character has a word
    character right after it. *)
Lemma search_symbol_end (p t : str) :
  p <> [] -> word_before p (length p) = false ->
  re_search p t = true ->
  exists i, occurs_at p t i = true /\ word_at t (i + length p) = true.
Proof.
  intros Hp Hlast Hs. unfold re_search in Hs.
  apply existsb_exists in Hs as [i [_ Hm]]. exists i.
  unfold match_at in Hm. apply andb_true_iff in Hm as [Hm Hend].
  apply andb_true_iff in Hm as [_ Hocc]. split; [exact Hocc|].
  assert (Hbefore : word_before t (i + length p) = false).
  { destruct (length p) as [|l] eqn:El; [destruct p; [congruence|discriminate]|].
    rewrite Nat.add_succ_r. cbn [word_before] in *. unfold word_at in *.
    rewrite (occurs_at_char p t i l Hocc) by lia. exact Hlast. }
  unfold at_boundary in Hend. rewrite Hbefore in Hend. exact Hend.
Qed.

Ltac case_ifs :=
  repeat match goal with
         | |- context [if ?b then _ else _] => destruct b eqn:?
         | H : context [if ?b then _ else _] |- _ => destruct b eqn:?
         end.

Lemma first_label_in (rules : list (list alternative * str)) (t : str) :
  first_label rules t = [] \/ In (first_label rules t) (map snd rules).
Proof.
  induction rules as [|[pat label] rules IH]; [left; reflexivity|].
  cbn [first_label map snd].
  destruct (existsb (fun a => alternative_search a t) pat).
  - right. left. reflexivity.
  - destruct IH as [IH|IH]; [left; exact IH | right; right; exact IH].
Qed.

Lemma first_label_nil (rules : list (list alternative * str)) (t : str) :
  Forall (fun rule => snd rule <> []) rules ->
  first_label rules t = [] <->
  existsb (fun rule => existsb (fun a => alternative_search a t) (fst rule)) rules = false.
Proof.
  intros Hlabels. induction Hlabels as [|[pat label] rules Hl _ IH]; [split; reflexivity|].
  cbn [first_label existsb fst]. cbn [snd] in Hl.
  destruct (existsb (fun a => alternative_search a t) pat); cbn [orb]; [|exact IH].
  split; [intros H; contradiction | discriminate].
Qed.

(** X17. The label is one of five; a principal, lead or staff cue decides it,
    whatever else the text says; the empty label means that no cue of any
    rank is found. *)
Theorem seniority_priority (text : str) :
  let t := lower text in
  let r := _guess_seniority text in
  In r [ []; py "Principal/Lead"; py "Senior"; py "Mid"; py "Junior" ]
  /\ (re_search (py "principal") t || re_search (py "lead") t || re_search (py "staff") t = true
      <-> r = py "Principal/Lead")
  /\ (r = [] <->
      existsb (fun rule => existsb (fun a => alternative_search a t) (fst rule)) _SENIORITY_MAP
      = false).
Proof.
  intros t r. subst r. unfold _guess_seniority. fold t. split; [|split].
  - destruct (first_label_in _SENIORITY_MAP t) as [H|H]; [left; symmetry; exact H|].
    right. exact H.
  - cbn [first_label _SENIORITY_MAP existsb alternative_search].
    rewrite !orb_false_r, !orb_assoc.
    destruct (re_search (py "principal") t || re_search (py "lead") t
              || re_search (py "staff") t); [split; reflexivity|].
    split; [discriminate|]. intros H. exfalso.
    destruct (re_search (py "senior") t || re_search (py "sr.") t);
      [vm_compute in H; discriminate H|].
    destruct (existsb (mid_level_at t) (seq 0 (S (length t)))
              || re_search (py "intermediate") t); [vm_compute in H; discriminate H|].
    destruct (re_search (py "junior") t || re_search (py "jr.") t);
      vm_compute in H; discriminate H.
  - apply first_label_nil. repeat constructor; cbn [snd]; intros H; vm_compute in H;
      discriminate H.
Qed.

(** X18. The abbreviations count only when glued to a following word: the label
    Senior needs the whole word "senior" or an "sr." with a word character
    right after the full stop, and the label Junior needs "junior" or such a
    "jr."; "Sr. Engineer" alone gives neither. *)
Theorem seniority_abbreviation (text : str) :
  let t := lower text in
  (_guess_seniority text = py "Senior" ->
   re_search (py "senior") t = true
   \/ exists i, occurs_at (py "sr.") t i = true /\ word_at t (i + 3) = true)
  /\ (_guess_seniority text = py "Junior" ->
      re_search (py "junior") t = true
      \/ exists i, occurs_at (py "jr.") t i = true /\ word_at t (i + 3) = true).
Proof.
  intros t. unfold _guess_seniority. fold t.
  cbn [first_label _SENIORITY_MAP existsb alternative_search].
  rewrite !orb_false_r, !orb_assoc.
  assert (Hsr : re_search (py "sr.") t = true ->
                exists i, occurs_at (py "sr.") t i = true /\ word_at t (i + 3) = true).
  { apply (search_symbol_end (py "sr.") t); [discriminate | reflexivity]. }
  assert (Hjr : re_search (py "jr.") t = true ->
                exists i, occurs_at (py "jr.") t i = true /\ word_at t (i + 3) = true).
  { apply (search_symbol_end (py "jr.") t); [discriminate | reflexivity]. }
  destruct (re_search (py "principal") t || re_search (py "lead") t
            || re_search (py "staff") t); [split; discriminate|].
  destruct (re_search (py "senior") t) eqn:Hsenior; cbn [orb].
  - split; [intros _; left; reflexivity | discriminate].
  - destruct (re_search (py "sr.") t) eqn:Hsrb.
    + split; [intros _; right; apply Hsr; reflexivity | discriminate].
    + destruct (existsb (mid_level_at t) (seq 0 (S (length t))) || re_search (py "intermediate") t);
        [split; discriminate|].
      destruct (re_search (py "junior") t) eqn:Hjunior; cbn [orb].
      * split; [discriminate | intros _; left; reflexivity].
      * destruct (re_search (py "jr.") t) eqn:Hjrb.
        -- split; [discriminate | intros _; right; apply Hjr; reflexivity].
        -- split; discriminate.
Qed.

Lemma seniority_abbreviation_witness :
  re_search (py "senior") (lower (py "Senior DevOps Engineer")) = true
  \/ exists i, occurs_at (py "sr.") (lower (py "Senior DevOps Engineer")) i = true
               /\ word_at (lower (py "Senior DevOps Engineer")) (i + 3) = true.
Proof.
  destruct (seniority_abbreviation (py "Senior DevOps Engineer")) as [H _].
  apply H. vm_compute. reflexivity.
Defined.

Lemma gap_char_plain (c : ascii) :
  is_gap_char c = true -> lower_char c = c /\ is_word c = false.
Proof.
  destruct c as [[] [] [] [] [] [] [] []]; vm_compute; intros H;
    first [discriminate H | split; reflexivity].
Qed.

Lemma take_while_app_all (f : ascii -> bool) (a b : str) :
  forallb f a = true -> take_while f (a ++ b) = a ++ take_while f b.
Proof.
  induction a as [|c a IH]; intros Ha; [reflexivity|].
  cbn [forallb] in Ha. apply andb_true_iff in Ha as [Hc Ha].
  cbn [app take_while]. rewrite Hc, IH by exact Ha. reflexivity.
Qed.

Lemma skipn_length_app (a b : str) : skipn (length a) (a ++ b) = b.
Proof. induction a as [|c a IH]; [reflexivity | exact IH]. Qed.

Lemma nth_error_length_app (a b : str) (k : nat) :
  nth_error (a ++ b) (length a + k) = nth_error b k.
Proof. induction a as [|c a IH]; [reflexivity | exact IH]. Qed.

(** A pattern is found only in a text that holds all its characters. *)
Lemma re_search_chars (p t : str) (c : ascii) :
  re_search p t = true -> In c p -> In c t.
Proof.
  unfold re_search. intros Hs Hc. apply existsb_exists in Hs as [i [_ Hm]].
  unfold match_at in Hm. apply andb_true_iff in Hm as [Hm _].
  apply andb_true_iff in Hm as [_ Hocc]. unfold occurs_at in Hocc.
  apply str_eqb_eq in Hocc. rewrite <- Hocc in Hc.
  assert (Hin : In c (skipn i t)).
  { rewrite <- (firstn_skipn (length p) (skipn i t)). apply in_or_app. left. exact Hc. }
  rewrite <- (firstn_skipn i t). apply in_or_app. right. exact Hin.
Qed.

(** X19. "mid" and "level" may be joined, or set apart by any run of hyphens and
    whitespace: every such spelling, in any letter case handled by
    [lower], is labelled Mid. *)
Theorem mid_level_spellings (gap : str) :
  forallb is_gap_char gap = true ->
  _guess_seniority (py "Mid" ++ gap ++ py "Level") = py "Mid".
Proof.
  intros Hgap.
  assert (Hall : forall c, In c gap -> is_gap_char c = true).
  { apply forallb_forall. exact Hgap. }
  assert (Hlow : lower gap = gap).
  { unfold lower. rewrite <- (map_id gap) at 2. apply map_ext_in.
    intros c Hc. apply gap_char_plain. apply Hall. exact Hc. }
  unfold _guess_seniority. rewrite !lower_app, Hlow.
  change (lower (py "Mid")) with (py "mid"). change (lower (py "Level")) with (py "level").
  set (t := py "mid" ++ gap ++ py "level").
  assert (Hno : forall p c, In c p -> ~ In c (py "mid") -> ~ In c (py "level") ->
                            is_gap_char c = false -> re_search p t = false).
  { intros p c Hp Hm Hl Hg. apply not_true_is_false. intros Hs.
    pose proof (re_search_chars p t c Hs Hp) as Hin. subst t.
    apply in_app_or in Hin as [Hin|Hin]; [exact (Hm Hin)|].
    apply in_app_or in Hin as [Hin|Hin]; [|exact (Hl Hin)].
    rewrite (Hall c Hin) in Hg. discriminate Hg. }
  assert (Hnotin : forall c l, existsb (fun d => Ascii.eqb d c) l = false -> ~ In c l).
  { intros c l Hex Hin. apply not_true_iff_false in Hex. apply Hex.
    apply existsb_exists. exists c. split; [exact Hin | apply Ascii.eqb_refl]. }
  assert (H1 : re_search (py "principal") t = false).
  { apply (Hno _ "p"%char); [left; reflexivity | apply Hnotin; reflexivity
                             | apply Hnotin; reflexivity | reflexivity]. }
  assert (H2 : re_search (py "lead") t = false).
  { apply (Hno _ "a"%char); [right; right; left; reflexivity | apply Hnotin; reflexivity
                             | apply Hnotin; reflexivity | reflexivity]. }
  assert (H3 : re_search (py "staff") t = false).
  { apply (Hno _ "s"%char); [left; reflexivity | apply Hnotin; reflexivity
                             | apply Hnotin; reflexivity | reflexivity]. }
  assert (H4 : re_search (py "senior") t = false).
  { apply (Hno _ "s"%char); [left; reflexivity | apply Hnotin; reflexivity
                             | apply Hnotin; reflexivity | reflexivity]. }
  assert (H5 : re_search (py "sr.") t = false).
  { apply (Hno _ "s"%char); [left; reflexivity | apply Hnotin; reflexivity
                             | apply Hnotin; reflexivity | reflexivity]. }
  assert (Hmid : mid_level_at t 0 = true).
  { unfold mid_level_at.
    assert (Hskip : skipn (0 + 3) t = gap ++ py "level") by reflexivity.
    rewrite Hskip, take_while_app_all by exact Hgap.
    change (take_while is_gap_char (py "level")) with (@nil ascii).
    rewrite app_nil_r. cbv zeta.
    assert (Hb0 : at_boundary t 0 = true) by reflexivity.
    assert (Ho0 : occurs_at (py "mid") t 0 = true) by (apply str_eqb_eq; reflexivity).
    assert (Ho1 : occurs_at (py "level") t (0 + 3 + length gap) = true).
    { apply str_eqb_eq. replace (0 + 3 + length gap) with (length gap + 3) by lia.
      rewrite <- skipn_skipn. change (skipn 3 t) with (gap ++ py "level").
      rewrite skipn_length_app. reflexivity. }
    assert (Hb1 : at_boundary t (0 + 3 + length gap + 5) = true).
    { replace (0 + 3 + length gap + 5) with (S (3 + (length gap + 4))) by lia.
      unfold at_boundary. cbn [word_before]. unfold word_at, char_at.
      change t with (py "mid" ++ (gap ++ py "level")).
      change 3 with (length (py "mid")) at 1 3.
      rewrite nth_error_length_app, nth_error_length_app.
      replace (S (length (py "mid") + (length gap + 4)))
        with (length (py "mid") + (length gap + 5)) by (cbn; lia).
      rewrite nth_error_length_app, nth_error_length_app. reflexivity. }
    rewrite Hb0, Ho0, Ho1, Hb1. reflexivity. }
  cbn [first_label _SENIORITY_MAP existsb alternative_search].
  rewrite H1, H2, H3, H4, H5. cbn [orb].
  assert (Hfound : existsb (mid_level_at t) (seq 0 (S (length t))) = true).
  { apply existsb_exists. exists 0. split; [|exact Hmid].
    apply in_seq. lia. }
  rewrite Hfound. reflexivity.
Qed.

Lemma mid_level_spellings_witness :
  _guess_seniority (py "Mid" ++ py " - " ++ py "Level") = py "Mid".
Proof.
  apply (mid_level_spellings (py " - ")). reflexivity.
Defined.

(** ** The extracted fields *)

Lemma first_some_spec {A B : Type} (f : A -> option B) (l : list A) (y : B) :
  first_some f l = Some y -> exists x, In x l /\ f x = Some y.
Proof.
  induction l as [|x l IH]; cbn [first_some]; [discriminate|].
  destruct (f x) as [z|] eqn:Hx.
  - intros H. injection H as <-. exists x. split; [left; reflexivity | exact Hx].
  - intros H. destruct (IH H) as [x' [Hin Hf]]. exists x'. split; [right; exact Hin | exact Hf].
Qed.

Lemma lower_char_letter (c : ascii) : is_letter (lower_char c) = is_letter c.
Proof. destruct c as [[] [] [] [] [] [] [] []]; reflexivity. Qed.

Lemma upper_lower_char (c : ascii) : upper_char (lower_char c) = upper_char c.
Proof. destruct c as [[] [] [] [] [] [] [] []]; reflexivity. Qed.

Lemma lower_char_other (c : ascii) : is_letter c = false -> lower_char c = c.
Proof.
  destruct c as [[] [] [] [] [] [] [] []]; vm_compute; intros H;
    first [reflexivity | discriminate H].
Qed.

(** [s.title()] does not depend on the case of [s]. *)
Lemma title_from_lower (after_letter : bool) (s : str) :
  title_from after_letter (lower s) = title_from after_letter s.
Proof.
  revert after_letter. induction s as [|c s IH]; intros after_letter; [reflexivity|].
  cbn [lower map title_from]. fold (lower s).
  rewrite lower_char_letter, lower_char_idem, upper_lower_char, !IH.
  destruct (is_letter c) eqn:Hc; [reflexivity|].
  rewrite (lower_char_other c Hc). reflexivity.
Qed.

Lemma place_title_values (text m : str) :
  first_some (place_at text) (positions text) = Some m -> In (to_title m) place_names.
Proof.
  intros Hm. apply first_some_spec in Hm as [i [_ Hi]].
  unfold place_at in Hi. destruct (at_boundary text i); [|discriminate].
  apply first_some_spec in Hi as [p [Hp Hi]].
  destruct (starts_ci p text i && at_boundary text (i + length p)) eqn:Hfit; [|discriminate].
  injection Hi as <-. apply andb_true_iff in Hfit as [Hci _].
  unfold starts_ci in Hci. apply str_eqb_eq in Hci.
  unfold substring. replace (i + length p - i) with (length p) by lia.
  unfold to_title. rewrite <- title_from_lower, Hci.
  unfold known_places in Hp. cbn [In] in Hp.
  repeat (destruct Hp as [<-|Hp]; [vm_compute; tauto|]). destruct Hp.
Qed.

(** X20. On ASCII text, without a labelled line the location is empty or one
    of seven names, always in title case, whatever the letter case in the
    text. *)
Theorem location_without_label (text : str) :
  labeled_value (py "location") text = None ->
  _extract_location text = [] \/ In (_extract_location text) place_names.
Proof.
  intros Hnone. unfold _extract_location. rewrite Hnone.
  destruct (first_some (place_at text) (positions text)) as [m|] eqn:Hm.
  - right. apply (place_title_values text m). exact Hm.
  - left. reflexivity.
Qed.

Lemma place_names_stripped (x : str) : In x place_names -> strip x = x.
Proof.
  unfold place_names. cbn [In]. intros H.
  repeat (destruct H as [<-|H]; [vm_compute; reflexivity|]). destruct H.
Qed.

(** X21. A title, a company and a location never come with whitespace around
    them. *)
Theorem fields_stripped (text : str) :
  strip (_extract_title text) = _extract_title text
  /\ strip (_extract_company text) = _extract_company text
  /\ strip (_extract_location text) = _extract_location text.
Proof.
  split; [|split].
  - unfold _extract_title.
    destruct (labeled_value (py "title") text); [apply clean_line_stripped|].
    cbv zeta.
    destruct (map strip (List.filter (fun l => negb (str_eqb (strip l) [])) (splitlines text)))
      as [|first rest]; [reflexivity|].
    destruct ((length (split first) <=? 12)
              && negb (existsb (fun p => contains_ci p first)
                         [py "company"; py "about us"; py "who we are"]));
      [apply clean_line_stripped | reflexivity].
  - unfold _extract_company.
    destruct (labeled_value (py "company") text); [apply clean_line_stripped|].
    destruct (first_some (about_at text) (positions text));
      [apply clean_line_stripped | reflexivity].
  - unfold _extract_location.
    destruct (labeled_value (py "location") text); [apply clean_line_stripped|].
    destruct (first_some (place_at text) (positions text)) as [m|] eqn:Hm; [|reflexivity].
    apply place_names_stripped. apply (place_title_values text m). exact Hm.
Qed.

Lemma bullet_of_line_stripped (line b : str) :
  In b (bullet_of_line line) -> strip b = b.
Proof.
  unfold bullet_of_line. destruct line as [|c rest]; [intros []|].
  destruct (is_bullet c && is_at is_space rest 0); [|intros []].
  cbv zeta. destruct (strip (drop_while is_space rest)) as [|d cleaned]; [intros []|].
  intros [<-|[]]. apply clean_line_stripped.
Qed.

(** X22. The bullets of a section never come with whitespace around them, and
    a text in which the header is not found has none. *)
Theorem bullets_stripped (text : str) (h : section_header) :
  (forall b, In b (_extract_bullets text h) -> strip b = b)
  /\ (header_start (_SECTION_HEADERS h) text = None -> _extract_bullets text h = []).
Proof.
  unfold _extract_bullets, bullets_of. split.
  - intros b Hb.
    destruct (header_start (_SECTION_HEADERS h) text) as [start|]; [|destruct Hb].
    cbv zeta in Hb.
    destruct (first_some (block_at (skipn start text)) (positions (skipn start text)))
      as [blk|]; [|destruct Hb].
    apply in_concat in Hb as [l [Hl Hb]].
    apply in_map_iff in Hl as [line [<- _]].
    apply (bullet_of_line_stripped line). exact Hb.
  - intros Hnone. rewrite Hnone. reflexivity.
Qed.

(** ** A labelled line *)

Lemma take_while_none (f : ascii -> bool) (s : str) :
  is_at f s 0 = false -> take_while f s = [].
Proof.
  destruct s as [|c s]; [reflexivity|]. unfold is_at, char_at. cbn [nth_error take_while].
  intros H. rewrite H. reflexivity.
Qed.

Lemma skipn_length_app_plus (a b : str) (k : nat) :
  skipn (length a + k) (a ++ b) = skipn k b.
Proof. induction a as [|c a IH]; [reflexivity | exact IH]. Qed.

Lemma firstn_length_app (a b : str) : firstn (length a) (a ++ b) = a.
Proof. induction a as [|c a IH]; [reflexivity | cbn; f_equal; exact IH]. Qed.

(** A greedy [\s*] that begins at a run of whitespace stops at its end. *)
Lemma ws_end_run (a ws rest : str) :
  forallb is_space ws = true -> is_at is_space rest 0 = false ->
  ws_end (a ++ ws ++ rest) (length a) = length a + length ws.
Proof.
  intros Hws Hrest. unfold ws_end. rewrite skipn_length_app.
  rewrite take_while_app_all by exact Hws.
  rewrite (take_while_none is_space rest Hrest), app_nil_r. reflexivity.
Qed.

Lemma is_space_lower_char (c : ascii) : is_space (lower_char c) = is_space c.
Proof. destruct c as [[] [] [] [] [] [] [] []]; reflexivity. Qed.

Lemma separator_no_space (c : ascii) :
  (code c =? 58) || (code c =? 45) = true -> is_space c = false.
Proof.
  destruct c as [[] [] [] [] [] [] [] []]; vm_compute; intros H;
    first [reflexivity | discriminate H].
Qed.

(** The value of a labelled line: the label in any letter case, a colon or
    a hyphen with optional whitespace around it, then the value up to the
    end of its line. *)
Lemma labeled_line_value (label name pre post v tail : str) (c : ascii) :
  lower name = label -> name <> [] -> is_at is_space name 0 = false ->
  forallb is_space pre = true ->
  (code c =? 58) || (code c =? 45) = true ->
  forallb is_space post = true ->
  v <> [] -> is_at is_space v 0 = false ->
  forallb (fun x => negb (is_newline x)) v = true ->
  tail = [] \/ is_at is_newline tail 0 = true ->
  labeled_value label (name ++ pre ++ [c] ++ post ++ v ++ tail) = Some v.
Proof.
  intros Hname Hne Hhead Hpre Hc Hpost Hv Hvhead Hvline Htail.
  set (t := name ++ pre ++ [c] ++ post ++ v ++ tail).
  assert (Hlen : length label = length name).
  { rewrite <- Hname. apply lower_length. }
  assert (H0 : ws_end t 0 = 0).
  { apply (ws_end_run [] [] t); [reflexivity|].
    subst t. destruct name as [|n0 name]; [congruence | exact Hhead]. }
  assert (Hci : starts_ci label t 0 = true).
  { unfold starts_ci. apply str_eqb_eq. rewrite skipn_O, Hlen.
    subst t. rewrite firstn_length_app. exact Hname. }
  assert (Hk : ws_end t (0 + length label) = length name + length pre).
  { cbn [Nat.add]. rewrite Hlen. subst t.
    apply (ws_end_run name pre ([c] ++ post ++ v ++ tail)); [exact Hpre|].
    cbn. apply separator_no_space. exact Hc. }
  assert (Hchar : char_at t (length name + length pre) = Some c).
  { unfold char_at. subst t. rewrite nth_error_length_app.
    rewrite <- (Nat.add_0_r (length pre)), nth_error_length_app. reflexivity. }
  assert (He : ws_end t (S (length name + length pre))
               = S (length name + length pre) + length post).
  { replace t with ((name ++ pre ++ [c]) ++ post ++ v ++ tail)
      by (subst t; rewrite <- !app_assoc; reflexivity).
    replace (S (length name + length pre)) with (length (name ++ pre ++ [c]))
      by (rewrite !length_app; cbn [length]; lia).
    apply ws_end_run; [exact Hpost|].
    destruct v as [|v0 v]; [congruence | exact Hvhead]. }
  assert (Hrest : skipn (S (length name + length pre) + length post) t = v ++ tail).
  { replace t with ((name ++ pre ++ [c] ++ post) ++ v ++ tail)
      by (subst t; rewrite <- !app_assoc; reflexivity).
    replace (S (length name + length pre) + length post)
      with (length (name ++ pre ++ [c] ++ post))
      by (rewrite !length_app; cbn [length]; lia).
    apply skipn_length_app. }
  assert (Hlt : (S (length name + length pre) + length post <? length t) = true).
  { apply Nat.ltb_lt. subst t. rewrite !length_app. cbn [length].
    destruct v; [congruence | cbn [length]; lia]. }
  assert (Hline : take_while (fun x => negb (is_newline x)) (v ++ tail) = v).
  { rewrite take_while_app_all by exact Hvline.
    rewrite take_while_none, app_nil_r; [reflexivity|].
    destruct Htail as [->|Htail]; [reflexivity|].
    unfold is_at in *. destruct (char_at tail 0); [|reflexivity].
    rewrite Htail. reflexivity. }
  assert (Hat : labeled_at label t 0 = Some v).
  { unfold labeled_at. cbn [line_start]. rewrite H0, Hci. cbv zeta.
    rewrite Hk, Hchar, Hc, He, Hlt, Hrest, Hline. reflexivity. }
  unfold labeled_value, positions. cbn [seq first_some]. rewrite Hat. reflexivity.
Qed.

Lemma label_head (label name : str) :
  lower name = label -> label <> [] -> is_at is_space label 0 = false ->
  name <> [] /\ is_at is_space name 0 = false.
Proof.
  intros Hname Hne Hhead. destruct name as [|n0 name]; [cbn in Hname; congruence|].
  split; [discriminate|]. subst label. cbn in Hhead |- *.
  rewrite is_space_lower_char in Hhead. exact Hhead.
Qed.

(** X23. A text that begins with a labelled line gives the cleaned value of the
    line: the label in any letter case, optional whitespace, a colon or a
    hyphen, optional whitespace, and the value, which runs to the end of its
    line; what follows the line plays no part. *)
Theorem labeled_first_line (name pre post v tail : str) (c : ascii) :
  forallb is_space pre = true ->
  (code c =? 58) || (code c =? 45) = true ->
  forallb is_space post = true ->
  v <> [] -> is_at is_space v 0 = false ->
  forallb (fun x => negb (is_newline x)) v = true ->
  tail = [] \/ is_at is_newline tail 0 = true ->
  let text := name ++ pre ++ [c] ++ post ++ v ++ tail in
  (lower name = py "title" -> _extract_title text = _clean_line v)
  /\ (lower name = py "company" -> _extract_company text = _clean_line v)
  /\ (lower name = py "location" -> _extract_location text = _clean_line v).
Proof.
  intros Hpre Hc Hpost Hv Hvhead Hvline Htail text.
  assert (Hval : forall label, label <> [] -> is_at is_space label 0 = false ->
                               lower name = label -> labeled_value label text = Some v).
  { intros label Hne Hhead Hname.
    destruct (label_head label name Hname Hne Hhead) as [Hn Hnh].
    apply labeled_line_value; assumption. }
  split; [|split]; intros Hname.
  - unfold _extract_title. rewrite (Hval (py "title")); [reflexivity|discriminate|reflexivity|exact Hname].
  - unfold _extract_company. rewrite (Hval (py "company")); [reflexivity|discriminate|reflexivity|exact Hname].
  - unfold _extract_location. rewrite (Hval (py "location")); [reflexivity|discriminate|reflexivity|exact Hname].
Qed.

Lemma labeled_first_line_witness :
  _extract_title (py "TITLE" ++ py " " ++ [":"%char] ++ py "  " ++ py "Senior DevOps Engineer."
                  ++ [ascii_of_nat 10] ++ py "Company: Acme")
  = _clean_line (py "Senior DevOps Engineer.").
Proof.
  pose proof (labeled_first_line (py "TITLE") (py " ") (py "  ") (py "Senior DevOps Engineer.")
                ([ascii_of_nat 10] ++ py "Company: Acme") ":"%char
                eq_refl eq_refl eq_refl ltac:(discriminate) eq_refl eq_refl
                (or_intror eq_refl)) as [H _].
  apply H. reflexivity.
Defined.

(** ** The first-line title *)

Lemma emit_word_le_split (b cur : str) :
  length (emit_word cur) <= length (split_from cur b).
Proof.
  revert cur. induction b as [|c b IH]; intros cur; cbn [split_from]; [lia|].
  destruct (is_space c).
  - rewrite length_app. lia.
  - specialize (IH (cur ++ [c])). destruct cur; cbn [emit_word app length] in *; lia.
Qed.

(** A prefix of a string has no more words than the string. *)
Lemma split_prefix_length (a b cur : str) :
  length (split_from cur a) <= length (split_from cur (a ++ b)).
Proof.
  revert cur. induction a as [|c a IH]; intros cur; cbn [app split_from].
  - apply emit_word_le_split.
  - destruct (is_space c); [|apply IH].
    rewrite !length_app. specialize (IH []). lia.
Qed.

(** What a prefix contains, the whole string contains. *)
Lemma contains_ci_prefix (p a b : str) :
  contains_ci p a = true -> contains_ci p (a ++ b) = true.
Proof.
  unfold contains_ci, positions. intros H.
  apply existsb_exists in H as [i [Hi Hs]]. apply existsb_exists.
  exists i. apply in_seq in Hi. split; [apply in_seq; rewrite length_app; lia|].
  unfold starts_ci in *. apply str_eqb_eq in Hs. apply str_eqb_eq.
  assert (Hlen : length p <= length (skipn i a)).
  { rewrite <- Hs at 1. rewrite lower_length, length_firstn. lia. }
  rewrite skipn_app. replace (i - length a) with 0 by lia. rewrite skipn_O.
  rewrite firstn_app. replace (length p - length (skipn i a)) with 0 by lia.
  rewrite firstn_O, app_nil_r. exact Hs.
Qed.

(** X24. A title taken from the first line, in the absence of a labelled line,
    has at most twelve words and mentions none of "company", "about us" and
    "who we are". *)
Theorem title_without_label (text : str) :
  labeled_value (py "title") text = None ->
  length (split (_extract_title text)) <= 12
  /\ forall p, In p [py "company"; py "about us"; py "who we are"] ->
               contains_ci p (_extract_title text) = false.
Proof.
  intros Hnone. unfold _extract_title. rewrite Hnone. cbv zeta.
  assert (Hempty : length (split []) <= 12
                   /\ forall p, In p [py "company"; py "about us"; py "who we are"] ->
                                contains_ci p [] = false).
  { split; [cbn; lia|]. intros p Hp. cbn [In] in Hp.
    repeat (destruct Hp as [<-|Hp]; [reflexivity|]). destruct Hp. }
  destruct (map strip (List.filter (fun l => negb (str_eqb (strip l) [])) (splitlines text)))
    as [|first rest] eqn:Hlines; [exact Hempty|].
  destruct (Nat.leb_spec (length (split first)) 12) as [Hwords|Hwords]; cbn [andb];
    [|exact Hempty].
  destruct (existsb (fun p => contains_ci p first)
              [py "company"; py "about us"; py "who we are"]) eqn:Hstop; cbn [negb];
    [exact Hempty|].
  assert (Hfirst : strip first = first).
  { assert (Hin : In first (map strip (List.filter (fun l => negb (str_eqb (strip l) []))
                                         (splitlines text)))).
    { rewrite Hlines. left. reflexivity. }
    apply in_map_iff in Hin as [l [<- _]]. apply strip_idem. }
  destruct (clean_line_prefix first) as [tail [Hpre _]]. rewrite Hfirst in Hpre.
  split.
  - unfold split in *. rewrite Hpre in Hwords.
    pose proof (split_prefix_length (_clean_line first) tail []). lia.
  - intros p Hp. apply not_true_is_false. intros Hc.
    apply (contains_ci_prefix p (_clean_line first) tail) in Hc. rewrite <- Hpre in Hc.
    apply not_true_iff_false in Hstop. apply Hstop.
    apply existsb_exists. exists p. split; [exact Hp | exact Hc].
Qed.

Lemma title_without_label_witness :
  length (split (_extract_title (py "Senior DevOps Engineer, Platform team."))) <= 12.
Proof.
  destruct (title_without_label (py "Senior DevOps Engineer, Platform team.")) as [H _].
  - vm_compute. reflexivity.
  - exact H.
Defined.

(** ** The company of an "About" phrase *)

Lemma about_at_group (t : str) (i : nat) (g : str) :
  about_at t i = Some g ->
  exists c run, g = c :: run /\ is_letter c = true /\ length run <= 40.
Proof.
  unfold about_at. destruct (starts_ci (py "about") t i); [|discriminate].
  cbv zeta. destruct (i + 5 <? ws_end t (i + 5)); [|discriminate].
  destruct (char_at t (ws_end t (i + 5))) as [c|]; [|discriminate].
  destruct (is_letter c) eqn:Hc; [|discriminate].
  destruct (2 <=? length (firstn 40 (take_while is_name_char (skipn (S (ws_end t (i + 5))) t))));
    [|discriminate].
  intros H. injection H as <-. eexists _, _. split; [reflexivity|]. split; [exact Hc|].
  rewrite length_firstn. lia.
Qed.

Lemma letter_no_space (c : ascii) : is_letter c = true -> is_space c = false.
Proof.
  destruct c as [[] [] [] [] [] [] [] []]; vm_compute; intros H;
    first [reflexivity | discriminate H].
Qed.

(** X25. A company taken from an "About ..." phrase, in the absence of a
    labelled line, is empty or begins with a letter, and has at most 41
    characters. *)
Theorem company_without_label (text : str) :
  labeled_value (py "company") text = None ->
  length (_extract_company text) <= 41
  /\ forall c rest, _extract_company text = c :: rest -> is_letter c = true.
Proof.
  intros Hnone. unfold _extract_company. rewrite Hnone.
  destruct (first_some (about_at text) (positions text)) as [g|] eqn:Hg;
    [|split; [cbn; lia | discriminate]].
  apply first_some_spec in Hg as [i [_ Hi]].
  apply about_at_group in Hi as [c [run [-> [Hc Hrun]]]].
  destruct (clean_line_prefix (c :: run)) as [tail [Hpre _]].
  assert (Hl : lstrip (c :: run) = c :: run).
  { apply lstrip_fixed_head. apply letter_no_space. exact Hc. }
  assert (Hs : exists spaces, c :: run = (_clean_line (c :: run) ++ tail) ++ spaces).
  { rewrite <- Hpre. unfold strip. rewrite Hl. unfold rstrip.
    destruct (drop_end_split is_space (c :: run)) as [spaces [H _]].
    exists spaces. rewrite lstrip_drop_while. exact H. }
  destruct Hs as [spaces Hs].
  split.
  - apply (f_equal (@length ascii)) in Hs. rewrite !length_app in Hs. cbn [length] in Hs. lia.
  - intros d rest Hd. rewrite Hd in Hs. cbn [app] in Hs. injection Hs as -> _. exact Hc.
Qed.

Lemma company_without_label_witness :
  length (_extract_company (py "About Acme Corp - we build things")) <= 41.
Proof.
  destruct (company_without_label (py "About Acme Corp - we build things")) as [H _].
  - vm_compute. reflexivity.
  - exact H.
Defined.

(** ** Sentence-cased lines *)

Lemma Forall_lstrip (P : ascii -> Prop) (s : str) : Forall P s -> Forall P (lstrip s).
Proof.
  induction 1 as [|c s Hc Hs IH]; cbn [lstrip]; [constructor|].
  destruct (is_space c); [exact IH | constructor; assumption].
Qed.

Lemma Forall_strip (P : ascii -> Prop) (s : str) : Forall P s -> Forall P (strip s).
Proof.
  intros H. unfold strip, rstrip. apply List.Forall_rev. apply Forall_lstrip.
  apply List.Forall_rev. apply Forall_lstrip. exact H.
Qed.

Lemma Forall_firstn_list {A : Type} (P : A -> Prop) (n : nat) (l : list A) :
  Forall P l -> Forall P (firstn n l).
Proof.
  intros H. rewrite List.Forall_forall in *. intros x Hx. apply H.
  rewrite <- (firstn_skipn n l). apply in_or_app. left. exact Hx.
Qed.

Lemma normalize_lines_sentence_cased (lines : list str) (skills_map : SkillMap) :
  Forall sentence_cased (_normalize_lines lines skills_map).
Proof.
  unfold _normalize_lines. apply List.Forall_map. apply List.Forall_forall. intros l _.
  set (s := fst (normalize_text l skills_map)).
  destruct (sentence_case_facts s) as [H1 [_ [H3 [H4 _]]]].
  split; [exact H1|]. split; [exact H4|].
  rewrite H3.
  assert (Hs : Forall (fun c => is_upper c = false) (strip s)).
  { apply Forall_strip. apply lower_fixed_no_upper. apply normalize_text_lower. }
  destruct (strip s) as [|c rest]; [constructor|].
  inversion Hs; subst. assumption.
Qed.

Section RecordLines.
Variable _extract_title _extract_company _extract_location _guess_seniority : str -> str.
Variable _extract_bullets : str -> section_header -> list str.
Variable coll_query : str -> Z -> QueryResult.

(** X26. On ASCII text and an ASCII skill map with plain canonical names,
    every must-have, nice-to-have and responsibility of the record is in
    sentence case: without whitespace around it, not beginning with a
    lower-case letter, and without an upper-case letter after its first
    character. *)
Theorem record_lines_sentence_cased (jd_text : str) (skills_map : SkillMap) (top_kw : Z) :
  plain_map skills_map = true ->
  let r := app_parse_jd _extract_title _extract_company _extract_location _guess_seniority
             _extract_bullets jd_text skills_map top_kw in
  Forall sentence_cased (must_haves r)
  /\ Forall sentence_cased (nice_to_haves r)
  /\ Forall sentence_cased (responsibilities r).
Proof.
  intros _ r. subst r.
  destruct (app_record_fields _extract_title _extract_company _extract_location
              _guess_seniority _extract_bullets jd_text skills_map top_kw)
    as [Hm [Hn [Hr _]]].
  rewrite Hm, Hn, Hr.
  assert (Hslice : forall lines n,
             Forall sentence_cased (slice_to (_normalize_lines lines skills_map) n)).
  { intros lines n.
    destruct (slice_to_firstn (_normalize_lines lines skills_map) n) as [m [-> _]].
    apply Forall_firstn_list. apply normalize_lines_sentence_cased. }
  repeat split; apply Hslice.
Qed.

Lemma detected_lower (text : str) (skills_map : SkillMap) (x : str) :
  x ∈ snd (normalize_text text skills_map) -> lower x = x.
Proof.
  unfold normalize_text.
  apply (fold_left_preserves (fun s : NormState => x ∈ snd s -> lower x = x)).
  - intros st [canonical synonyms] IH Hx.
    apply skill_step_adds in Hx as [Hx|Hx]; [apply IH; exact Hx|].
    subst x. apply lower_idem.
  - cbn [snd]. intros Hx. apply elem_of_empty in Hx. destruct Hx.
Qed.

(** X27. From the parser to the retriever nothing is lost: the skill set that
    scores the snippets is the set that [normalize_text] detects in the
    stripped job description (the sorted list, made a set again and
    lower-cased again, is that set), and the query text is the normalized
    text, or the raw text when the normalized text is empty. *)
Theorem pipeline_skills (jd_text : str) (skills_map : SkillMap) (snippet_count : Z) :
  let detected := snd (normalize_text (strip jd_text) skills_map) in
  let normalized := fst (normalize_text (strip jd_text) skills_map) in
  let query := match normalized with [] => jd_text | t => t end in
  lower_skills (Some (list_to_set (sorted_skills detected))) = detected
  /\ snd (snippets_for_jd _extract_title _extract_company _extract_location _guess_seniority
            _extract_bullets coll_query jd_text skills_map snippet_count)
     = query_snippets coll_query query (Some detected) snippet_count
  /\ candidates coll_query query (Some detected) snippet_count
     = (let res := coll_query query (Z.min 50 (snippet_count * 2)) in
        boost (documents res) (metadatas res) (dists_of res) detected).
Proof.
  intros detected normalized query.
  assert (Hset : (list_to_set (sorted_skills detected) : gset str) = detected).
  { apply set_eq. intros x. rewrite elem_of_list_to_set, list_elem_of_In.
    apply sorted_skills_spec. }
  assert (Hlow : lower_skills (Some detected) = detected).
  { unfold lower_skills. cbn [default]. apply set_eq. intros x. rewrite elem_of_map. split.
    - intros [y [-> Hy]]. rewrite (detected_lower _ _ y Hy). exact Hy.
    - intros Hx. exists x. split; [symmetry; apply (detected_lower _ _ x Hx) | exact Hx]. }
  split; [rewrite Hset; exact Hlow|]. split.
  - unfold snippets_for_jd. cbv zeta. cbn [snd].
    destruct (app_record_fields _extract_title _extract_company _extract_location
                _guess_seniority _extract_bullets jd_text skills_map 30)
      as [_ [_ [_ [Ht [_ Hs]]]]].
    rewrite Ht, Hs. fold detected. rewrite Hset. subst query normalized.
    destruct (fst (normalize_text (strip jd_text) skills_map)); reflexivity.
  - unfold candidates. cbv zeta. rewrite Hlow. reflexivity.
Qed.
End RecordLines.

(** ** A whole job description *)

(** The first scenario of the specification, with the heuristics of the
    source. *)
Example parse_scenario :
  let jd_text := py "Title: Senior DevOps Engineer" ++ nl ++ py "Company: Acme" ++ nl
                 ++ py "Requirements:" ++ nl ++ py "- Terraform experience" ++ nl
                 ++ py "- AD and MFA" in
  app_parse_jd _extract_title _extract_company _extract_location _guess_seniority
               _extract_bullets jd_text scenario_map 30
  = {| title := py "Senior DevOps Engineer";
       company := py "Acme";
       location := [];
       seniority := py "Senior";
       must_haves := [py "Terraform experience";
                      py "Active directory and multi-factor authentication"];
       nice_to_haves := [];
       responsibilities := [];
       keywords := [py "title"; py "senior"; py "devops"; py "engineer"; py "company";
                    py "acme"; py "terraform"; py "active"; py "directory"; py "multi";
                    py "factor"; py "authentication"];
       normalized_skills := [py "active directory"; py "multi-factor authentication"];
       normalized_text :=
         py "title: senior devops engineer" ++ nl ++ py "company: acme" ++ nl
         ++ py "requirements:" ++ nl ++ py "- terraform experience" ++ nl
         ++ py "- active directory and multi-factor authentication" |}.
Proof. vm_compute. reflexivity. Qed.

(** The second scenario: an empty job description. *)
Example parse_empty :
  app_parse_jd _extract_title _extract_company _extract_location _guess_seniority
               _extract_bullets [] [] 30
  = {| title := []; company := []; location := []; seniority := [];
       must_haves := []; nice_to_haves := []; responsibilities := [];
       keywords := []; normalized_skills := []; normalized_text := [] |}.
Proof. vm_compute. reflexivity. Qed.

(** ** Further concrete runs *)

Lemma missing_distances_witness :
  (4 # 8 == (1 # 2) + (1 # 4) * _overlap_score None (lower_skills None))%Q.
Proof.
  apply (missing_distances bare_index (py "devops") None 3
           (py "ran the help desk", None, (4 # 8)%Q)).
  - reflexivity.
  - left. vm_compute. reflexivity.
Defined.

Lemma location_without_label_witness :
  _extract_location (py "Hybrid role, REMOTE possible") = []
  \/ In (_extract_location (py "Hybrid role, REMOTE possible")) place_names.
Proof.
  apply (location_without_label (py "Hybrid role, REMOTE possible")).
  vm_compute. reflexivity.
Defined.

Lemma bullets_stripped_witness :
  _extract_bullets (py "We are hiring") Must_haves = [].
Proof.
  destruct (bullets_stripped (py "We are hiring") Must_haves) as [_ H].
  apply H. vm_compute. reflexivity.
Defined.

Lemma record_lines_sentence_cased_witness :
  Forall sentence_cased
    (must_haves (app_parse_jd _extract_title _extract_company _extract_location
                   _guess_seniority _extract_bullets
                   (py "Requirements:" ++ nl ++ py "- AD and MFA") scenario_map 30)).
Proof.
  destruct (record_lines_sentence_cased _extract_title _extract_company _extract_location
              _guess_seniority _extract_bullets
              (py "Requirements:" ++ nl ++ py "- AD and MFA") scenario_map 30) as [H _].
  - vm_compute. reflexivity.
  - exact H.
Defined.
